(** * plot_3d_image_processing: exploring a 3D image of cells

    A shallow embedding of the notebook [plot_3d_image_processing.ipynb] and
    of the array, plotting and exposure routines its cells call.

    Conventions of the embedding.
    - A numpy array is a [shape] (one length per axis) and its elements in
      row-major order ([flat]), as numpy stores a C-contiguous array.
    - An unsigned 16-bit pixel is a [Z]; a floating-point pixel is an exact
      rational [Q].  Rounding of binary floating point is not modelled; every
      statement below is about the exact value of the formula the code
      evaluates.  Only the power law of gamma correction leaves the
      rationals, so it is stated over the real numbers [R].
    - A Python exception is a value of [exn]; a call that may raise returns a
      [result].
    - Drawing has no return value of interest, so a plotting call is recorded
      as an entry of a trace. *)

From Stdlib Require Import String Ascii DecimalString.
From Stdlib Require Import ZArith QArith Qround Qminmax Reals Qreals Psatz Lia.
From Stdlib Require Import Bool Arith PeanoNat List Sorted.
Import ListNotations.

Set Implicit Arguments.

(** ** Exceptions and results *)

Inductive exn : Type :=
| TypeError (msg : string)
| ValueError (msg : string)
| IndexError (msg : string).

Inductive result (A : Type) : Type :=
| Ok (a : A)
| Raise (e : exn).

Arguments Ok {A} a.
Arguments Raise {A} e.

Definition bind {A B : Type} (r : result A) (k : A -> result B) : result B :=
  match r with
  | Ok a => k a
  | Raise e => Raise e
  end.

Notation "x <- r ;; k" := (bind r (fun x => k))
  (at level 61, r at next level, right associativity).

Definition is_index_error {A : Type} (r : result A) : bool :=
  match r with
  | Raise (IndexError _) => true
  | _ => false
  end.

(** ** Arrays *)

Module Np.

Record ndarray (A : Type) : Type := mk_ndarray {
  shape : list nat;
  flat : list A
}.

Arguments mk_ndarray {A} shape flat.

Definition size (sh : list nat) : nat := fold_right Nat.mul 1%nat sh.

Definition ndim {A} (a : ndarray A) : nat := length (shape a).

(** The invariant numpy maintains: as many elements as the shape announces. *)
Definition wf {A} (a : ndarray A) : Prop := length (flat a) = size (shape a).

(** Element-wise operations ([image / scale], [image ** gamma], [astype],
    ...) keep the shape. *)
Definition amap {A B} (f : A -> B) (a : ndarray A) : ndarray B :=
  mk_ndarray (shape a) (map f (flat a)).

(** [len(a)]: the length of the first axis. *)
Definition len {A} (a : ndarray A) : result nat :=
  match shape a with
  | [] => Raise (TypeError "len() of unsized object")
  | n :: _ => Ok n
  end.

(** [n] consecutive blocks of [k] elements: the sub-arrays along the first
    axis of an array whose remaining axes hold [k] elements. *)
Fixpoint chunks {A} (k n : nat) (xs : list A) : list (list A) :=
  match n with
  | O => []
  | S n' => firstn k xs :: chunks k n' (skipn k xs)
  end.

(** An index expression holds, per axis, an integer [i] or a slice
    [::step]; the full slice [:] is [::1]. *)
Inductive index : Type :=
| Idx (i : Z)
| Slice (step : Z).

Definition All : index := Slice 1.

(** Python's integer indexing: [-n <= i < n], negative values count from
    the end. *)
Definition norm_index (n : nat) (i : Z) : result nat :=
  if ((0 <=? i) && (i <? Z.of_nat n))%Z then Ok (Z.to_nat i)
  else if ((- Z.of_nat n <=? i) && (i <? 0))%Z then Ok (Z.to_nat (i + Z.of_nat n))
  else Raise (IndexError "index is out of bounds for axis").

Definition ceil_div (n s : nat) : nat := (n + s - 1) / s.

(** The positions selected by [::step] on an axis of length [n]. *)
Definition slice_indices (n : nat) (step : Z) : result (list nat) :=
  if (step =? 0)%Z then Raise (ValueError "slice step cannot be zero")
  else if (0 <? step)%Z then
    Ok (map (fun k => k * Z.to_nat step)%nat
            (seq 0 (ceil_div n (Z.to_nat step))))
  else
    Ok (map (fun k => n - 1 - k * Z.to_nat (- step))%nat
            (seq 0 (ceil_div n (Z.to_nat (- step))))).

(** Shape of [a[ix]]: an integer removes its axis, a slice keeps it with the
    number of selected positions, axes without an index are kept whole. *)
Fixpoint getitem_shape (sh : list nat) (ix : list index) : result (list nat) :=
  match ix, sh with
  | [], _ => Ok sh
  | _ :: _, [] => Raise (IndexError "too many indices for array")
  | Idx i :: ix', n :: sh' =>
      _ <- norm_index n i ;; getitem_shape sh' ix'
  | Slice s :: ix', n :: sh' =>
      js <- slice_indices n s ;;
      sh'' <- getitem_shape sh' ix' ;;
      Ok (length js :: sh'')
  end.

(** Elements of [a[ix]], in row-major order. *)
Fixpoint getitem_flat {A} (sh : list nat) (ix : list index) (xs : list A)
  : list A :=
  match ix, sh with
  | [], _ => xs
  | _ :: _, [] => xs
  | Idx i :: ix', n :: sh' =>
      match norm_index n i with
      | Ok j => getitem_flat sh' ix' (nth j (chunks (size sh') n xs) [])
      | Raise _ => []
      end
  | Slice s :: ix', n :: sh' =>
      match slice_indices n s with
      | Ok js =>
          flat_map
            (fun j => getitem_flat sh' ix' (nth j (chunks (size sh') n xs) []))
            js
      | Raise _ => []
      end
  end.

Definition getitem {A} (a : ndarray A) (ix : list index) : result (ndarray A) :=
  sh' <- getitem_shape (shape a) ix ;;
  Ok (mk_ndarray sh' (getitem_flat (shape a) ix (flat a))).

(** Iterating over an array yields its sub-arrays along the first axis. *)
Definition iter {A} (a : ndarray A) : result (list (ndarray A)) :=
  match shape a with
  | [] => Raise (TypeError "iteration over a 0-d array")
  | n :: sh' => Ok (map (mk_ndarray sh') (chunks (size sh') n (flat a)))
  end.

(** [a.flatten()] and [a.ravel()]. *)
Definition ravel {A} (a : ndarray A) : ndarray A :=
  mk_ndarray [length (flat a)] (flat a).

End Np.

Import Np.

(** ** Reductions and pixel types *)

(** [a.min()] and [a.max()] over all elements; numpy raises on an array
    without elements. *)
Definition amin (a : ndarray Q) : result Q :=
  match flat a with
  | [] => Raise (ValueError
      "zero-size array to reduction operation minimum which has no identity")
  | x :: xs => Ok (fold_left Qmin xs x)
  end.

Definition amax (a : ndarray Q) : result Q :=
  match flat a with
  | [] => Raise (ValueError
      "zero-size array to reduction operation maximum which has no identity")
  | x :: xs => Ok (fold_left Qmax xs x)
  end.

(** The value range skimage associates with a pixel type ([DTYPE_RANGE]). *)
Inductive dtype : Type := uint8 | uint16 | float32 | float64.

Definition DTYPE_RANGE (d : dtype) : Q * Q :=
  match d with
  | uint8 => (0, 255)
  | uint16 => (0, 65535)
  | float32 => (-1, 1)
  | float64 => (-1, 1)
  end%Q.

Definition is_uint16 (x : Z) : Prop := (0 <= x <= 65535)%Z.

(** [util.img_as_float] on unsigned 16-bit input: every pixel is multiplied
    by [1 / 65535]. *)
Definition img_as_float (a : ndarray Z) : ndarray Q :=
  amap (fun x => inject_Z x * (1 / 65535))%Q a.

(** ** Cell 4: load the volume

    [data = util.img_as_float(cells3d()[:, 1, :, :])].  The sample dataset
    [cells3d()] is an argument: a 4-D array of unsigned 16-bit pixels indexed
    by (plane, channel, row, column). *)
Definition load (cells3d : ndarray Z) : result (ndarray Q) :=
  nuclei <- getitem cells3d [All; Idx 1; All; All] ;;
  Ok (img_as_float nuclei).

(** The spacing triples of cell 4. *)
Definition original_spacing : list Q := [29 # 100; 65 # 1000; 65 # 1000].

Definition rescaled_spacing : list Q :=
  map (fun p => fst p * snd p)%Q (combine original_spacing [1; 4; 4]%Q).

Definition spacing : list Q :=
  map (fun x => x / nth 2 rescaled_spacing 0)%Q rescaled_spacing.

(** ** Output of the notebook: printed lines and drawing calls *)

Inductive event : Type :=
| Print (line : string)
| PrintRange (lo hi : Q)
| PrintSpacing (label : string) (values : list Q)
| Subplots (nrows ncols : nat)
| AddSubplot3D (pos : nat)
| Imshow (ax : nat) (image : ndarray Q) (cmap : string) (vmin vmax : option Q)
| AxisOff (ax : nat)
| SetTitle (ax : nat) (title : string)
| SetXticks (ax : nat) (ticks : list Q)
| SetYticks (ax : nat) (ticks : list Q)
| Scatter3D (ax : nat) (points : list (list Z))
| AddCollection3D (ax : nat) (polygons : list (list (list Z)))
| Show
| ShowTraceback (e : exn).

(** A drawing computation: the calls made so far, and a value or the
    exception that stopped it. *)
Definition plot (A : Type) : Type := list event * result A.

Definition pret {A} (a : A) : plot A := ([], Ok a).

Definition pbind {A B} (m : plot A) (k : A -> plot B) : plot B :=
  match snd m with
  | Ok a => (fst m ++ fst (k a), snd (k a))
  | Raise e => (fst m, Raise e)
  end.

Definition emit (e : event) : plot unit := ([e], Ok tt).

Definition lift {A} (r : result A) : plot A := ([], r).

Notation "x <~ m ;; k" := (pbind m (fun x => k))
  (at level 61, m at next level, right associativity).
Notation "m ;;; k" := (pbind m (fun _ => k))
  (at level 61, right associativity).

(** A [for] loop over a list; the first exception ends it. *)
Fixpoint for_each {A} (xs : list A) (body : A -> plot unit) : plot unit :=
  match xs with
  | [] => pret tt
  | x :: xs' => body x ;;; for_each xs' body
  end.

(** Python's [repr] of a tuple of integers, as it appears in messages. *)
Definition str_nat (n : nat) : string := NilZero.string_of_uint (Nat.to_uint n).

Definition str_Z (z : Z) : string := NilZero.string_of_int (Z.to_int z).

Fixpoint join_comma (xs : list string) : string :=
  match xs with
  | [] => ""
  | [x] => x
  | x :: xs' => x ++ ", " ++ join_comma xs'
  end.

Definition repr_shape (sh : list nat) : string :=
  match sh with
  | [n] => "(" ++ str_nat n ++ ",)"
  | _ => "(" ++ join_comma (map str_nat sh) ++ ")"
  end.

(** matplotlib reads image data of shape (M, N, 1) as (M, N), accepts the
    shapes (M, N), (M, N, 3) and (M, N, 4), and raises [TypeError] on any
    other shape. *)
Definition valid_image_shape (sh : list nat) : bool :=
  match sh with
  | [_; _] => true
  | [_; _; c] => (c =? 1)%nat || (c =? 3)%nat || (c =? 4)%nat
  | _ => false
  end.

(** [ax.imshow(image, cmap=..., vmin=..., vmax=...)].  The name of the
    colormap is recorded as it is given; the notebook passes ["gray"], which
    matplotlib knows. *)
Definition ax_imshow (ax : nat) (image : ndarray Q) (cmap : string)
    (vmin vmax : option Q) : plot unit :=
  if valid_image_shape (shape image) then emit (Imshow ax image cmap vmin vmax)
  else lift (Raise (TypeError
         ("Invalid shape " ++ repr_shape (shape image) ++ " for image data"))).

(** [plt.subplots(nrows, ncols)]: a new figure and its grid of axes, numbered
    row by row. *)
Definition plt_subplots (nrows ncols : nat) : plot (ndarray nat) :=
  emit (Subplots nrows ncols) ;;;
  pret (mk_ndarray [nrows; ncols] (seq 0 (nrows * ncols))).

(** [io.imshow(image, cmap=...)]: skimage reads the extreme values of the
    image, picks a display range from them, from the pixel type and from the
    contrast of the image, and hands the image to matplotlib on the current
    axes.  How the range is picked has no bearing on what follows, so it is
    a parameter. *)
Section IoImshow.

Variable display_range : ndarray Q -> Q -> Q -> Q * Q.

Definition io_imshow (image : ndarray Q) (cmap : string) : plot unit :=
  immin <~ lift (amin image) ;;
  immax <~ lift (amax image) ;;
  let (lo, hi) := display_range image immin immax in
  ax_imshow 0 image cmap (Some lo) (Some hi).

(** ** Cell 6: [io.imshow] on the volume, inside [try ... except TypeError] *)
Definition cell_imshow (data : ndarray Q) : plot unit :=
  let run := io_imshow data "gray" in
  match snd run with
  | Raise (TypeError msg) => (fst run ++ [Print msg], Ok tt)
  | _ => run
  end.

End IoImshow.

(** ** Cell 4, as run: the volume is loaded and described *)
Definition cell_load (cells3d : ndarray Z) : plot (ndarray Q) :=
  data <~ lift (load cells3d) ;;
  emit (Print ("shape: " ++ repr_shape (shape data))) ;;;
  emit (Print "dtype: float64") ;;;
  lo <~ lift (amin data) ;;
  hi <~ lift (amax data) ;;
  emit (PrintRange lo hi) ;;;
  emit (PrintSpacing "microscope spacing" original_spacing) ;;;
  emit (PrintSpacing "rescaled spacing" rescaled_spacing) ;;;
  emit (PrintSpacing "normalized spacing" spacing) ;;;
  pret data.

(** ** Cell 8: [show_plane] *)

(** [title=None] is [None]; [if title:] also skips an empty string. *)
Definition show_plane (ax : nat) (plane : ndarray Q) (cmap : string)
    (title : option string) : plot unit :=
  ax_imshow ax plane cmap None None ;;;
  emit (AxisOff ax) ;;;
  match title with
  | Some t => if String.eqb t "" then pret tt else emit (SetTitle ax t)
  | None => pret tt
  end.

(** ** Cell 10: [display] *)

Definition display (im3d : ndarray Q) (cmap : string) (step : Z) : plot unit :=
  axes <~ plt_subplots 5 6 ;;
  vmin <~ lift (amin im3d) ;;
  vmax <~ lift (amax im3d) ;;
  sel <~ lift (getitem im3d [Slice step]) ;;
  images <~ lift (iter sel) ;;
  for_each (combine (flat (ravel axes)) images)
    (fun p =>
       ax_imshow (fst p) (snd p) cmap (Some vmin) (Some vmax) ;;;
       emit (SetXticks (fst p) []) ;;;
       emit (SetYticks (fst p) [])).

Definition default_step : Z := 2.

(** The planes a run of [display] has drawn, in drawing order. *)
Fixpoint shown (t : list event) : list (nat * ndarray Q) :=
  match t with
  | [] => []
  | Imshow ax image _ _ _ :: t' => (ax, image) :: shown t'
  | _ :: t' => shown t'
  end.

(** The intensity bounds passed with each drawn plane. *)
Fixpoint bounds_used (t : list event) : list (option Q * option Q) :=
  match t with
  | [] => []
  | Imshow _ _ _ lo hi :: t' => (lo, hi) :: bounds_used t'
  | _ :: t' => bounds_used t'
  end.

(** ** Cell 12: [slice_in_3D] and [explore_slices] *)

(** [Z * data.shape]: each of the eight corners of the unit cube is scaled by
    the shape of the global [data]; broadcasting needs one length per
    coordinate (or a single one). *)
Definition unit_cube : list (list Z) :=
  [[0; 0; 0]; [1; 0; 0]; [1; 1; 0]; [0; 1; 0];
   [0; 0; 1]; [1; 0; 1]; [1; 1; 1]; [0; 1; 1]]%Z.

Definition scale_points (pts : list (list Z)) (by_ : list Z)
  : result (list (list Z)) :=
  match by_ with
  | [s] => Ok (map (map (Z.mul s)) pts)
  | [_; _; _] => Ok (map (fun p => map (fun c => fst c * snd c)%Z (combine p by_)) pts)
  | _ => Raise (ValueError "operands could not be broadcast together")
  end.

(** [slice_in_3D(ax, i)]: the corners and the faces of the box of the
    volume, then the rectangle of plane [i].  Labels and axis limits are not
    recorded. *)
Definition slice_in_3D (global_shape : list nat) (ax : nat) (i : Z) : plot unit :=
  Zs <~ lift (scale_points unit_cube (map Z.of_nat global_shape)) ;;
  emit (Scatter3D ax Zs) ;;;
  let Zn := fun k => nth k Zs [] in
  emit (AddCollection3D ax
          [[Zn 0; Zn 1; Zn 2; Zn 3]; [Zn 4; Zn 5; Zn 6; Zn 7];
           [Zn 0; Zn 1; Zn 5; Zn 4]; [Zn 2; Zn 3; Zn 7; Zn 6];
           [Zn 1; Zn 2; Zn 6; Zn 5]; [Zn 4; Zn 7; Zn 3; Zn 0];
           [Zn 2; Zn 3; Zn 7; Zn 6]]%nat) ;;;
  verts <~ lift (scale_points [[0; 0; 0]; [0; 0; 1]; [0; 1; 1]; [0; 1; 0]]%Z
                              [60; 256; 256]%Z) ;;
  emit (AddCollection3D ax
          [map (fun p => map (fun c => fst c + snd c)%Z (combine p [i; 0; 0]%Z))
               verts]).

(** The integer slider [interact] builds from the pair [(lo, hi)]. *)
Record IntSlider : Type := mk_slider {
  slider_min : Z;
  slider_max : Z;
  slider_value : Z
}.

(** ipywidgets starts the slider in the middle of its range and refuses an
    empty range. *)
Definition widget_from_tuple (lo hi : Z) : result IntSlider :=
  let value := (lo + (hi - lo) / 2)%Z in
  if ((lo <=? value) && (value <=? hi))%Z then Ok (mk_slider lo hi value)
  else Raise (ValueError "value must be between min and max").

(** Assigning the value of a bounded widget caps and floors it. *)
Definition set_value (s : IntSlider) (v : Z) : IntSlider :=
  mk_slider (slider_min s) (slider_max s)
            (Z.min (Z.max v (slider_min s)) (slider_max s)).

(** [@interact(plane=(lo, hi))] on a function whose parameter defaults to
    [default]. *)
Definition interact_slider (lo hi default : Z) : result IntSlider :=
  s <- widget_from_tuple lo hi ;;
  Ok (set_value s default).

(** ipywidgets calls the function of [interact] inside [try ... except
    Exception]: an exception ends the frame that raised it, its traceback is
    shown in the output area, and the widget goes on. *)
Definition update (frame : plot unit) : plot unit :=
  match snd frame with
  | Ok _ => frame
  | Raise e => (fst frame ++ [ShowTraceback e], Ok tt)
  end.

Section ExploreSlices.

(** [slice_in_3D] reads the shape of the notebook's global [data]. *)
Variable global_shape : list nat.

Definition display_slice (data : ndarray Q) (cmap : string) (plane : Z)
  : plot unit :=
  emit (Subplots 1 1) ;;;
  emit (AddSubplot3D 133) ;;;
  image <~ lift (getitem data [Idx plane]) ;;
  show_plane 0 image cmap (Some ("Plane " ++ str_Z plane)%string) ;;;
  slice_in_3D global_shape 1 plane ;;;
  emit Show.

(** [explore_slices(data, cmap)].  [interact] calls [display_slice] once with
    the initial value of the slider and again each time the value changes;
    [moves] are the values the user asks for, in order.  Building the slider
    happens outside the callback, so an exception there is the caller's. *)
Fixpoint follow (data : ndarray Q) (cmap : string) (s : IntSlider)
    (moves : list Z) : plot unit :=
  match moves with
  | [] => pret tt
  | v :: moves' =>
      let s' := set_value s v in
      if (slider_value s' =? slider_value s)%Z then follow data cmap s' moves'
      else
        update (display_slice data cmap (slider_value s')) ;;;
        follow data cmap s' moves'
  end.

Definition explore_slices (data : ndarray Q) (cmap : string) (moves : list Z)
  : plot unit :=
  N <~ lift (len data) ;;
  s <~ lift (interact_slider 0 (Z.of_nat N - 1) 34) ;;
  update (display_slice data cmap (slider_value s)) ;;;
  follow data cmap s moves.

End ExploreSlices.

(** ** numpy routines used by the exposure functions *)

Definition Qltb (x y : Q) : bool := negb (Qle_bool y x).

(** [np.clip(x, lo, hi)] is [minimum(maximum(x, lo), hi)]. *)
Definition clip (lo hi x : Q) : Q := Qmin (Qmax x lo) hi.

Fixpoint insert (x : Q) (l : list Q) : list Q :=
  match l with
  | [] => [x]
  | y :: l' => if Qle_bool x y then x :: l else y :: insert x l'
  end.

Definition sort (l : list Q) : list Q := fold_right insert [] l.

(** [np.percentile(a, q)] with the default linear interpolation: the value at
    the fractional position [(n - 1) * q / 100] of the sorted elements.
    numpy raises [ValueError] for [q] outside [0, 100], and [IndexError] on
    an array without elements, when it reaches for the last of them. *)
Definition percentile (a : list Q) (q : Q) : result Q :=
  if negb (Qle_bool 0 q && Qle_bool q 100) then
    Raise (ValueError "Percentiles must be in the range [0, 100]")
  else
    match sort a with
    | [] => Raise (IndexError "index -1 is out of bounds for axis 0 with size 0")
    | (x0 :: _) as s =>
        let n := length s in
        let virtual := (inject_Z (Z.of_nat (n - 1)) * (q / 100))%Q in
        let previous := Z.to_nat (Qfloor virtual) in
        let next := Nat.min (previous + 1) (n - 1) in
        let g := (virtual - inject_Z (Qfloor virtual))%Q in
        let lo := nth previous s x0 in
        let hi := nth next s x0 in
        Ok (lo + (hi - lo) * g)%Q
    end.

(** [np.histogram(a, bins=nbins)]: [nbins] bins of equal width between the
    smallest and the largest element (between [0] and [1] for an array
    without elements, and half a unit to each side of a single value); the
    last bin includes its right edge. *)
Definition hist_range (a : list Q) : Q * Q :=
  match a with
  | [] => (0, 1)
  | x :: xs =>
      let lo := fold_left Qmin xs x in
      let hi := fold_left Qmax xs x in
      if Qeq_bool lo hi then (lo - (1 # 2), hi + (1 # 2)) else (lo, hi)
  end%Q.

Definition bin_index (nbins : nat) (first last x : Q) : Z :=
  let k := Qfloor ((x - first) * (inject_Z (Z.of_nat nbins) / (last - first))) in
  if (k =? Z.of_nat nbins)%Z then (k - 1)%Z else k.

Definition bin_edge (nbins : nat) (first last : Q) (k : nat) : Q :=
  first + inject_Z (Z.of_nat k) * ((last - first) / inject_Z (Z.of_nat nbins)).

Definition np_histogram (a : list Q) (nbins : nat) : list nat * list Q :=
  let (first, last) := hist_range a in
  (map (fun k => length (filter (fun x => (bin_index nbins first last x =? Z.of_nat k)%Z) a))
       (seq 0 nbins),
   map (bin_edge nbins first last) (seq 0 (S nbins))).

Fixpoint cumsum_from (acc : nat) (l : list nat) : list nat :=
  match l with
  | [] => []
  | x :: l' => (acc + x)%nat :: cumsum_from (acc + x) l'
  end.

Definition cumsum (l : list nat) : list nat := cumsum_from 0 l.

(** [np.interp(x, xp, fp)]: piecewise linear through the points
    [(xp, fp)], constant outside them. *)
Fixpoint interp_from (x : Q) (p0 : Q * Q) (pts : list (Q * Q)) : Q :=
  match pts with
  | [] => snd p0
  | p1 :: pts' =>
      if Qltb x (fst p1) then
        (snd p1 - snd p0) / (fst p1 - fst p0) * (x - fst p0) + snd p0
      else interp_from x p1 pts'
  end.

Definition interp (x : Q) (xp fp : list Q) : result Q :=
  match combine xp fp with
  | [] => Raise (ValueError "array of sample points is empty")
  | p0 :: pts => Ok (if Qltb x (fst p0) then snd p0 else interp_from x p0 pts)
  end.

(** ** skimage.exposure *)

Module Exposure.

(** [histogram(image, nbins)] on a floating-point image: the counts and the
    centre of each bin. *)
Definition histogram (image : list Q) (nbins : nat) : list nat * list Q :=
  let (hist, edges) := np_histogram image nbins in
  (hist, map (fun p => (fst p + snd p) / 2) (combine (removelast edges) (tl edges))).

(** [cumulative_distribution(image, nbins)]: the running sum of the counts
    divided by its last value, which is the number of pixels.  On an image
    without pixels numpy divides 0 by 0 and every entry is not-a-number; the
    rationals have no such value (the quotient is 0 here), so what is stated
    of these entries is stated of images with pixels. *)
Definition cumulative_distribution (image : list Q) (nbins : nat)
  : list Q * list Q :=
  let (hist, bin_centers) := histogram image nbins in
  let img_cdf := cumsum hist in
  let total := inject_Z (Z.of_nat (last img_cdf O)) in
  (map (fun c => inject_Z (Z.of_nat c) / total) img_cdf, bin_centers).

(** [equalize_hist(image, nbins=256)]: every pixel is sent through the
    cumulative distribution, interpolated between the bin centres. *)
Definition equalize_hist_nbins (image : ndarray Q) (nbins : nat)
  : result (ndarray Q) :=
  if (nbins =? 0)%nat then
    Raise (ValueError "`bins` must be positive, when an integer")
  else
    let (cdf, bin_centers) := cumulative_distribution (flat image) nbins in
    match combine bin_centers cdf with
    | [] => Raise (ValueError "array of sample points is empty")
    | p0 :: pts =>
        Ok (amap (fun x => if Qltb x (fst p0) then snd p0
                           else interp_from x p0 pts)
                 image)
    end.

Definition equalize_hist (image : ndarray Q) : result (ndarray Q) :=
  equalize_hist_nbins image 256.

(** What [in_range] and [out_range] may be: the strings ['image'] and
    ['dtype'], a pixel type, or a pair of numbers. *)
Inductive range_values : Type :=
| OfImage
| OfDtype
| OfType (d : dtype)
| Pair (lo hi : Q).

(** [intensity_range(image, range_values, clip_negative)].  The images of
    the notebook hold 64-bit floats. *)
Definition intensity_range (image : ndarray Q) (rv : range_values)
    (clip_negative : bool) : result (Q * Q) :=
  match rv with
  | OfImage => lo <- amin image ;; hi <- amax image ;; Ok (lo, hi)
  | Pair lo hi => Ok (lo, hi)
  | OfDtype =>
      Ok (if clip_negative then 0 else fst (DTYPE_RANGE float64),
          snd (DTYPE_RANGE float64))
  | OfType d =>
      Ok (if clip_negative then 0 else fst (DTYPE_RANGE d), snd (DTYPE_RANGE d))
  end.

(** [rescale_intensity(image, in_range, out_range)]. *)
Definition rescale_intensity (image : ndarray Q) (in_range out_range : range_values)
  : result (ndarray Q) :=
  i <- intensity_range image in_range false ;;
  o <- intensity_range image out_range (Qle_bool 0 (fst i)) ;;
  let (imin, imax) := i in
  let (omin, omax) := o in
  let image := amap (clip imin imax) image in
  if negb (Qeq_bool imin imax) then
    Ok (amap (fun x => (x - imin) / (imax - imin) * (omax - omin) + omin) image)
  else
    Ok (amap (clip omin omax) image).

End Exposure.

(** ** Cell 17 and cell 23 *)

Definition equalized_data (data : ndarray Q) : result (ndarray Q) :=
  Exposure.equalize_hist data.

(** [vmin, vmax = np.percentile(data, q=(0.5, 99.5))], then
    [exposure.rescale_intensity(data, in_range=(vmin, vmax),
    out_range=np.float32)]. *)
Definition percentiles (data : ndarray Q) : result (Q * Q) :=
  vmin <- percentile (flat data) (5 # 10) ;;
  vmax <- percentile (flat data) (995 # 10) ;;
  Ok (vmin, vmax).

Definition clipped_data (data : ndarray Q) : result (ndarray Q) :=
  v <- percentiles data ;;
  Exposure.rescale_intensity data (Exposure.Pair (fst v) (snd v))
    (Exposure.OfType float32).

(** ** Gamma correction, over the real numbers *)

Module Gamma.

Local Open Scope R_scope.

(** [x ** g] as numpy computes it for [x >= 0]: [0 ** 0] is [1] and
    [0 ** g] is [0] for a positive exponent. *)
Definition power (x g : R) : R :=
  if Req_dec_T x 0 then (if Req_dec_T g 0 then 1 else 0) else Rpower x g.

Definition negative (x : R) : bool := if Rlt_dec x 0 then true else false.

(** For a floating-point image [dtype_limits(image, True)] is [(0, 1)]. *)
Definition scale : R := 1 - 0.

(** [exposure.adjust_gamma(image, gamma, gain=1)]. *)
Definition adjust_gamma_gain (image : ndarray R) (gamma gain : R)
  : result (ndarray R) :=
  if negative gamma then
    Raise (ValueError "Gamma should be a non-negative real number.")
  else if existsb negative (flat image) then
    Raise (ValueError
      "Image Correction methods work correctly only on images with non-negative values. Use skimage.exposure.rescale_intensity.")
  else
    Ok (amap (fun x => power (x / scale) gamma * scale * gain) image).

Definition adjust_gamma (image : ndarray R) (gamma : R) : result (ndarray R) :=
  adjust_gamma_gain image gamma 1.


(** The volume as gamma correction sees it. *)
Definition as_real (a : ndarray Q) : ndarray R := amap Q2R a.

Definition gamma_low_val : R := 5 / 10.
Definition gamma_high_val : R := 15 / 10.

(** Cell 15. *)
Definition gamma_low (data : ndarray Q) : result (ndarray R) :=
  adjust_gamma (as_real data) gamma_low_val.

Definition gamma_high (data : ndarray Q) : result (ndarray R) :=
  adjust_gamma (as_real data) gamma_high_val.

End Gamma.

(** ** Arrays as objects

    To speak about copies, views and the input being left alone, the
    elements of the arrays are placed in a memory of blocks.  An array
    object is the address of the block it looks at together with its shape:
    a call that returns a new array allocates a block, a view is another
    object on the block of its parent, and an in-place assignment overwrites
    a block, which every object on it then shows.  The exposure functions
    are written once more against this memory, one numpy call per step, the
    way skimage performs them. *)

Module Store.

Definition address : Type := nat.

Record array : Type := mk_array {
  base : address;
  dims : list nat
}.

Section Objects.

Variable A : Type.

Definition heap : Type := list (list A).

Definition M (T : Type) : Type := heap -> heap * result T.

Definition ret {T} (x : T) : M T := fun h => (h, Ok x).

Definition raise {T} (e : exn) : M T := fun h => (h, Raise e).

Definition mbind {T U} (m : M T) (k : T -> M U) : M U :=
  fun h =>
    match snd (m h) with
    | Ok x => k x (fst (m h))
    | Raise e => (fst (m h), Raise e)
    end.

Definition of_result {T} (r : result T) : M T := fun h => (h, r).

(** The array an object shows: the elements of its block, in its shape. *)
Definition read (o : array) : M (ndarray A) :=
  fun h =>
    match nth_error h (base o) with
    | Some block => (h, Ok (mk_ndarray (dims o) block))
    | None => (h, Raise (ValueError "name is not bound to an array"))
    end.

(** A call that returns a new array: a new block, and an object on it. *)
Definition new (a : ndarray A) : M array :=
  fun h => (h ++ [flat a], Ok (mk_array (length h) (shape a))).

Fixpoint replace (r : address) (block : list A) (h : heap) : heap :=
  match h, r with
  | [], _ => []
  | _ :: h', O => block :: h'
  | b :: h', S r' => b :: replace r' block h'
  end.

(** [target[...] = values]: the one operation that changes memory.  Every
    object on the block of [target] shows the new elements. *)
Definition assign (target : array) (values : list A) : M unit :=
  fun h => (replace (base target) values h, Ok tt).

End Objects.

Arguments ret {A T} x.
Arguments raise {A T} e.
Arguments of_result {A T} r.
Arguments read {A} o.
Arguments new {A} a.

Notation "x <<- m ;; k" := (mbind m (fun x => k))
  (at level 61, m at next level, right associativity).

(** An element-wise numpy operation allocates its result. *)
Definition elementwise {A} (f : A -> A) (o : array) : M A array :=
  a <<- read o ;;
  new (amap f a).

(** [a.astype(dtype)] copies; [a.astype(dtype, copy=False)] returns [a]
    itself when the type already matches, as it does for 64-bit floats. *)
Definition astype {A} (o : array) : M A array := elementwise (fun x => x) o.

Definition astype_copy_false {A} (o : array) : M A array := ret o.

(** A shape as numpy's own messages print it, without spaces. *)
Definition convert_shape_to_string (sh : list nat) : string :=
  match sh with
  | [n] => "(" ++ str_nat n ++ ",)"
  | _ => "(" ++ String.concat "," (map str_nat sh) ++ ")"
  end.

(** [a.reshape(shape)]: a view, that is a new object on the block of [a];
    the new shape must hold as many elements. *)
Definition reshape {A} (o : array) (sh : list nat) : M A array :=
  a <<- read o ;;
  if (size sh =? length (flat a))%nat then ret (mk_array (base o) sh)
  else raise (ValueError
         ("cannot reshape array of size " ++ str_nat (length (flat a))
          ++ " into shape " ++ convert_shape_to_string sh)).

(** [adjust_gamma]: [(((image / scale) ** gamma) * scale * gain).astype(dtype)]. *)
Definition adjust_gamma (image : array) (gamma gain : R) : M R array :=
  if Gamma.negative gamma then
    raise (ValueError "Gamma should be a non-negative real number.")
  else
    a <<- read image ;;
    if existsb Gamma.negative (flat a) then
      raise (ValueError
        "Image Correction methods work correctly only on images with non-negative values. Use skimage.exposure.rescale_intensity.")
    else
      t1 <<- elementwise (fun x => x / Gamma.scale)%R image ;;
      t2 <<- elementwise (fun x => Gamma.power x gamma) t1 ;;
      t3 <<- elementwise (fun x => x * Gamma.scale)%R t2 ;;
      t4 <<- elementwise (fun x => x * gain)%R t3 ;;
      astype t4.

(** [equalize_hist]: [out = np.interp(image.flat, bin_centers, cdf)] is a new
    one-dimensional array; [out.reshape(image.shape)] is a view of it, and
    [astype(float, copy=False)] returns that view. *)
Definition equalize_hist (image : array) (nbins : nat) : M Q array :=
  a <<- read image ;;
  if (nbins =? 0)%nat then
    raise (ValueError "`bins` must be positive, when an integer")
  else
    let (cdf, bin_centers) :=
      Exposure.cumulative_distribution (flat a) nbins in
    match combine bin_centers cdf with
    | [] => raise (ValueError "array of sample points is empty")
    | p0 :: pts =>
        out <<- new (mk_ndarray [length (flat a)]
                      (map (fun x => if Qltb x (fst p0) then snd p0
                                     else interp_from x p0 pts) (flat a))) ;;
        out <<- reshape out (shape a) ;;
        astype_copy_false out
    end.

(** [rescale_intensity]: [image = np.clip(image, imin, imax)] binds the
    local name to a new array; the arithmetic that follows allocates one
    array per operation, and [astype(out_dtype)] one more. *)
Definition rescale_intensity (image : array) (in_range out_range : Exposure.range_values)
  : M Q array :=
  a <<- read image ;;
  i <<- of_result (Exposure.intensity_range a in_range false) ;;
  o <<- of_result (Exposure.intensity_range a out_range (Qle_bool 0 (fst i))) ;;
  let (imin, imax) := i in
  let (omin, omax) := o in
  image <<- elementwise (clip imin imax) image ;;
  if negb (Qeq_bool imin imax) then
    t1 <<- elementwise (fun x => x - imin)%Q image ;;
    image <<- elementwise (fun x => x / (imax - imin))%Q t1 ;;
    t2 <<- elementwise (fun x => x * (omax - omin))%Q image ;;
    t3 <<- elementwise (fun x => x + omin)%Q t2 ;;
    astype t3
  else
    t1 <<- elementwise (clip omin omax) image ;;
    astype t1.

End Store.

(** ** Vocabulary of the statements *)

(** What holds of the slider throughout: its range is [0 .. N - 1] and its
    value lies inside. *)
Definition slider_ok (N : nat) (s : IntSlider) : Prop :=
  slider_min s = 0%Z /\ slider_max s = (Z.of_nat N - 1)%Z /\
  (0 <= slider_value s <= Z.of_nat N - 1)%Z.

(** The plane [im3d[j]] of a volume. *)
Definition plane_at (im3d : ndarray Q) (j : nat) : ndarray Q :=
  mk_ndarray (tl (shape im3d))
    (nth j (chunks (size (tl (shape im3d))) (hd O (shape im3d)) (flat im3d)) []).

(** The planes [im3d[::step]], as the loop of [display] receives them. *)
Definition selected (im3d : ndarray Q) (step : Z) : result (list (ndarray Q)) :=
  sel <- getitem im3d [Slice step] ;;
  iter sel.

(** The calls [display] makes for one subplot and its plane. *)
Definition drawn (cmap : string) (vmin vmax : Q) (p : nat * ndarray Q)
  : list event :=
  [Imshow (fst p) (snd p) cmap (Some vmin) (Some vmax);
   SetXticks (fst p) []; SetYticks (fst p) []].

(** [display] completes, having drawn the planes [im3d[::step]] in order on
    the subplots of a 5 by 6 grid, as far as the shorter of the two goes,
    each with the bounds [im3d.min()] and [im3d.max()]. *)
Definition renders_grid (im3d : ndarray Q) (cmap : string) (step : Z) : Prop :=
  exists vmin vmax planes,
    amin im3d = Ok vmin /\ amax im3d = Ok vmax /\
    selected im3d step = Ok planes /\
    display im3d cmap step =
      (Subplots 5 6 :: flat_map (drawn cmap vmin vmax)
                         (combine (seq 0 30) planes),
       Ok tt).

(** A pixel value in the closed interval from 0 to 1. *)
Definition unit_interval (y : Q) : Prop := 0 <= y <= 1.

Definition unit_interval_R (y : R) : Prop := (0 <= y <= 1)%R.

(** What [rescale_intensity] computes for one pixel when its input range is
    [(vmin, vmax)] with [vmin <> vmax] and its output range is [(0, 1)]. *)
Definition stretch (vmin vmax x : Q) : Q :=
  (clip vmin vmax x - vmin) / (vmax - vmin) * (1 - 0) + 0.

(** The extreme values of the rescaled volume lie between the two
    percentiles. *)
Definition bounded_by_percentiles (data : ndarray Q) : Prop :=
  exists vmin vmax out lo hi,
    percentiles data = Ok (vmin, vmax) /\
    clipped_data data = Ok out /\
    amin out = Ok lo /\ amax out = Ok hi /\
    vmin <= lo /\ hi <= vmax.



(** The computation [m], run on the array object [image], behaves as the
    function [pure] does on the array it shows and returns an independent
    copy.  Every block of the memory, that of the input among them, is
    afterwards what it was before.  When [pure] returns an array, [m]
    returns an object that shows it, of the shape of the input, on a block
    that did not exist before and is not the block of the input: assigning
    to the returned array leaves what the input shows as it is, and
    assigning to the input leaves what the returned array shows as it is. *)
Definition returns_copy {A} (m : Store.M A Store.array) (image : Store.array)
    (pure : ndarray A -> result (ndarray A)) : Prop :=
  forall (h : Store.heap A) (block : list A),
    nth_error h (Store.base image) = Some block ->
    length block = size (Store.dims image) ->
    let a := mk_ndarray (Store.dims image) block in
    (forall r b, nth_error h r = Some b -> nth_error (fst (m h)) r = Some b) /\
    match pure a with
    | Ok b =>
        exists out,
          snd (m h) = Ok out /\
          Store.base out <> Store.base image /\
          nth_error h (Store.base out) = None /\
          snd (Store.read out (fst (m h))) = Ok b /\
          shape b = shape a /\
          (forall c,
             snd (Store.read image (fst (Store.assign out c (fst (m h)))))
             = Ok a) /\
          (forall c,
             snd (Store.read out (fst (Store.assign image c (fst (m h)))))
             = Ok b)
    | Raise e => snd (m h) = Raise e
    end.

(** The exceptions whose traceback a run has shown. *)
Fixpoint tracebacks (t : list event) : list exn :=
  match t with
  | [] => []
  | ShowTraceback e :: t' => e :: tracebacks t'
  | _ :: t' => tracebacks t'
  end.

(** The ceiling of [a / b]. *)
Definition ceil_quot (a b : Z) : Z := (- ((- a) / b))%Z.

(** [display] shows exactly [min(30, ceil(len(im3d) / step))] planes. *)
Definition shows_count (im3d : ndarray Q) (cmap : string) (step : Z) : Prop :=
  exists N,
    len im3d = Ok N /\
    Z.of_nat (length (shown (fst (display im3d cmap step))))
    = Z.min 30 (ceil_quot (Z.of_nat N) step).

(** ** Further cells of the notebook *)

(** Cell 8, after [show_plane]: the shape is unpacked into three lengths,
    then the middle plane, the middle row and the middle column of the
    volume are shown side by side. *)
Definition cell_views (data : ndarray Q) : plot unit :=
  match shape data with
  | [n_plane; n_row; n_col] =>
      emit (Subplots 1 3) ;;;
      a <~ lift (getitem data [Idx (Z.of_nat (n_plane / 2))]) ;;
      show_plane 0 a "gray"
        (Some ("Plane = " ++ str_nat (n_plane / 2))%string) ;;;
      b <~ lift (getitem data [All; Idx (Z.of_nat (n_row / 2)); All]) ;;
      show_plane 1 b "gray"
        (Some ("Row = " ++ str_nat (n_row / 2))%string) ;;;
      c <~ lift (getitem data [All; All; Idx (Z.of_nat (n_col / 2))]) ;;
      show_plane 2 c "gray"
        (Some ("Column = " ++ str_nat (n_col / 2))%string)
  | _ :: _ :: _ :: _ :: _ =>
      lift (Raise (ValueError "too many values to unpack (expected 3)"))
  | sh =>
      lift (Raise (ValueError
        ("not enough values to unpack (expected 3, got "
         ++ str_nat (length sh) ++ ")")))
  end.

(** Cell 15: [plot_hist(ax, data, title)].  [ax.hist(data.ravel(), bins=256)]
    counts the pixels with [np.histogram] and draws one bar per bin; the
    calls are recorded with what is drawn. *)
Inductive hist_event : Type :=
| Hist (ax : nat) (counts : list nat) (edges : list Q)
| TickLabelFormat (ax : nat)
| HistTitle (ax : nat) (title : string).

Definition plot_hist (ax : nat) (data : ndarray Q) (title : option string)
  : list hist_event :=
  let (counts, edges) := np_histogram (flat (ravel data)) 256 in
  Hist ax counts edges :: TickLabelFormat ax ::
  match title with
  | Some t => if String.eqb t "" then [] else [HistTitle ax t]
  | None => []
  end.

(** ** Vocabulary of the further statements *)

(** The points handed to [np.interp]: abscissas strictly increasing,
    ordinates not decreasing. *)
Fixpoint rising (p0 : Q * Q) (pts : list (Q * Q)) : Prop :=
  match pts with
  | [] => True
  | p1 :: pts' => fst p0 < fst p1 /\ snd p0 <= snd p1 /\ rising p1 pts'
  end.

(** All corners of a polygon have the value [v] as their coordinate number
    [axis]. *)
Definition on_plane (axis : nat) (v : Z) (polygon : list (list Z)) : Prop :=
  Forall (fun corner => nth axis corner 0%Z = v) polygon.

(** The polygons of the [k]-th collection a run has added. *)
Fixpoint collections (t : list event) : list (list (list (list Z))) :=
  match t with
  | [] => []
  | AddCollection3D _ polygons :: t' => polygons :: collections t'
  | _ :: t' => collections t'
  end.

(** The points a run has scattered. *)
Fixpoint scattered (t : list event) : list (list Z) :=
  match t with
  | [] => []
  | Scatter3D _ points :: t' => points ++ scattered t'
  | _ :: t' => scattered t'
  end.

(** * Properties *)

Unset Implicit Arguments.

(** ** The embedding at work on small inputs *)

Example load_small :
  load (mk_ndarray [2; 2; 1; 2]%nat [1; 2; 3; 4; 5; 6; 7; 8]%Z)
  = Ok (mk_ndarray [2; 1; 2]%nat
          [3 * (1 / 65535); 4 * (1 / 65535); 7 * (1 / 65535); 8 * (1 / 65535)]).
Proof. reflexivity. Qed.

Example reversed_planes :
  getitem (mk_ndarray [3; 1; 2]%nat [0; 1; 2; 3; 4; 5]) [Slice (-2)]
  = Ok (mk_ndarray [2; 1; 2]%nat [4; 5; 0; 1]).
Proof. reflexivity. Qed.

Example display_small :
  display (mk_ndarray [3; 1; 2]%nat [0; 1 # 2; 1 # 4; 1; 1 # 8; 3 # 4])
    "gray" default_step
  = ([Subplots 5 6;
      Imshow 0 (mk_ndarray [1; 2]%nat [0; 1 # 2]) "gray" (Some 0) (Some 1);
      SetXticks 0 []; SetYticks 0 [];
      Imshow 1 (mk_ndarray [1; 2]%nat [1 # 8; 3 # 4]) "gray" (Some 0) (Some 1);
      SetXticks 1 []; SetYticks 1 []],
     Ok tt).
Proof. reflexivity. Qed.

Example percentiles_small :
  match percentiles (mk_ndarray [1; 1; 4]%nat [1; 0; 1 # 2; 1 # 4]) with
  | Ok (vmin, vmax) => (Qred vmin, Qred vmax) = (3 # 800, 397 # 400)
  | Raise _ => False
  end.
Proof. vm_compute. reflexivity. Qed.

Example equalize_small :
  match Exposure.equalize_hist_nbins
          (mk_ndarray [2; 1; 2]%nat [0; 1 # 2; 1 # 4; 1]) 4 with
  | Ok out => map Qred (flat out) = [1 # 4; 5 # 8; 3 # 8; 1]
  | Raise _ => False
  end.
Proof. vm_compute. reflexivity. Qed.

Example slider_small :
  interact_slider 0 (2 - 1) 34 = Ok (mk_slider 0 1 1).
Proof. reflexivity. Qed.

(** ** Arrays: shapes and blocks *)

Lemma ceil_div_1 (n : nat) : ceil_div n 1 = n.
Proof.
  unfold ceil_div. rewrite Nat.div_1_r. lia.
Qed.

Lemma slice_all_indices (n : nat) : slice_indices n 1 = Ok (seq 0 n).
Proof.
  unfold slice_indices.
  change (1 =? 0)%Z with false. change (0 <? 1)%Z with true. cbv iota.
  change (Z.to_nat 1) with 1%nat. rewrite ceil_div_1.
  f_equal. rewrite <- (map_id (seq 0 n)) at 2.
  apply map_ext. intros k. lia.
Qed.

Lemma norm_index_in_range (n : nat) (i : Z) :
  (0 <= i < Z.of_nat n)%Z -> norm_index n i = Ok (Z.to_nat i).
Proof.
  intros H. unfold norm_index.
  replace ((0 <=? i)%Z) with true by (symmetry; apply Z.leb_le; lia).
  replace ((i <? Z.of_nat n)%Z) with true by (symmetry; apply Z.ltb_lt; lia).
  reflexivity.
Qed.

Lemma norm_index_bound (n : nat) (i : Z) (j : nat) :
  norm_index n i = Ok j -> (j < n)%nat.
Proof.
  unfold norm_index.
  destruct ((0 <=? i)%Z && (i <? Z.of_nat n)%Z) eqn:E1.
  - apply andb_prop in E1 as [E1 E2].
    apply Z.leb_le in E1. apply Z.ltb_lt in E2.
    intros H. injection H as <-. lia.
  - destruct ((- Z.of_nat n <=? i)%Z && (i <? 0)%Z) eqn:E2; [|discriminate].
    apply andb_prop in E2 as [E2 E3].
    apply Z.leb_le in E2. apply Z.ltb_lt in E3.
    intros H. injection H as <-. lia.
Qed.

Lemma chunks_length {A} (k n : nat) (xs : list A) : length (chunks k n xs) = n.
Proof.
  revert xs. induction n as [|n IH]; intros xs; simpl; [reflexivity|].
  now rewrite IH.
Qed.

Lemma chunks_nth_length {A} (k n : nat) (xs : list A) (j : nat) :
  length xs = (n * k)%nat -> (j < n)%nat ->
  length (nth j (chunks k n xs) []) = k.
Proof.
  revert xs j. induction n as [|n IH]; intros xs j Hlen Hj; [lia|].
  simpl. destruct j as [|j].
  - rewrite length_firstn. simpl in Hlen. lia.
  - apply IH; [|lia]. rewrite length_skipn. simpl in Hlen. lia.
Qed.

Lemma chunks_app {A} (k n : nat) (x ys : list A) :
  length x = k -> chunks k (S n) (x ++ ys) = x :: chunks k n ys.
Proof.
  intros H. simpl. f_equal.
  - rewrite firstn_app, H, Nat.sub_diag. simpl.
    rewrite app_nil_r. rewrite <- H. apply firstn_all.
  - rewrite skipn_app, H, Nat.sub_diag. simpl.
    rewrite <- H, skipn_all. reflexivity.
Qed.

Lemma concat_chunks {A} (k n : nat) (xs : list A) :
  length xs = (n * k)%nat -> concat (chunks k n xs) = xs.
Proof.
  revert xs. induction n as [|n IH]; intros xs H; simpl.
  - simpl in H. destruct xs; [reflexivity|discriminate].
  - rewrite IH.
    + apply firstn_skipn.
    + rewrite length_skipn. simpl in H. lia.
Qed.

Lemma flat_map_seq_nth {A} (l : list (list A)) :
  flat_map (fun j => nth j l []) (seq 0 (length l)) = concat l.
Proof.
  induction l as [|x l IH]; [reflexivity|].
  simpl. f_equal. rewrite <- seq_shift, flat_map_concat_map, map_map.
  rewrite <- flat_map_concat_map. exact IH.
Qed.

Lemma ceil_div_bound (n m k : nat) :
  (0 < m)%nat -> (k < ceil_div n m)%nat -> (k * m < n)%nat.
Proof.
  intros Hm Hk. unfold ceil_div in Hk.
  destruct (Nat.eq_dec n 0) as [->|Hn].
  - rewrite Nat.div_small in Hk by lia. lia.
  - assert (Hd : ((n + m - 1) / m * m <= n + m - 1)%nat)
      by (rewrite Nat.mul_comm; apply Nat.Div0.mul_div_le).
    assert (H : (S k * m <= (n + m - 1) / m * m)%nat)
      by (apply Nat.mul_le_mono_r; lia).
    simpl in H. lia.
Qed.

(** A slice selects positions of the axis. *)
Lemma slice_indices_bound (n : nat) (s : Z) (js : list nat) :
  slice_indices n s = Ok js -> Forall (fun j => j < n)%nat js.
Proof.
  unfold slice_indices. intros Ejs.
  destruct (s =? 0)%Z eqn:E0; [discriminate|].
  apply Z.eqb_neq in E0.
  destruct (0 <? s)%Z eqn:Epos; injection Ejs as <-;
    apply Forall_forall; intros j Hj; apply in_map_iff in Hj as [k [<- Hk]];
    apply in_seq in Hk.
  - apply Z.ltb_lt in Epos. apply ceil_div_bound; lia.
  - apply Z.ltb_ge in Epos.
    assert (k * Z.to_nat (- s) < n)%nat by (apply ceil_div_bound; lia).
    lia.
Qed.

(** The result of indexing has as many elements as its shape announces. *)
Lemma getitem_flat_length {A} (ix : list index) :
  forall (sh sh' : list nat) (xs : list A),
    getitem_shape sh ix = Ok sh' ->
    length xs = size sh ->
    length (getitem_flat sh ix xs) = size sh'.
Proof.
  induction ix as [|i ix IH]; intros sh sh' xs Hs Hlen.
  - simpl in Hs. destruct sh; injection Hs as <-; exact Hlen.
  - destruct sh as [|n sh]; [destruct i; discriminate|].
    destruct i as [i|s]; simpl in Hs |- *.
    + destruct (norm_index n i) as [j|e] eqn:Ej; [|discriminate].
      simpl in Hs. apply IH; [exact Hs|].
      apply chunks_nth_length; [exact Hlen|].
      eapply norm_index_bound; eassumption.
    + destruct (slice_indices n s) as [js|e] eqn:Ejs; [|discriminate].
      simpl in Hs.
      destruct (getitem_shape sh ix) as [sh''|e] eqn:Esh; [|discriminate].
      simpl in Hs. injection Hs as <-. simpl.
      pose proof (slice_indices_bound n s js Ejs) as Hjs.
      clear Ejs. induction js as [|j js IHjs]; [reflexivity|].
      simpl. rewrite length_app. inversion Hjs; subst.
      rewrite IHjs by assumption. f_equal.
      apply IH; [exact Esh|].
      apply chunks_nth_length; assumption.
Qed.

Lemma getitem_wf {A} (a b : ndarray A) (ix : list index) :
  wf a -> getitem a ix = Ok b -> wf b.
Proof.
  unfold getitem, wf. intros Hwf H.
  destruct (getitem_shape (shape a) ix) as [sh'|e] eqn:E; [|discriminate].
  simpl in H. injection H as <-. simpl.
  eapply getitem_flat_length; eassumption.
Qed.

Lemma amap_wf {A B} (f : A -> B) (a : ndarray A) : wf a -> wf (amap f a).
Proof.
  unfold wf, amap. simpl. now rewrite length_map.
Qed.

Lemma chunks_map {A B} (f : A -> B) (k n : nat) (xs : list A) :
  chunks k n (map f xs) = map (map f) (chunks k n xs).
Proof.
  revert xs. induction n as [|n IH]; intros xs; simpl; [reflexivity|].
  now rewrite firstn_map, skipn_map, IH.
Qed.

Lemma chunks_flat_map {A} (G : nat -> list A) (k : nat) (l : list nat) :
  Forall (fun j => length (G j) = k) l ->
  chunks k (length l) (flat_map G l) = map G l.
Proof.
  induction 1 as [|j l Hj Hl IH]; [reflexivity|].
  cbn [flat_map length map]. rewrite chunks_app by exact Hj. now rewrite IH.
Qed.

(** Indexing with full slices only returns the whole array. *)
Lemma getitem_flat_all {A} (ix : list index) :
  forall (sh : list nat) (xs : list A),
    Forall (eq All) ix -> length xs = size sh ->
    getitem_flat sh ix xs = xs.
Proof.
  induction ix as [|i ix IH]; intros sh xs Hall Hlen;
    [destruct sh; reflexivity|].
  destruct sh as [|n sh]; [destruct i; reflexivity|].
  inversion Hall as [|? ? Hi Hix]; subst. unfold All.
  cbn [getitem_flat]. rewrite slice_all_indices.
  assert (Hlen' : length xs = (n * size sh)%nat) by (rewrite Hlen; reflexivity).
  transitivity (flat_map (fun j => nth j (chunks (size sh) n xs) []) (seq 0 n)).
  - rewrite !flat_map_concat_map. f_equal.
    apply map_ext_in. intros j Hj. apply in_seq in Hj.
    apply IH; [assumption|].
    apply chunks_nth_length; [exact Hlen'|lia].
  - replace (seq 0 n) with (seq 0 (length (chunks (size sh) n xs)))
      by (now rewrite chunks_length).
    rewrite flat_map_seq_nth. apply concat_chunks. exact Hlen'.
Qed.

(** ** C6: the loaded volume *)

(** C6.  Taking channel 1 of a 4-D dataset of shape (n_plane, n_channel,
    n_row, n_col) that has such a channel, and converting it with
    [img_as_float], returns an array with exactly three axes, of shape
    (n_plane, n_row, n_col); its first axis counts planes: [data[plane]] is
    the converted (row, column) image [cells3d[plane, 1]]. *)
Theorem load_three_axes (cells3d : ndarray Z)
    (n_plane n_channel n_row n_col : nat) :
  shape cells3d = [n_plane; n_channel; n_row; n_col] ->
  (1 < n_channel)%nat ->
  exists data,
    load cells3d = Ok data /\
    shape data = [n_plane; n_row; n_col] /\
    ndim data = 3%nat /\
    (wf cells3d ->
     wf data /\
     forall plane, (0 <= plane < Z.of_nat n_plane)%Z ->
       exists nuclei,
         getitem cells3d [Idx plane; Idx 1] = Ok nuclei /\
         shape nuclei = [n_row; n_col] /\
         getitem data [Idx plane] = Ok (img_as_float nuclei)).
Proof.
  intros Hsh Hch.
  assert (Hi1 : norm_index n_channel 1 = Ok 1%nat)
    by (apply (@norm_index_in_range n_channel 1%Z); lia).
  assert (Hshape : getitem_shape (shape cells3d) [All; Idx 1; All; All]
                   = Ok [n_plane; n_row; n_col]).
  { rewrite Hsh. unfold All. cbn [getitem_shape].
    rewrite !slice_all_indices, Hi1. cbn [bind]. now rewrite !length_seq. }
  unfold load, getitem. rewrite Hshape. cbn [bind].
  remember (getitem_flat (shape cells3d) [All; Idx 1; All; All] (flat cells3d))
    as nuc eqn:Hnuc.
  eexists. split; [reflexivity|]. split; [reflexivity|]. split; [reflexivity|].
  intros Hwf. split.
  { apply amap_wf. unfold wf. cbn [shape flat]. rewrite Hnuc.
    eapply getitem_flat_length; [exact Hshape|exact Hwf]. }
  intros plane Hplane.
  assert (Hip : norm_index n_plane plane = Ok (Z.to_nat plane))
    by (apply norm_index_in_range; lia).
  rewrite Hsh. cbn [getitem_shape]. rewrite Hip, Hi1. cbn [bind].
  eexists. split; [reflexivity|]. split; [reflexivity|].
  unfold img_as_float, amap. cbn [shape flat getitem_shape getitem_flat].
  rewrite Hip, Hi1. cbn [bind]. f_equal. f_equal.
  unfold wf in Hwf. rewrite Hsh in Hwf, Hnuc.
  set (f := fun x : Z => (inject_Z x * (1 / 65535))%Q).
  set (K := size [n_row; n_col]).
  set (G := fun j : nat =>
              nth 1 (chunks K n_channel
                       (nth j (chunks (size [n_channel; n_row; n_col]) n_plane
                                 (flat cells3d)) [])) []).
  assert (HG : forall j, (j < n_plane)%nat -> length (G j) = K).
  { intros j Hj. unfold G. apply chunks_nth_length; [|exact Hch].
    rewrite chunks_nth_length with (k := size [n_channel; n_row; n_col]);
      [reflexivity|exact Hwf|exact Hj]. }
  assert (Hflat : nuc = flat_map G (seq 0 n_plane)).
  { rewrite Hnuc. unfold All at 1. cbn [getitem_flat].
    rewrite slice_all_indices, Hi1.
    rewrite !flat_map_concat_map. f_equal.
    apply map_ext_in. intros j Hj. apply in_seq in Hj.
    apply (getitem_flat_all [All; All] [n_row; n_col]).
    - repeat constructor.
    - apply HG. lia. }
  assert (Hck : chunks K n_plane (flat_map G (seq 0 n_plane))
                = map G (seq 0 n_plane)).
  { rewrite <- (chunks_flat_map G K (seq 0 n_plane)).
    - now rewrite length_seq.
    - apply Forall_forall. intros j Hj. apply in_seq in Hj. apply HG. lia. }
  rewrite Hflat, chunks_map, Hck, map_map.
  rewrite (nth_indep _ [] ((fun j => map f (G j)) 0%nat))
    by (rewrite length_map, length_seq; lia).
  rewrite (map_nth (fun j => map f (G j))).
  rewrite seq_nth by lia. reflexivity.
Qed.

Lemma load_three_axes_witness :
  exists data,
    load (mk_ndarray [2; 2; 1; 2]%nat [1; 2; 3; 4; 5; 6; 7; 8]%Z) = Ok data /\
    shape data = [2; 1; 2]%nat /\
    ndim data = 3%nat.
Proof.
  destruct (load_three_axes (mk_ndarray [2; 2; 1; 2]%nat [1; 2; 3; 4; 5; 6; 7; 8]%Z)
              2%nat 2%nat 1%nat 2%nat eq_refl (le_n 2))
    as [data [H1 [H2 [H3 _]]]].
  exists data. repeat split; assumption.
Defined.

(** ** C3: [io.imshow] on the volume *)

Lemma amin_nonempty (a : ndarray Q) :
  flat a <> [] -> exists m, amin a = Ok m.
Proof.
  unfold amin. destruct (flat a); [congruence|]. eauto.
Qed.

Lemma amax_nonempty (a : ndarray Q) :
  flat a <> [] -> exists m, amax a = Ok m.
Proof.
  unfold amax. destruct (flat a); [congruence|]. eauto.
Qed.

Lemma not_an_image (n_plane n_row n_col : nat) :
  n_col <> 1%nat -> n_col <> 3%nat -> n_col <> 4%nat ->
  valid_image_shape [n_plane; n_row; n_col] = false.
Proof.
  intros H1 H3 H4. simpl.
  apply Nat.eqb_neq in H1. apply Nat.eqb_neq in H3. apply Nat.eqb_neq in H4.
  now rewrite H1, H3, H4.
Qed.

(** A volume whose last axis has length 1, 3 or 4 is an image to
    matplotlib -- grey levels, RGB or RGBA: [io.imshow] draws it, and cell 6
    prints nothing. *)
Lemma imshow_channels_drawn (display_range : ndarray Q -> Q -> Q -> Q * Q)
    (data : ndarray Q) (n_plane n_row n_col : nat) :
  shape data = [n_plane; n_row; n_col] ->
  n_col = 1%nat \/ n_col = 3%nat \/ n_col = 4%nat ->
  flat data <> [] ->
  exists lo hi,
    cell_imshow display_range data
    = ([Imshow 0 data "gray" (Some lo) (Some hi)], Ok tt).
Proof.
  intros Hsh Hc Hne.
  destruct (amin_nonempty data Hne) as [lo Hlo].
  destruct (amax_nonempty data Hne) as [hi Hhi].
  unfold cell_imshow, io_imshow. rewrite Hlo, Hhi. unfold pbind, lift.
  cbn [fst snd].
  destruct (display_range data lo hi) as [l h].
  unfold ax_imshow. rewrite Hsh.
  assert (Hv : valid_image_shape [n_plane; n_row; n_col] = true)
    by (destruct Hc as [-> | [-> | ->]]; reflexivity).
  rewrite Hv. exists l, h. reflexivity.
Qed.

Example single_channel_drawn :
  cell_imshow (fun _ lo hi => (lo, hi)) (mk_ndarray [1; 2; 1]%nat [0; 1])
  = ([Imshow 0 (mk_ndarray [1; 2; 1]%nat [0; 1]) "gray" (Some 0) (Some 1)], Ok tt).
Proof. reflexivity. Qed.

(** The message for the sample volume, 60 planes of 256 by 256 pixels. *)
Example sample_message :
  ("Invalid shape " ++ repr_shape [60; 256; 256]%nat ++ " for image data")%string
  = "Invalid shape (60, 256, 256) for image data"%string.
Proof. reflexivity. Qed.

(** C3.  On a volume with three axes whose last one does not have length
    1, 3 or 4 (so that matplotlib cannot read it as an image of grey levels
    or of colours; the sample volume is 60 x 256 x 256), [io.imshow] raises
    [TypeError]; cell 6 catches it, prints its message and ends normally. *)
Theorem imshow_volume_caught (display_range : ndarray Q -> Q -> Q -> Q * Q)
    (data : ndarray Q) (n_plane n_row n_col : nat) :
  shape data = [n_plane; n_row; n_col] ->
  n_col <> 1%nat -> n_col <> 3%nat -> n_col <> 4%nat ->
  flat data <> [] ->
  let msg := ("Invalid shape " ++ repr_shape [n_plane; n_row; n_col]
              ++ " for image data")%string in
  snd (io_imshow display_range data "gray") = Raise (TypeError msg) /\
  cell_imshow display_range data = ([Print msg], Ok tt).
Proof.
  intros Hsh H1 H3 H4 Hne msg.
  destruct (amin_nonempty data Hne) as [lo Hlo].
  destruct (amax_nonempty data Hne) as [hi Hhi].
  assert (Hrun : io_imshow display_range data "gray" = ([], Raise (TypeError msg))).
  { unfold io_imshow. rewrite Hlo, Hhi. unfold pbind, lift. cbn [fst snd].
    destruct (display_range data lo hi) as [l h].
    unfold ax_imshow. rewrite Hsh, not_an_image by assumption.
    reflexivity. }
  split.
  - now rewrite Hrun.
  - unfold cell_imshow. rewrite Hrun. reflexivity.
Qed.

Lemma imshow_volume_caught_witness :
  cell_imshow (fun _ lo hi => (lo, hi))
    (mk_ndarray [2; 1; 2]%nat [0; 1 # 2; 1 # 4; 1])
  = ([Print "Invalid shape (2, 1, 2) for image data"], Ok tt).
Proof.
  apply (imshow_volume_caught (fun _ lo hi => (lo, hi))
           (mk_ndarray [2; 1; 2]%nat [0; 1 # 2; 1 # 4; 1]) 2 1 2 eq_refl);
    discriminate.
Defined.

(** ** C9: the slider of [explore_slices] *)

Lemma interact_slider_ok (N : nat) (default : Z) (s : IntSlider) :
  interact_slider 0 (Z.of_nat N - 1) default = Ok s -> slider_ok N s.
Proof.
  unfold interact_slider, widget_from_tuple.
  set (value := (0 + (Z.of_nat N - 1 - 0) / 2)%Z).
  destruct ((0 <=? value)%Z && (value <=? Z.of_nat N - 1)%Z) eqn:E; [|discriminate].
  apply andb_prop in E as [E1 E2]. apply Z.leb_le in E1. apply Z.leb_le in E2.
  cbn [bind]. intros H. injection H as <-.
  unfold slider_ok, set_value. cbn [slider_min slider_max slider_value]. lia.
Qed.

Lemma set_value_ok (N : nat) (s : IntSlider) (v : Z) :
  slider_ok N s -> slider_ok N (set_value s v).
Proof.
  unfold slider_ok, set_value. cbn [slider_min slider_max slider_value].
  intros [-> [-> H]]. lia.
Qed.

Lemma plane_in_bounds (data : ndarray Q) (N : nat) (plane : Z) :
  len data = Ok N -> (0 <= plane <= Z.of_nat N - 1)%Z ->
  exists image, getitem data [Idx plane] = Ok image.
Proof.
  unfold len, getitem. destruct (shape data) as [|n sh]; [discriminate|].
  intros H Hp. injection H as ->. cbn [getitem_shape].
  rewrite norm_index_in_range by lia. cbn [bind].
  destruct sh; eexists; reflexivity.
Qed.

Lemma show_plane_no_index_error (ax : nat) (image : ndarray Q) (cmap : string)
    (title : option string) :
  is_index_error (snd (show_plane ax image cmap title)) = false.
Proof.
  unfold show_plane, ax_imshow.
  destruct (valid_image_shape (shape image)); [|reflexivity].
  destruct title as [t|]; [destruct (String.eqb t "")|]; reflexivity.
Qed.

Lemma slice_in_3D_no_index_error (global_shape : list nat) (ax : nat) (i : Z) :
  is_index_error (snd (slice_in_3D global_shape ax i)) = false.
Proof.
  unfold slice_in_3D.
  destruct (map Z.of_nat global_shape) as [|a [|b [|c [|d l]]]]; reflexivity.
Qed.

Lemma pbind_no_index_error {A B} (m : plot A) (k : A -> plot B) :
  is_index_error (snd m) = false ->
  (forall a, is_index_error (snd (k a)) = false) ->
  is_index_error (snd (pbind m k)) = false.
Proof.
  intros Hm Hk. unfold pbind. destruct (snd m) as [a|e] eqn:E.
  - apply Hk.
  - exact Hm.
Qed.

Lemma display_slice_no_index_error (global_shape : list nat)
    (data : ndarray Q) (cmap : string) (N : nat) (plane : Z) :
  len data = Ok N -> (0 <= plane <= Z.of_nat N - 1)%Z ->
  is_index_error (snd (display_slice global_shape data cmap plane)) = false.
Proof.
  intros HN Hp. destruct (plane_in_bounds data N plane HN Hp) as [image Him].
  unfold display_slice. rewrite Him.
  apply pbind_no_index_error; [reflexivity|intros _].
  apply pbind_no_index_error; [reflexivity|intros _].
  apply pbind_no_index_error; [reflexivity|intros plane_image].
  apply pbind_no_index_error; [apply show_plane_no_index_error|intros _].
  apply pbind_no_index_error; [apply slice_in_3D_no_index_error|intros _].
  reflexivity.
Qed.

(** A frame never leaves its exception to the caller. *)
Lemma update_done (frame : plot unit) : snd (update frame) = Ok tt.
Proof.
  unfold update. destruct frame as [t [[]|e]]; reflexivity.
Qed.

Lemma tracebacks_app (t1 t2 : list event) :
  tracebacks (t1 ++ t2) = tracebacks t1 ++ tracebacks t2.
Proof.
  induction t1 as [|e t1 IH]; [reflexivity|].
  destruct e; cbn [app tracebacks]; rewrite IH; reflexivity.
Qed.

Lemma pbind_no_traceback {A B} (m : plot A) (k : A -> plot B) :
  tracebacks (fst m) = [] ->
  (forall a, tracebacks (fst (k a)) = []) ->
  tracebacks (fst (pbind m k)) = [].
Proof.
  intros Hm Hk. unfold pbind. destruct (snd m) as [a|e]; cbn [fst].
  - rewrite tracebacks_app, Hm, Hk. reflexivity.
  - exact Hm.
Qed.

(** The callback draws; it shows no traceback of its own. *)
Lemma display_slice_no_traceback (global_shape : list nat)
    (data : ndarray Q) (cmap : string) (plane : Z) :
  tracebacks (fst (display_slice global_shape data cmap plane)) = [].
Proof.
  unfold display_slice.
  apply pbind_no_traceback; [reflexivity|intros _].
  apply pbind_no_traceback; [reflexivity|intros _].
  apply pbind_no_traceback; [reflexivity|intros image].
  apply pbind_no_traceback; [|intros _; apply pbind_no_traceback;
                                          [|intros _; reflexivity]].
  - unfold show_plane, ax_imshow.
    apply pbind_no_traceback;
      [destruct (valid_image_shape (shape image)); reflexivity|intros _].
    apply pbind_no_traceback; [reflexivity|intros _].
    destruct (String.eqb _ _); reflexivity.
  - unfold slice_in_3D.
    apply pbind_no_traceback; [reflexivity|intros Zs].
    apply pbind_no_traceback; [reflexivity|intros _].
    apply pbind_no_traceback; [reflexivity|intros _].
    apply pbind_no_traceback; [reflexivity|intros verts]. reflexivity.
Qed.

(** What a frame adds to the tracebacks shown: its own exception, if any. *)
Lemma update_tracebacks (global_shape : list nat)
    (data : ndarray Q) (cmap : string) (plane : Z) :
  tracebacks (fst (update (display_slice global_shape data cmap plane)))
  = match snd (display_slice global_shape data cmap plane) with
    | Ok _ => []
    | Raise e => [e]
    end.
Proof.
  pose proof (display_slice_no_traceback global_shape data cmap plane) as H.
  unfold update.
  destruct (snd (display_slice global_shape data cmap plane)) as [[]|e];
    cbn [fst]; [exact H|].
  rewrite tracebacks_app, H. reflexivity.
Qed.

Lemma frame_no_index_error (global_shape : list nat)
    (data : ndarray Q) (cmap : string) (N : nat) (plane : Z) :
  len data = Ok N -> (0 <= plane <= Z.of_nat N - 1)%Z ->
  Forall (fun e => is_index_error (@Raise unit e) = false)
    (tracebacks (fst (update (display_slice global_shape data cmap plane)))).
Proof.
  intros HN Hp. rewrite update_tracebacks.
  pose proof (display_slice_no_index_error global_shape data cmap N plane HN Hp)
    as H.
  destruct (snd (display_slice global_shape data cmap plane)) as [[]|e];
    constructor; [exact H|constructor].
Qed.

Lemma pbind_update {B} (frame : plot unit) (k : unit -> plot B) :
  pbind (update frame) k = (fst (update frame) ++ fst (k tt), snd (k tt)).
Proof.
  unfold pbind. rewrite update_done. reflexivity.
Qed.

Lemma follow_done (global_shape : list nat)
    (data : ndarray Q) (cmap : string) (moves : list Z) :
  forall s, snd (follow global_shape data cmap s moves) = Ok tt.
Proof.
  induction moves as [|v moves IH]; intros s; [reflexivity|].
  cbn [follow].
  destruct (slider_value (set_value s v) =? slider_value s)%Z.
  - apply IH.
  - rewrite pbind_update. cbn [snd]. apply IH.
Qed.

Lemma follow_no_index_error (global_shape : list nat)
    (data : ndarray Q) (cmap : string) (N : nat) (moves : list Z) :
  len data = Ok N ->
  forall s, slider_ok N s ->
    Forall (fun e => is_index_error (@Raise unit e) = false)
      (tracebacks (fst (follow global_shape data cmap s moves))).
Proof.
  intros HN. induction moves as [|v moves IH]; intros s Hs; [constructor|].
  cbn [follow].
  pose proof (set_value_ok N s v Hs) as Hs'.
  destruct (slider_value (set_value s v) =? slider_value s)%Z.
  - now apply IH.
  - rewrite pbind_update. cbn [fst]. rewrite tracebacks_app.
    apply Forall_app. split.
    + eapply frame_no_index_error; [exact HN|apply Hs'].
    + now apply IH.
Qed.

Lemma pbind_lift_ok {A B} (a : A) (k : A -> plot B) :
  pbind (lift (Ok a)) k = k a.
Proof.
  unfold pbind, lift. cbn [fst snd app]. now destruct (k a).
Qed.

Lemma pbind_lift_raise {A B} (e : exn) (k : A -> plot B) :
  pbind (lift (Raise e)) k = ([], Raise e).
Proof. reflexivity. Qed.

Lemma moves_keep_slider_ok (N : nat) (moves : list Z) :
  forall s, slider_ok N s -> slider_ok N (fold_left set_value moves s).
Proof.
  induction moves as [|v moves IH]; intros s Hs; [exact Hs|].
  simpl. apply IH. now apply set_value_ok.
Qed.

(** C9.  The slider [interact] builds for [explore_slices] ranges over
    [0 .. N - 1] with [N = len(data)]: wherever the user moves it, its value
    [plane] satisfies [0 <= plane <= N - 1] and [data[plane]] returns a
    plane, so that no run of [explore_slices] ends in [IndexError] and no
    frame of it shows the traceback of one; on 60 planes the slider starts
    at the default position 34. *)
Theorem explore_slices_in_bounds (global_shape : list nat) (data : ndarray Q)
    (cmap : string) (moves : list Z) :
  is_index_error (snd (explore_slices global_shape data cmap moves)) = false /\
  (forall N s,
     len data = Ok N ->
     interact_slider 0 (Z.of_nat N - 1) 34 = Ok s ->
     let plane := slider_value (fold_left set_value moves s) in
     (0 <= plane <= Z.of_nat N - 1)%Z /\
     exists image, getitem data [Idx plane] = Ok image) /\
  interact_slider 0 (Z.of_nat 60 - 1) 34 = Ok (mk_slider 0 59 34) /\
  Forall (fun e => is_index_error (@Raise unit e) = false)
    (tracebacks (fst (explore_slices global_shape data cmap moves))).
Proof.
  split; [|split; [|split]].
  - unfold explore_slices.
    destruct (len data) as [N|e] eqn:HN.
    + rewrite pbind_lift_ok.
      destruct (interact_slider 0 (Z.of_nat N - 1) 34) as [s|e] eqn:Hs.
      * rewrite pbind_lift_ok, pbind_update. cbn [snd].
        now rewrite follow_done.
      * rewrite pbind_lift_raise.
        unfold interact_slider, widget_from_tuple in Hs.
        destruct (_ && _) in Hs; [discriminate|].
        injection Hs as <-. reflexivity.
    + rewrite pbind_lift_raise.
      unfold len in HN. destruct (shape data); [|discriminate].
      injection HN as <-. reflexivity.
  - intros N s HN Hs plane.
    pose proof (moves_keep_slider_ok N moves s (interact_slider_ok N 34 s Hs))
      as [_ [_ Hv]].
    split; [exact Hv|].
    eapply plane_in_bounds; [exact HN|exact Hv].
  - reflexivity.
  - unfold explore_slices.
    destruct (len data) as [N|e] eqn:HN; [|constructor].
    rewrite pbind_lift_ok.
    destruct (interact_slider 0 (Z.of_nat N - 1) 34) as [s|e] eqn:Hs;
      [|constructor].
    rewrite pbind_lift_ok, pbind_update. cbn [fst].
    pose proof (interact_slider_ok N 34 s Hs) as Hok.
    rewrite tracebacks_app. apply Forall_app. split.
    + eapply frame_no_index_error; [exact HN|apply Hok].
    + eapply follow_no_index_error; eassumption.
Qed.

Lemma explore_slices_in_bounds_witness :
  let data := mk_ndarray [2; 1; 2]%nat [0; 1 # 2; 1 # 4; 1] in
  let plane := slider_value (fold_left set_value [5; -3]%Z (mk_slider 0 1 1)) in
  (0 <= plane <= Z.of_nat 2 - 1)%Z /\
  exists image, getitem data [Idx plane] = Ok image.
Proof.
  intros data.
  exact (proj1 (proj2 (explore_slices_in_bounds [2; 1; 2]%nat data "gray" [5; -3]%Z))
           2%nat (mk_slider 0 1 1) eq_refl eq_refl).
Defined.

(** ** C7 and C10: [display] *)

Lemma pbind_emit {B} (e : event) (k : unit -> plot B) :
  pbind (emit e) k = (e :: fst (k tt), snd (k tt)).
Proof. reflexivity. Qed.

Lemma for_each_drawn (cmap : string) (vmin vmax : Q)
    (l : list (nat * ndarray Q)) :
  Forall (fun p => valid_image_shape (shape (snd p)) = true) l ->
  for_each l
    (fun p =>
       ax_imshow (fst p) (snd p) cmap (Some vmin) (Some vmax) ;;;
       emit (SetXticks (fst p) []) ;;;
       emit (SetYticks (fst p) []))
  = (flat_map (drawn cmap vmin vmax) l, Ok tt).
Proof.
  induction 1 as [|p l Hp Hl IH]; [reflexivity|].
  cbn [for_each]. rewrite IH. unfold ax_imshow. rewrite Hp.
  reflexivity.
Qed.

Lemma shown_drawn (cmap : string) (vmin vmax : Q) (l : list (nat * ndarray Q)) :
  shown (flat_map (drawn cmap vmin vmax) l) = l.
Proof.
  induction l as [|[ax image] l IH]; [reflexivity|].
  cbn [flat_map drawn app fst snd shown]. now rewrite IH.
Qed.

Lemma bounds_drawn (cmap : string) (vmin vmax : Q) (l : list (nat * ndarray Q)) :
  bounds_used (flat_map (drawn cmap vmin vmax) l)
  = map (fun _ => (Some vmin, Some vmax)) l.
Proof.
  induction l as [|[ax image] l IH]; [reflexivity|].
  cbn [flat_map drawn app fst snd bounds_used map]. now rewrite IH.
Qed.

(** The planes selected by [::step] are planes of the volume. *)
Lemma selected_planes (im3d : ndarray Q) (step : Z) (p r c : nat)
    (js : list nat) :
  shape im3d = [p; r; c] -> wf im3d ->
  slice_indices p step = Ok js ->
  selected im3d step = Ok (map (plane_at im3d) js).
Proof.
  intros Hsh Hwf Hjs. unfold selected, getitem.
  rewrite Hsh. cbn [getitem_shape getitem_flat]. rewrite Hjs. cbn [bind].
  unfold iter. cbn [shape flat].
  set (G := fun j => nth j (chunks (size [r; c]) p (flat im3d)) []).
  rewrite (chunks_flat_map G).
  - rewrite map_map. f_equal. apply map_ext. intros j.
    unfold plane_at. rewrite Hsh. reflexivity.
  - pose proof (slice_indices_bound p step js Hjs) as Hb.
    eapply Forall_impl; [|exact Hb]. intros j Hj. unfold G.
    apply chunks_nth_length; [|exact Hj].
    unfold wf in Hwf. rewrite Hwf, Hsh. reflexivity.
Qed.

Lemma slice_indices_nonzero (n : nat) (step : Z) :
  step <> 0%Z -> exists js, slice_indices n step = Ok js.
Proof.
  intros H. unfold slice_indices. apply Z.eqb_neq in H. rewrite H.
  destruct (0 <? step)%Z; eauto.
Qed.

(** What a run of [display] does on a volume that has pixels. *)
Lemma display_run (im3d : ndarray Q) (cmap : string) (step : Z)
    (p r c : nat) (vmin vmax : Q) (js : list nat) :
  shape im3d = [p; r; c] -> wf im3d ->
  amin im3d = Ok vmin -> amax im3d = Ok vmax ->
  slice_indices p step = Ok js ->
  display im3d cmap step =
    (Subplots 5 6 :: flat_map (drawn cmap vmin vmax)
                       (combine (seq 0 30) (map (plane_at im3d) js)),
     Ok tt).
Proof.
  intros Hsh Hwf Hmin Hmax Hjs.
  pose proof (selected_planes im3d step p r c js Hsh Hwf Hjs) as Hsel.
  unfold selected in Hsel.
  destruct (getitem im3d [Slice step]) as [sel|e] eqn:Eg; [|discriminate].
  cbn [bind] in Hsel.
  unfold display.
  change (plt_subplots 5 6)
    with (([Subplots 5 6], Ok (mk_ndarray [5; 6]%nat (seq 0 30))) : plot (ndarray nat)).
  unfold pbind at 1. cbn [fst snd app].
  rewrite Hmin, pbind_lift_ok, Hmax, pbind_lift_ok, Eg, pbind_lift_ok.
  rewrite Hsel, pbind_lift_ok. cbn [ravel flat].
  rewrite for_each_drawn; [reflexivity|].
  apply Forall_forall. intros [ax image] Hin.
  apply in_combine_r in Hin. apply in_map_iff in Hin as [j [<- _]].
  unfold plane_at. rewrite Hsh. reflexivity.
Qed.

Lemma map_fst_combine {A B} (l1 : list A) (l2 : list B) :
  map fst (combine l1 l2) = firstn (length l2) l1.
Proof.
  revert l2. induction l1 as [|x l1 IH]; intros [|y l2]; simpl;
    try reflexivity.
  now rewrite IH.
Qed.

Lemma map_snd_combine {A B} (l1 : list A) (l2 : list B) :
  map snd (combine l1 l2) = firstn (length l1) l2.
Proof.
  revert l2. induction l1 as [|x l1 IH]; intros [|y l2]; simpl;
    try reflexivity.
  now rewrite IH.
Qed.

Lemma firstn_seq (k a n : nat) : firstn k (seq a n) = seq a (Nat.min k n).
Proof.
  revert a n. induction k as [|k IH]; intros a [|n]; simpl; try reflexivity.
  now rewrite IH.
Qed.

(** For a positive divisor [ceil_div] is the ceiling of the quotient. *)
Lemma ceil_div_ceil_quot (n : nat) (s : Z) :
  (0 < s)%Z -> Z.of_nat (ceil_div n (Z.to_nat s)) = ceil_quot (Z.of_nat n) s.
Proof.
  intros Hs. unfold ceil_div, ceil_quot.
  rewrite Nat2Z.inj_div, Nat2Z.inj_sub, Nat2Z.inj_add by lia.
  rewrite Z2Nat.id by lia. change (Z.of_nat 1) with 1%Z.
  pose proof (Z.div_mod (- Z.of_nat n) s ltac:(lia)) as Hdm.
  pose proof (Z.mod_pos_bound (- Z.of_nat n) s Hs) as Hb.
  symmetry. apply Z.opp_inj. rewrite Z.opp_involutive.
  set (q := (- Z.of_nat n / s)%Z) in *. set (m := (- Z.of_nat n mod s)%Z) in *.
  symmetry. apply Z.opp_inj. rewrite Z.opp_involutive. symmetry.
  apply (Z.div_unique _ s (- q) (s - 1 - m)); [lia|nia].
Qed.

(** C7 (amended).  For a volume with three axes and at least one pixel, and
    a step other than zero, [display] completes, having drawn the planes
    [im3d[::step]] -- the planes of the volume at the selected positions --
    in order, one per subplot of a fixed 5 by 6 grid, as many as the grid
    can take, each with the shared bounds [vmin = im3d.min()] and
    [vmax = im3d.max()]. *)
Theorem display_renders_grid (im3d : ndarray Q) (cmap : string) (step : Z)
    (p r c : nat) :
  shape im3d = [p; r; c] -> wf im3d -> flat im3d <> [] -> step <> 0%Z ->
  renders_grid im3d cmap step /\
  (exists js, slice_indices p step = Ok js /\
              selected im3d step = Ok (map (plane_at im3d) js)) /\
  (forall b, In b (bounds_used (fst (display im3d cmap step))) ->
     exists vmin vmax,
       amin im3d = Ok vmin /\ amax im3d = Ok vmax /\
       b = (Some vmin, Some vmax)).
Proof.
  intros Hsh Hwf Hne Hstep.
  destruct (amin_nonempty im3d Hne) as [vmin Hmin].
  destruct (amax_nonempty im3d Hne) as [vmax Hmax].
  destruct (slice_indices_nonzero p step Hstep) as [js Hjs].
  pose proof (display_run im3d cmap step p r c vmin vmax js
                Hsh Hwf Hmin Hmax Hjs) as Hrun.
  pose proof (selected_planes im3d step p r c js Hsh Hwf Hjs) as Hsel.
  split; [|split].
  - exists vmin, vmax, (map (plane_at im3d) js). auto.
  - exists js. auto.
  - intros b Hb. rewrite Hrun in Hb. cbn [fst bounds_used] in Hb.
    rewrite bounds_drawn in Hb. apply in_map_iff in Hb as [x [<- _]].
    exists vmin, vmax. auto.
Qed.

Lemma display_renders_grid_witness :
  renders_grid (mk_ndarray [3; 1; 2]%nat [0; 1 # 2; 1 # 4; 1; 1 # 8; 3 # 4])
    "gray" default_step.
Proof.
  apply (display_renders_grid
           (mk_ndarray [3; 1; 2]%nat [0; 1 # 2; 1 # 4; 1; 1 # 8; 3 # 4])
           "gray" default_step 3 1 2 eq_refl eq_refl);
    discriminate.
Defined.

(** C7 as stated fails on a volume without pixels: one plane (of no rows) is
    selected, but [im3d.min()] raises before anything is drawn. *)
Lemma display_empty_volume :
  let im3d := mk_ndarray [1; 0; 0]%nat (@nil Q) in
  ndim im3d = 3%nat /\ wf im3d /\
  selected im3d default_step = Ok [mk_ndarray [0; 0]%nat []] /\
  display im3d "gray" default_step =
    ([Subplots 5 6],
     Raise (ValueError
       "zero-size array to reduction operation minimum which has no identity")) /\
  ~ renders_grid im3d "gray" default_step.
Proof.
  repeat split.
  intros [vmin [vmax [planes [H _]]]]. discriminate H.
Qed.

(** C10 (amended).  For a volume with three axes and at least one pixel, and
    a step of at least 1, [display] completes whatever the number of planes
    is, and shows exactly [min(30, ceil(len(im3d) / step))] planes: the first
    that many subplots receive the planes 0, step, 2 * step, ... in order,
    planes past the 30th selected one are dropped and the remaining subplots
    stay empty. *)
Theorem display_shows_count (im3d : ndarray Q) (cmap : string) (step : Z)
    (p r c : nat) :
  shape im3d = [p; r; c] -> wf im3d -> flat im3d <> [] -> (0 < step)%Z ->
  let t := fst (display im3d cmap step) in
  let n := Nat.min 30 (ceil_div p (Z.to_nat step)) in
  snd (display im3d cmap step) = Ok tt /\
  shows_count im3d cmap step /\
  length (shown t) = n /\
  map fst (shown t) = seq 0 n /\
  map snd (shown t) =
    firstn 30 (map (fun k => plane_at im3d (k * Z.to_nat step))
                   (seq 0 (ceil_div p (Z.to_nat step)))).
Proof.
  intros Hsh Hwf Hne Hstep t n.
  destruct (amin_nonempty im3d Hne) as [vmin Hmin].
  destruct (amax_nonempty im3d Hne) as [vmax Hmax].
  assert (Hjs : slice_indices p step
                = Ok (map (fun k => k * Z.to_nat step)%nat
                          (seq 0 (ceil_div p (Z.to_nat step))))).
  { unfold slice_indices.
    replace (step =? 0)%Z with false by (symmetry; apply Z.eqb_neq; lia).
    replace (0 <? step)%Z with true by (symmetry; apply Z.ltb_lt; lia).
    reflexivity. }
  pose proof (display_run im3d cmap step p r c vmin vmax _
                Hsh Hwf Hmin Hmax Hjs) as Hrun.
  assert (Hshown : shown t =
            combine (seq 0 30)
              (map (plane_at im3d)
                 (map (fun k => k * Z.to_nat step)%nat
                    (seq 0 (ceil_div p (Z.to_nat step)))))).
  { unfold t. rewrite Hrun. cbn [fst shown]. apply shown_drawn. }
  assert (Hlen : length (shown t) = n).
  { rewrite Hshown, length_combine, !length_map, !length_seq. reflexivity. }
  split; [now rewrite Hrun|]. split; [|split; [exact Hlen|split]].
  - exists p. split; [unfold len; now rewrite Hsh|].
    fold t. rewrite Hlen. unfold n.
    rewrite Nat2Z.inj_min, ceil_div_ceil_quot by exact Hstep. reflexivity.
  - rewrite Hshown, map_fst_combine, !length_map, length_seq, firstn_seq.
    f_equal. unfold n. lia.
  - rewrite Hshown, map_snd_combine, length_seq, map_map. reflexivity.
Qed.

Lemma display_shows_count_witness :
  shows_count (mk_ndarray [3; 1; 2]%nat [0; 1 # 2; 1 # 4; 1; 1 # 8; 3 # 4])
    "gray" default_step.
Proof.
  apply (display_shows_count
           (mk_ndarray [3; 1; 2]%nat [0; 1 # 2; 1 # 4; 1; 1 # 8; 3 # 4])
           "gray" default_step 3 1 2 eq_refl eq_refl);
    [discriminate|reflexivity].
Defined.

(** C10 as stated fails for a negative step, where the planes are shown in
    reverse order and the formula is negative, and on a volume without
    pixels, where nothing is shown. *)
Lemma display_count_mismatch :
  (let im3d := mk_ndarray [2; 1; 1]%nat [0; 1] in
   length (shown (fst (display im3d "gray" (-1)))) = 2%nat /\
   Z.min 30 (ceil_quot 2 (-1)) = (-2)%Z /\
   ~ shows_count im3d "gray" (-1)) /\
  (let im3d := mk_ndarray [2; 0; 0]%nat (@nil Q) in
   length (shown (fst (display im3d "gray" default_step))) = 0%nat /\
   Z.min 30 (ceil_quot 2 default_step) = 1%Z /\
   ~ shows_count im3d "gray" default_step).
Proof.
  split; (split; [reflexivity|split; [reflexivity|]]);
    intros [N [HN H]]; injection HN as <-; discriminate H.
Qed.

(** ** C4: histogram equalization *)

Lemma Qltb_false (x y : Q) : Qltb x y = false -> y <= x.
Proof.
  unfold Qltb. intros H. apply negb_false_iff in H. now apply Qle_bool_iff.
Qed.

Lemma Qltb_true (x y : Q) : Qltb x y = true -> x < y.
Proof.
  unfold Qltb. intros H. apply negb_true_iff in H.
  apply Qnot_le_lt. intros Hle. apply Qle_bool_iff in Hle. congruence.
Qed.

(** A point on the segment between two values of the unit interval lies in
    the unit interval. *)
Lemma segment_unit (f0 f1 d u : Q) :
  unit_interval f0 -> unit_interval f1 -> 0 < d -> 0 <= u <= d ->
  unit_interval ((f1 - f0) / d * u + f0).
Proof.
  unfold unit_interval. intros H0 H1 Hd Hu.
  assert (Ht : 0 <= u / d <= 1).
  { split.
    - apply Qle_shift_div_l; [exact Hd|]. lra.
    - apply Qle_shift_div_r; [exact Hd|]. lra. }
  assert (Heq : (f1 - f0) / d * u + f0 == f0 + (f1 - f0) * (u / d))
    by (field; lra).
  rewrite Heq. nra.
Qed.

Lemma interp_from_unit (x : Q) (pts : list (Q * Q)) :
  forall p0,
    Forall (fun p => unit_interval (snd p)) (p0 :: pts) ->
    fst p0 <= x ->
    unit_interval (interp_from x p0 pts).
Proof.
  induction pts as [|p1 pts IH]; intros p0 Hall Hx.
  - simpl. now inversion Hall.
  - cbn [interp_from]. inversion Hall as [|? ? H0 Hrest]; subst.
    destruct (Qltb x (fst p1)) eqn:E.
    + apply Qltb_true in E. inversion Hrest; subst.
      apply segment_unit; try assumption; lra.
    + apply Qltb_false in E. now apply IH.
Qed.

Lemma cumsum_from_bounds (l : list nat) :
  forall acc d c,
    In c (cumsum_from acc l) ->
    (acc <= c /\ c <= last (cumsum_from acc l) d)%nat.
Proof.
  induction l as [|x l IH]; intros acc d c Hin; [contradiction|].
  cbn [cumsum_from] in *.
  destruct l as [|y l].
  - destruct Hin as [<-|[]]. simpl. lia.
  - assert (Hne : In (acc + x + y)%nat (cumsum_from (acc + x) (y :: l)))
      by (left; reflexivity).
    destruct Hin as [<-|Hin].
    + destruct (IH (acc + x)%nat d _ Hne) as [_ H2].
      change (last ((acc + x)%nat :: cumsum_from (acc + x) (y :: l)) d)
        with (last (cumsum_from (acc + x) (y :: l)) d).
      lia.
    + destruct (IH (acc + x)%nat d c Hin) as [H1 H2].
      change (last ((acc + x)%nat :: cumsum_from (acc + x) (y :: l)) d)
        with (last (cumsum_from (acc + x) (y :: l)) d).
      lia.
Qed.

Lemma ratio_unit (c total : nat) :
  (c <= total)%nat ->
  unit_interval (inject_Z (Z.of_nat c) / inject_Z (Z.of_nat total)).
Proof.
  intros H. unfold unit_interval.
  destruct total as [|t].
  - assert (c = 0%nat) as -> by lia. split; discriminate.
  - assert (Ht : 0 < inject_Z (Z.of_nat (S t)))
      by (change 0 with (inject_Z 0); rewrite <- Zlt_Qlt; lia).
    split.
    + apply Qle_shift_div_l; [exact Ht|]. rewrite Qmult_0_l.
      change 0 with (inject_Z 0). rewrite <- Zle_Qle. lia.
    + apply Qle_shift_div_r; [exact Ht|]. rewrite Qmult_1_l.
      rewrite <- Zle_Qle. lia.
Qed.

(** Every value of the cumulative distribution lies in the unit interval. *)
Lemma cdf_unit (image : list Q) (nbins : nat) :
  Forall unit_interval (fst (Exposure.cumulative_distribution image nbins)).
Proof.
  unfold Exposure.cumulative_distribution.
  destruct (Exposure.histogram image nbins) as [hist bin_centers].
  cbn [fst]. apply Forall_forall. intros y Hy.
  apply in_map_iff in Hy as [c [<- Hc]].
  apply ratio_unit. unfold cumsum in *.
  now apply cumsum_from_bounds.
Qed.

Lemma cumsum_from_length (l : list nat) :
  forall acc, length (cumsum_from acc l) = length l.
Proof.
  induction l as [|x l IH]; intros acc; simpl; [reflexivity|].
  now rewrite IH.
Qed.

Lemma removelast_length_pred {A} (l : list A) :
  length (removelast l) = pred (length l).
Proof.
  induction l as [|x l IH]; [reflexivity|].
  destruct l as [|y l]; [reflexivity|].
  change (removelast (x :: y :: l)) with (x :: removelast (y :: l)).
  cbn [length]. rewrite IH. reflexivity.
Qed.

(** One value of the distribution and one centre per bin. *)
Lemma cumulative_distribution_lengths (image : list Q) (nbins : nat) :
  length (fst (Exposure.cumulative_distribution image nbins)) = nbins /\
  length (snd (Exposure.cumulative_distribution image nbins)) = nbins.
Proof.
  unfold Exposure.cumulative_distribution, Exposure.histogram, np_histogram.
  destruct (hist_range image) as [first last]. cbn [fst snd]. split.
  - unfold cumsum. now rewrite length_map, cumsum_from_length, length_map, length_seq.
  - rewrite length_map, length_combine, removelast_length_pred.
    destruct (map (bin_edge nbins first last) (seq 0 (S nbins))) as [|e es] eqn:E.
    + apply (f_equal (@length Q)) in E. rewrite length_map, length_seq in E.
      discriminate.
    + apply (f_equal (@length Q)) in E. rewrite length_map, length_seq in E.
      cbn [length tl pred] in *. lia.
Qed.

(** *** The cumulative distribution is normalised: every pixel falls in
    one bin, so the counts add up to the number of pixels and the last value
    of the distribution is 1. *)

Lemma fold_left_Qmin_le (xs : list Q) :
  forall m, fold_left Qmin xs m <= m /\
            forall y, In y xs -> fold_left Qmin xs m <= y.
Proof.
  induction xs as [|z xs IH]; intros m; simpl.
  - split; [apply Qle_refl|contradiction].
  - destruct (IH (Qmin m z)) as [H1 H2]. split.
    + eapply Qle_trans; [exact H1|apply Q.le_min_l].
    + intros y [<-|Hy]; [|now apply H2].
      eapply Qle_trans; [exact H1|apply Q.le_min_r].
Qed.

Lemma fold_left_Qmax_ge (xs : list Q) :
  forall m, m <= fold_left Qmax xs m /\
            forall y, In y xs -> y <= fold_left Qmax xs m.
Proof.
  induction xs as [|z xs IH]; intros m; simpl.
  - split; [apply Qle_refl|contradiction].
  - destruct (IH (Qmax m z)) as [H1 H2]. split.
    + eapply Qle_trans; [apply Q.le_max_l|exact H1].
    + intros y [<-|Hy]; [|now apply H2].
      eapply Qle_trans; [apply Q.le_max_r|exact H1].
Qed.

Lemma hist_range_covers (a : list Q) :
  fst (hist_range a) < snd (hist_range a) /\
  forall x, In x a -> fst (hist_range a) <= x <= snd (hist_range a).
Proof.
  unfold hist_range. destruct a as [|x0 xs]; [split; [reflexivity|contradiction]|].
  destruct (fold_left_Qmin_le xs x0) as [L1 L2].
  destruct (fold_left_Qmax_ge xs x0) as [U1 U2].
  set (lo := fold_left Qmin xs x0) in *. set (hi := fold_left Qmax xs x0) in *.
  assert (Hin : forall x, In x (x0 :: xs) -> lo <= x <= hi).
  { intros x [<-|Hx]; split; auto. }
  destruct (Qeq_bool lo hi) eqn:E; cbn [fst snd].
  - apply Qeq_bool_iff in E. split; [lra|].
    intros x Hx. destruct (Hin x Hx). lra.
  - split; [|exact Hin].
    assert (lo <= hi) by (apply Qle_trans with x0; assumption).
    apply Qnot_le_lt. intros Hle.
    assert (Heq : lo == hi) by (now apply Qle_antisym).
    apply Qeq_bool_iff in Heq. congruence.
Qed.

Lemma bin_index_range (nbins : nat) (first last x : Q) :
  nbins <> 0%nat -> first < last -> first <= x <= last ->
  (0 <= bin_index nbins first last x < Z.of_nat nbins)%Z.
Proof.
  intros Hn Hlt Hx. unfold bin_index.
  set (t := (x - first) * (inject_Z (Z.of_nat nbins) / (last - first))).
  assert (HN : 0 <= inject_Z (Z.of_nat nbins))
    by (change 0 with (inject_Z 0); rewrite <- Zle_Qle; lia).
  assert (Ht : 0 <= t <= inject_Z (Z.of_nat nbins)).
  { unfold t. revert HN. generalize (inject_Z (Z.of_nat nbins)). intros N HN.
    assert (Hu : 0 <= (x - first) / (last - first) <= 1).
    { split; [apply Qle_shift_div_l|apply Qle_shift_div_r]; lra. }
    assert (Heq : (x - first) * (N / (last - first))
                  == N * ((x - first) / (last - first))) by (field; lra).
    rewrite Heq. nra. }
  destruct Ht as [Ht0 Ht1].
  apply Qfloor_resp_le in Ht0. apply Qfloor_resp_le in Ht1.
  rewrite Qfloor_Z in Ht1. change (Qfloor 0) with 0%Z in Ht0.
  destruct (Qfloor t =? Z.of_nat nbins)%Z eqn:E.
  - apply Z.eqb_eq in E. lia.
  - apply Z.eqb_neq in E. lia.
Qed.

Lemma list_sum_map_add {A} (g k : A -> nat) (l : list A) :
  list_sum (map (fun x => g x + k x)%nat l)
  = (list_sum (map g l) + list_sum (map k l))%nat.
Proof.
  induction l as [|x l IH]; simpl; [reflexivity|]. rewrite IH. lia.
Qed.

Lemma one_bin (n : nat) (z : Z) :
  list_sum (map (fun k => if (z =? Z.of_nat k)%Z then 1 else 0)%nat (seq 0 n))
  = if ((0 <=? z) && (z <? Z.of_nat n))%Z then 1%nat else 0%nat.
Proof.
  induction n as [|n IH].
  - simpl. destruct (0 <=? z)%Z eqn:E1; destruct (z <? 0)%Z eqn:E2;
      try reflexivity.
    apply Z.leb_le in E1. apply Z.ltb_lt in E2. lia.
  - rewrite seq_S, map_app, list_sum_app, IH. cbn [map list_sum plus].
    destruct (z =? Z.of_nat n)%Z eqn:E;
      destruct (0 <=? z)%Z eqn:E1;
      destruct (z <? Z.of_nat n)%Z eqn:E2;
      destruct (z <? Z.of_nat (S n))%Z eqn:E3;
      cbn [andb]; try reflexivity;
      try apply Z.eqb_eq in E; try apply Z.eqb_neq in E;
      try apply Z.leb_le in E1; try apply Z.leb_gt in E1;
      try apply Z.ltb_lt in E2; try apply Z.ltb_ge in E2;
      try apply Z.ltb_lt in E3; try apply Z.ltb_ge in E3; lia.
Qed.

Lemma counts_add_up (f : Q -> Z) (n : nat) (a : list Q) :
  Forall (fun x => (0 <= f x < Z.of_nat n)%Z) a ->
  list_sum (map (fun k => length (filter (fun x => (f x =? Z.of_nat k)%Z) a))
                (seq 0 n))
  = length a.
Proof.
  induction 1 as [|x a Hx Ha IH].
  - simpl. induction (seq 0 n); simpl; auto.
  - transitivity
      (list_sum (map (fun k => (if (f x =? Z.of_nat k)%Z then 1 else 0)
                               + length (filter (fun y => (f y =? Z.of_nat k)%Z) a))%nat
                     (seq 0 n))).
    + f_equal. apply map_ext. intros k. cbn [filter].
      destruct (f x =? Z.of_nat k)%Z; reflexivity.
    + rewrite list_sum_map_add, IH, one_bin.
      replace ((0 <=? f x)%Z && (f x <? Z.of_nat n)%Z) with true; [reflexivity|].
      symmetry. apply andb_true_intro.
      split; [apply Z.leb_le|apply Z.ltb_lt]; lia.
Qed.




Lemma equalize_hist_nbins_unit (image : ndarray Q) (nbins : nat) :
  nbins <> 0%nat ->
  exists out,
    Exposure.equalize_hist_nbins image nbins = Ok out /\
    shape out = shape image /\
    Forall unit_interval (flat out).
Proof.
  intros Hn. unfold Exposure.equalize_hist_nbins.
  apply Nat.eqb_neq in Hn. rewrite Hn. apply Nat.eqb_neq in Hn.
  pose proof (cdf_unit (flat image) nbins) as Hcdf.
  pose proof (cumulative_distribution_lengths (flat image) nbins) as [L1 L2].
  destruct (Exposure.cumulative_distribution (flat image) nbins)
    as [cdf bin_centers].
  cbn [fst snd] in *.
  destruct (combine bin_centers cdf) as [|p0 pts] eqn:E.
  { apply (f_equal (@length (Q * Q))) in E.
    rewrite length_combine, L1, L2 in E. simpl in E. lia. }
  assert (Hpts : Forall (fun p => unit_interval (snd p)) (p0 :: pts)).
  { rewrite <- E. apply Forall_forall. intros [xc fc] Hin.
    apply in_combine_r in Hin. cbn [snd].
    rewrite Forall_forall in Hcdf. now apply Hcdf. }
  eexists. split; [reflexivity|]. split; [reflexivity|].
  cbn [amap flat]. apply Forall_forall. intros y Hy.
  apply in_map_iff in Hy as [x [<- _]].
  destruct (Qltb x (fst p0)) eqn:Ex.
  - now inversion Hpts.
  - apply interp_from_unit; [exact Hpts|now apply Qltb_false].
Qed.

(** C4.  [exposure.equalize_hist] returns, for every volume, an array of the
    same shape all of whose values lie in the closed interval [0, 1]. *)
Theorem equalize_hist_unit_interval (image : ndarray Q) :
  exists out,
    Exposure.equalize_hist image = Ok out /\
    shape out = shape image /\
    Forall unit_interval (flat out).
Proof.
  apply equalize_hist_nbins_unit. discriminate.
Qed.

(** ** C1: percentile clipping *)

Lemma clip_upper (lo hi x : Q) : clip lo hi x <= hi.
Proof. unfold clip. apply Q.le_min_r. Qed.

Lemma clip_lower (lo hi x : Q) : lo <= hi -> lo <= clip lo hi x.
Proof.
  intros H. unfold clip. apply Q.min_glb; [apply Q.le_max_r|exact H].
Qed.

Lemma clip_crossed (lo hi x : Q) : hi <= lo -> clip lo hi x == hi.
Proof.
  intros H. unfold clip. apply Q.min_r.
  apply Qle_trans with lo; [exact H|apply Q.le_max_r].
Qed.

Lemma clip_below (lo hi x : Q) : lo <= hi -> x <= lo -> clip lo hi x == lo.
Proof.
  intros H Hx. unfold clip. rewrite Q.max_r by exact Hx. now apply Q.min_l.
Qed.

Lemma clip_above (lo hi x : Q) : lo <= hi -> hi <= x -> clip lo hi x == hi.
Proof.
  intros H Hx. unfold clip. apply Q.min_r.
  apply Qle_trans with x; [exact Hx|apply Q.le_max_l].
Qed.

Lemma clip_inside (lo hi x : Q) : lo <= x <= hi -> clip lo hi x == x.
Proof.
  intros [H1 H2]. unfold clip. rewrite Q.max_l by exact H1. now apply Q.min_l.
Qed.

(** Rescaling onto [(omin, omax)] stays between [omin] and [omax]. *)
Lemma rescale_pixel_range (imin imax omin omax x : Q) :
  omin <= omax -> ~ imin == imax ->
  omin <= (clip imin imax x - imin) / (imax - imin) * (omax - omin) + omin
       <= omax.
Proof.
  intros Ho Hne.
  destruct (Qlt_le_dec imin imax) as [Hlt|Hge].
  - pose proof (clip_upper imin imax x) as Hu.
    pose proof (clip_lower imin imax x (Qlt_le_weak _ _ Hlt)) as Hl.
    set (y := clip imin imax x) in *.
    assert (Ht : 0 <= (y - imin) / (imax - imin) <= 1).
    { split.
      - apply Qle_shift_div_l; lra.
      - apply Qle_shift_div_r; lra. }
    nra.
  - assert (Hgt : imax < imin).
    { apply Qnot_le_lt. intros Hle. apply Hne. now apply Qle_antisym. }
    pose proof (clip_crossed imin imax x Hge) as Hc.
    assert (Heq : (clip imin imax x - imin) / (imax - imin) == 1).
    { rewrite Hc. field. lra. }
    rewrite Heq. lra.
Qed.

Lemma In_insert (x y : Q) (l : list Q) : In x (insert y l) -> x = y \/ In x l.
Proof.
  induction l as [|z l IH]; simpl.
  - intros [<-|[]]. now left.
  - destruct (Qle_bool y z); simpl.
    + intros [<-|H]; auto.
    + intros [<-|H]; auto. destruct (IH H); auto.
Qed.

Lemma In_sort (x : Q) (l : list Q) : In x (sort l) -> In x l.
Proof.
  induction l as [|y l IH]; simpl; [auto|].
  intros H. apply In_insert in H as [->|H]; auto.
Qed.

Lemma insert_length (y : Q) (l : list Q) : length (insert y l) = S (length l).
Proof.
  induction l as [|z l IH]; simpl; [reflexivity|].
  destruct (Qle_bool y z); simpl; [reflexivity|now rewrite IH].
Qed.

Lemma sort_length (l : list Q) : length (sort l) = length l.
Proof.
  induction l as [|y l IH]; simpl; [reflexivity|].
  now rewrite insert_length, IH.
Qed.

Lemma Ok_inj {A} (x y : A) : Ok x = Ok y -> x = y.
Proof. congruence. Qed.

Lemma Qle_bool_false (x y : Q) : Qle_bool x y = false -> y <= x.
Proof.
  intros H. apply Qlt_le_weak, Qnot_le_lt. intros Hle.
  apply Qle_bool_iff in Hle. congruence.
Qed.

Lemma insert_sorted (x : Q) (l : list Q) :
  StronglySorted Qle l -> StronglySorted Qle (insert x l).
Proof.
  induction 1 as [|y l Hl IH Hy]; simpl.
  - constructor; constructor.
  - destruct (Qle_bool x y) eqn:E.
    + apply Qle_bool_iff in E. constructor.
      * now constructor.
      * constructor; [exact E|].
        eapply Forall_impl; [|exact Hy]. intros z Hz.
        now apply Qle_trans with y.
    + apply Qle_bool_false in E. constructor; [exact IH|].
      apply Forall_forall. intros z Hz. apply In_insert in Hz as [->|Hz].
      * exact E.
      * rewrite Forall_forall in Hy. now apply Hy.
Qed.

Lemma sort_sorted (l : list Q) : StronglySorted Qle (sort l).
Proof.
  induction l as [|x l IH]; simpl; [constructor|now apply insert_sorted].
Qed.

Lemma sorted_nth (s : list Q) (d : Q) :
  StronglySorted Qle s ->
  forall i j, (i <= j < length s)%nat -> nth i s d <= nth j s d.
Proof.
  induction 1 as [|x s Hs IH Hx]; intros i j Hij; [simpl in Hij; lia|].
  destruct i as [|i]; destruct j as [|j]; simpl in *; try lia.
  - apply Qle_refl.
  - rewrite Forall_forall in Hx. apply Hx, nth_In. lia.
  - apply IH. lia.
Qed.

(** A percentile does not decrease with its rank. *)
Lemma percentile_monotone (a : list Q) (q1 q2 v1 v2 : Q) :
  0 <= q1 -> q1 <= q2 -> q2 <= 100 ->
  percentile a q1 = Ok v1 -> percentile a q2 = Ok v2 -> v1 <= v2.
Proof.
  intros H0 H12 H100. unfold percentile.
  destruct (negb (Qle_bool 0 q1 && Qle_bool q1 100)); [discriminate|].
  destruct (negb (Qle_bool 0 q2 && Qle_bool q2 100)); [discriminate|].
  pose proof (sort_sorted a) as Hsorted.
  destruct (sort a) as [|x0 s']; [discriminate|].
  set (s := x0 :: s') in *.
  set (n1 := inject_Z (Z.of_nat (length s - 1))).
  assert (Hn1 : 0 <= n1)
    by (unfold n1; change 0 with (inject_Z 0); rewrite <- Zle_Qle; lia).
  set (w1 := n1 * (q1 / 100)). set (w2 := n1 * (q2 / 100)).
  assert (Hw : 0 <= w1 /\ w1 <= w2 /\ w2 <= n1).
  { unfold w1, w2. revert Hn1. generalize n1. intros N HN.
    assert (0 <= q1 / 100) by (apply Qle_shift_div_l; lra).
    assert (q1 / 100 <= q2 / 100)
      by (unfold Qdiv; apply Qmult_le_compat_r; [exact H12|discriminate]).
    assert (q2 / 100 <= 1) by (apply Qle_shift_div_r; lra).
    repeat split; nra. }
  destruct Hw as [Hw0 [Hw12 Hwn]].
  pose proof (Qfloor_le w1) as F1. pose proof (Qlt_floor w1) as G1.
  pose proof (Qfloor_le w2) as F2. pose proof (Qlt_floor w2) as G2.
  rewrite inject_Z_plus in G1, G2. change (inject_Z 1) with 1 in G1, G2.
  assert (Z1 : (0 <= Qfloor w1)%Z)
    by (change 0%Z with (Qfloor 0); now apply Qfloor_resp_le).
  assert (Z12 : (Qfloor w1 <= Qfloor w2)%Z) by (now apply Qfloor_resp_le).
  assert (Z2 : (Qfloor w2 <= Z.of_nat (length s - 1))%Z)
    by (rewrite <- (Qfloor_Z (Z.of_nat (length s - 1))); now apply Qfloor_resp_le).
  assert (Hlen : (0 < length s)%nat) by (simpl; lia).
  set (i1 := Z.to_nat (Qfloor w1)) in *. set (i2 := Z.to_nat (Qfloor w2)) in *.
  set (j1 := Nat.min (i1 + 1) (length s - 1)).
  set (j2 := Nat.min (i2 + 1) (length s - 1)).
  assert (I12 : (i1 <= i2)%nat) by (unfold i1, i2; lia).
  assert (I2 : (i2 <= length s - 1)%nat) by (unfold i2; lia).
  pose proof (sorted_nth s x0 Hsorted i1 j1 ltac:(unfold j1; lia)) as S1.
  pose proof (sorted_nth s x0 Hsorted i2 j2 ltac:(unfold j2; lia)) as S2.
  intros E1 E2. apply Ok_inj in E1. apply Ok_inj in E2. subst v1 v2.
  change (nth i1 s x0 + (nth j1 s x0 - nth i1 s x0) * (w1 - inject_Z (Qfloor w1))
          <= nth i2 s x0
             + (nth j2 s x0 - nth i2 s x0) * (w2 - inject_Z (Qfloor w2))).
  set (g1 := w1 - inject_Z (Qfloor w1)). set (g2 := w2 - inject_Z (Qfloor w2)).
  assert (Hg1 : 0 <= g1 <= 1) by (unfold g1; lra).
  assert (Hg2 : 0 <= g2 <= 1) by (unfold g2; lra).
  destruct (Nat.eq_dec i1 i2) as [Heq|Hneq].
  - assert (Hf : Qfloor w1 = Qfloor w2) by (unfold i1, i2 in Heq; lia).
    assert (Hg12 : g1 <= g2) by (unfold g1, g2; rewrite Hf; lra).
    unfold j1, j2 in *. rewrite <- Heq in *.
    set (lo := nth i1 s x0) in *.
    set (hi := nth (Nat.min (i1 + 1) (length s - 1)) s x0) in *.
    clearbody lo hi g1 g2. nra.
  - pose proof (sorted_nth s x0 Hsorted j1 i2 ltac:(unfold j1; lia)) as S12.
    set (lo1 := nth i1 s x0) in *. set (hi1 := nth j1 s x0) in *.
    set (lo2 := nth i2 s x0) in *. set (hi2 := nth j2 s x0) in *.
    clearbody lo1 hi1 lo2 hi2 g1 g2.
    apply Qle_trans with hi1; [nra|].
    apply Qle_trans with lo2; [exact S12|nra].
Qed.

(** The percentile of non-negative pixels exists and is not negative. *)
Lemma percentile_nonneg (a : list Q) (q : Q) :
  a <> [] -> Forall (fun x => 0 <= x) a -> 0 <= q <= 100 ->
  exists v, percentile a q = Ok v /\ 0 <= v.
Proof.
  intros Hne Hpos [Hq0 Hq1]. unfold percentile.
  apply Qle_bool_iff in Hq0. apply Qle_bool_iff in Hq1.
  rewrite Hq0, Hq1. cbn [andb negb].
  destruct (sort a) as [|x0 s'] eqn:Es.
  { apply (f_equal (@length Q)) in Es. rewrite sort_length in Es.
    destruct a; [congruence|discriminate]. }
  set (s := x0 :: s') in *.
  assert (Hs : forall k, 0 <= nth k s x0).
  { intros k. rewrite Forall_forall in Hpos. apply Hpos, In_sort.
    rewrite Es. destruct (nth_in_or_default k s x0) as [H| ->]; [exact H|].
    now left. }
  eexists. split; [reflexivity|].
  set (virtual := inject_Z (Z.of_nat (length s - 1)) * (q / 100)).
  pose proof (Qfloor_le virtual) as Hf1.
  pose proof (Qlt_floor virtual) as Hf2.
  rewrite inject_Z_plus in Hf2. change (inject_Z 1) with 1 in Hf2.
  set (g := virtual - inject_Z (Qfloor virtual)).
  assert (Hg : 0 <= g <= 1) by (unfold g; lra).
  pose proof (Hs (Z.to_nat (Qfloor virtual))) as Hlo.
  pose proof (Hs (Nat.min (Z.to_nat (Qfloor virtual) + 1) (length s - 1))) as Hhi.
  nra.
Qed.

Lemma stretch_below (vmin vmax x : Q) :
  vmin < vmax -> x <= vmin -> stretch vmin vmax x == 0.
Proof.
  intros H Hx. unfold stretch.
  rewrite (clip_below vmin vmax x) by lra. field. lra.
Qed.

Lemma stretch_above (vmin vmax x : Q) :
  vmin < vmax -> vmax <= x -> stretch vmin vmax x == 1.
Proof.
  intros H Hx. unfold stretch.
  rewrite (clip_above vmin vmax x) by lra. field. lra.
Qed.

Lemma stretch_inside (vmin vmax x : Q) :
  vmin < vmax -> vmin <= x <= vmax ->
  stretch vmin vmax x == (x - vmin) / (vmax - vmin).
Proof.
  intros H Hx. unfold stretch.
  rewrite (clip_inside vmin vmax x) by lra. field. lra.
Qed.

(** What cell 23 returns on a volume of non-negative pixels. *)
Lemma clipped_data_run (data : ndarray Q) :
  flat data <> [] -> Forall (fun x => 0 <= x) (flat data) ->
  exists vmin vmax out,
    percentiles data = Ok (vmin, vmax) /\
    0 <= vmin <= vmax /\
    (forall x, vmin <= clip vmin vmax x <= vmax) /\
    clipped_data data = Ok out /\
    shape out = shape data /\
    Forall unit_interval (flat out) /\
    (vmin < vmax ->
     flat out = map (stretch vmin vmax) (flat data) /\
     (forall x, x <= vmin -> stretch vmin vmax x == 0) /\
     (forall x, vmax <= x -> stretch vmin vmax x == 1) /\
     (forall x, vmin <= x <= vmax ->
                stretch vmin vmax x == (x - vmin) / (vmax - vmin))).
Proof.
  intros Hne Hpos.
  destruct (percentile_nonneg (flat data) (5 # 10) Hne Hpos) as [vmin [Hmin H0]];
    [split; discriminate|].
  destruct (percentile_nonneg (flat data) (995 # 10) Hne Hpos) as [vmax [Hmax H1]];
    [split; discriminate|].
  exists vmin, vmax.
  assert (Hp : percentiles data = Ok (vmin, vmax))
    by (unfold percentiles; now rewrite Hmin, Hmax).
  assert (Hle : vmin <= vmax).
  { apply (percentile_monotone (flat data) (5 # 10) (995 # 10));
      try assumption; discriminate. }
  assert (Hclip : forall x, vmin <= clip vmin vmax x <= vmax)
    by (intros x; split; [now apply clip_lower|apply clip_upper]).
  unfold clipped_data. rewrite Hp. cbn [bind fst snd].
  unfold Exposure.rescale_intensity, Exposure.intensity_range.
  cbn [bind fst snd DTYPE_RANGE].
  pose proof H0 as H0'. apply Qle_bool_iff in H0. rewrite H0.
  destruct (Qeq_bool vmin vmax) eqn:E; cbn [negb].
  - eexists. split; [reflexivity|]. split; [now split|].
    split; [exact Hclip|]. split; [reflexivity|].
    split; [reflexivity|]. split.
    + cbn [amap flat]. rewrite map_map. apply Forall_forall.
      intros y Hy. apply in_map_iff in Hy as [x [<- _]].
      split; [apply clip_lower; discriminate|apply clip_upper].
    + intros Hlt. apply Qeq_bool_iff in E. lra.
  - eexists. split; [reflexivity|]. split; [now split|].
    split; [exact Hclip|]. split; [reflexivity|].
    split; [reflexivity|]. split.
    + cbn [amap flat]. rewrite map_map. apply Forall_forall.
      intros y Hy. apply in_map_iff in Hy as [x [<- _]].
      apply rescale_pixel_range; [discriminate|].
      intros Heq. apply Qeq_bool_iff in Heq. congruence.
    + intros Hlt. split; [|split; [|split]].
      * cbn [amap flat]. rewrite map_map. reflexivity.
      * intros x. now apply stretch_below.
      * intros x. now apply stretch_above.
      * intros x. now apply stretch_inside.
Qed.

(** C1 (amended).  On a volume of non-negative pixels, cell 23 clips the
    pixels to the percentiles [0 <= vmin <= vmax], so that the clipped
    pixels are bounded by the two percentiles, and maps that interval onto
    [0, 1], the non-negative range of [out_range=np.float32]: every value
    of the result lies in [0, 1]; when [vmin < vmax], pixels at or below
    [vmin] become 0, pixels at or above [vmax] become 1 and a pixel [x] in
    between becomes [(x - vmin) / (vmax - vmin)]. *)
Theorem clip_rescales_to_unit (data : ndarray Q) :
  flat data <> [] -> Forall (fun x => 0 <= x) (flat data) ->
  exists vmin vmax out,
    percentiles data = Ok (vmin, vmax) /\
    0 <= vmin <= vmax /\
    (forall x, vmin <= clip vmin vmax x <= vmax) /\
    clipped_data data = Ok out /\
    shape out = shape data /\
    Forall unit_interval (flat out) /\
    (vmin < vmax ->
     flat out = map (stretch vmin vmax) (flat data) /\
     (forall x, x <= vmin -> stretch vmin vmax x == 0) /\
     (forall x, vmax <= x -> stretch vmin vmax x == 1) /\
     (forall x, vmin <= x <= vmax ->
                stretch vmin vmax x == (x - vmin) / (vmax - vmin))).
Proof.
  exact (clipped_data_run data).
Qed.

Lemma clip_rescales_to_unit_witness :
  exists vmin vmax out,
    clipped_data (mk_ndarray [1; 1; 2]%nat [0; 1 # 2]) = Ok out /\
    percentiles (mk_ndarray [1; 1; 2]%nat [0; 1 # 2]) = Ok (vmin, vmax) /\
    Forall unit_interval (flat out).
Proof.
  destruct (clip_rescales_to_unit (mk_ndarray [1; 1; 2]%nat [0; 1 # 2]))
    as [vmin [vmax [out [H1 [_ [_ [H2 [_ [H3 _]]]]]]]]].
  - discriminate.
  - repeat constructor; discriminate.
  - exists vmin, vmax, out. auto.
Defined.

(** C1 as stated fails: on the pixels 0 and 1/2 the percentiles are 1/400
    and 199/400, and the rescaled pixels are 0 and 1. *)
Lemma clip_exceeds_percentiles :
  let data := mk_ndarray [1; 1; 2]%nat [0; 1 # 2] in
  (exists vmin vmax out,
     percentiles data = Ok (vmin, vmax) /\
     vmin == 1 # 400 /\ vmax == 199 # 400 /\
     clipped_data data = Ok out /\
     map Qred (flat out) = [0; 1]) /\
  ~ bounded_by_percentiles data.
Proof.
  split.
  - eexists _, _, _. split; [reflexivity|]. repeat split; reflexivity.
  - intros [vmin [vmax [out [lo [hi [H1 [H2 [H3 [H4 [H5 H6]]]]]]]]]].
    vm_compute in H1. injection H1 as <- <-.
    vm_compute in H2. injection H2 as <-.
    vm_compute in H4. injection H4 as <-.
    vm_compute in H6. apply H6. reflexivity.
Qed.

(** ** C2: gamma correction and the mean *)

Section GammaFacts.

Local Open Scope R_scope.

Lemma power_zero_base (g : R) : g <> 0 -> Gamma.power 0 g = 0.
Proof.
  intros Hg. unfold Gamma.power.
  destruct (Req_dec_T 0 0) as [_|H]; [|congruence].
  destruct (Req_dec_T g 0); [contradiction|reflexivity].
Qed.

Lemma power_positive_base (x g : R) : 0 < x -> Gamma.power x g = Rpower x g.
Proof.
  intros Hx. unfold Gamma.power. destruct (Req_dec_T x 0); [lra|reflexivity].
Qed.

Lemma power_one_base (g : R) : Gamma.power 1 g = 1.
Proof.
  rewrite power_positive_base by lra. unfold Rpower.
  now rewrite ln_1, Rmult_0_r, exp_0.
Qed.

Lemma ln_negative (x : R) : 0 < x < 1 -> ln x < 0.
Proof.
  intros [H0 H1]. rewrite <- ln_1. now apply ln_increasing.
Qed.

(** Below 1 an exponent under 1 raises a pixel and an exponent over 1
    lowers it. *)
Lemma power_raises (x g : R) : 0 < x < 1 -> 0 <= g < 1 -> x < Gamma.power x g.
Proof.
  intros Hx Hg. rewrite power_positive_base by lra.
  pose proof (ln_negative x Hx) as Hln.
  rewrite <- (exp_ln x) at 1 by lra. unfold Rpower.
  apply exp_increasing. nra.
Qed.

Lemma power_lowers (x g : R) : 0 < x < 1 -> 1 < g -> Gamma.power x g < x.
Proof.
  intros Hx Hg. rewrite power_positive_base by lra.
  pose proof (ln_negative x Hx) as Hln.
  rewrite <- (exp_ln x) at 2 by lra. unfold Rpower.
  apply exp_increasing. nra.
Qed.

Lemma power_not_below (x g : R) : 0 <= x <= 1 -> 0 <= g < 1 -> x <= Gamma.power x g.
Proof.
  intros Hx Hg.
  destruct (Req_dec_T x 0) as [->|H0].
  - unfold Gamma.power. destruct (Req_dec_T 0 0); [|congruence].
    destruct (Req_dec_T g 0); lra.
  - destruct (Req_dec_T x 1) as [->|H1].
    + rewrite power_one_base. lra.
    + left. apply power_raises; lra.
Qed.

Lemma power_not_above (x g : R) : 0 <= x <= 1 -> 1 < g -> Gamma.power x g <= x.
Proof.
  intros Hx Hg.
  destruct (Req_dec_T x 0) as [->|H0].
  - rewrite power_zero_base by lra. lra.
  - destruct (Req_dec_T x 1) as [->|H1].
    + rewrite power_one_base. lra.
    + left. apply power_lowers; lra.
Qed.

Lemma power_unit (x g : R) :
  0 <= x <= 1 -> 0 <= g -> 0 <= Gamma.power x g <= 1.
Proof.
  intros Hx Hg. destruct (Req_dec_T x 0) as [->|H0].
  - unfold Gamma.power. destruct (Req_dec_T 0 0); [|congruence].
    destruct (Req_dec_T g 0); lra.
  - rewrite power_positive_base by lra. unfold Rpower. split.
    + left. apply exp_pos.
    + destruct (Req_dec_T (g * ln x) 0) as [->|Hz]; [rewrite exp_0; lra|].
      left. rewrite <- exp_0. apply exp_increasing.
      destruct (Req_dec_T x 1) as [->|H1]; [rewrite ln_1 in Hz; lra|].
      assert (ln x < 0) by (apply ln_negative; lra). nra.
Qed.

(** What [adjust_gamma] does to one pixel of a floating-point image. *)
Lemma gamma_pixel (x g : R) :
  Gamma.power (x / Gamma.scale) g * Gamma.scale * 1 = Gamma.power x g.
Proof.
  unfold Gamma.scale. replace (x / (1 - 0)) with x by field. lra.
Qed.

Lemma negative_false (x : R) : 0 <= x -> Gamma.negative x = false.
Proof.
  intros H. unfold Gamma.negative. destruct (Rlt_dec x 0); [lra|reflexivity].
Qed.

Lemma negative_true (x : R) : x < 0 -> Gamma.negative x = true.
Proof.
  intros H. unfold Gamma.negative. destruct (Rlt_dec x 0); [reflexivity|lra].
Qed.

Lemma no_negative (l : list R) :
  Forall (fun x => 0 <= x) l -> existsb Gamma.negative l = false.
Proof.
  induction 1 as [|x l Hx Hl IH]; [reflexivity|].
  simpl. now rewrite negative_false, IH.
Qed.

(** [adjust_gamma] returns the volume of the powers when no pixel and no
    exponent is negative. *)
Lemma adjust_gamma_run (data : ndarray R) (g : R) :
  Forall (fun x => 0 <= x) (flat data) -> 0 <= g ->
  Gamma.adjust_gamma data g
  = Ok (mk_ndarray (shape data) (map (fun x => Gamma.power x g) (flat data))).
Proof.
  intros Hpos Hg. unfold Gamma.adjust_gamma, Gamma.adjust_gamma_gain.
  rewrite negative_false, no_negative by assumption.
  unfold amap. f_equal. f_equal. apply map_ext. intros x. apply gamma_pixel.
Qed.






End GammaFacts.




(** ** C8: the range of the volume and of the arrays derived from it *)

Lemma In_firstn {A} (x : A) (k : nat) (l : list A) :
  In x (firstn k l) -> In x l.
Proof.
  revert l. induction k as [|k IH]; intros [|y l]; simpl; try tauto.
  intros [H|H]; auto.
Qed.

Lemma In_skipn {A} (x : A) (k : nat) (l : list A) :
  In x (skipn k l) -> In x l.
Proof.
  revert l. induction k as [|k IH]; intros [|y l]; simpl; try tauto.
  intros H. right. now apply IH.
Qed.

Lemma In_chunk {A} (x : A) (k n j : nat) (xs : list A) :
  In x (nth j (chunks k n xs) []) -> In x xs.
Proof.
  revert j xs. induction n as [|n IH]; intros j xs H.
  - destruct j; contradiction.
  - destruct j as [|j]; simpl in H.
    + eapply In_firstn; eassumption.
    + apply IH in H. eapply In_skipn; eassumption.
Qed.

(** Indexing returns elements of the array. *)
Lemma In_getitem_flat {A} (x : A) (ix : list index) :
  forall (sh : list nat) (xs : list A),
    In x (getitem_flat sh ix xs) -> In x xs.
Proof.
  induction ix as [|i ix IH]; intros sh xs H.
  - destruct sh; exact H.
  - destruct sh as [|n sh]; [destruct i; exact H|].
    destruct i as [i|s]; cbn [getitem_flat] in H.
    + destruct (norm_index n i) as [j|e]; [|contradiction].
      apply IH in H. eapply In_chunk; eassumption.
    + destruct (slice_indices n s) as [js|e]; [|contradiction].
      apply in_flat_map in H as [j [_ H]].
      apply IH in H. eapply In_chunk; eassumption.
Qed.

Lemma img_as_float_unit (x : Z) :
  is_uint16 x -> unit_interval (inject_Z x * (1 / 65535)).
Proof.
  unfold is_uint16, unit_interval. intros [H0 H1].
  assert (Hq0 : 0 <= inject_Z x)
    by (change 0 with (inject_Z 0); rewrite <- Zle_Qle; exact H0).
  assert (Hq1 : inject_Z x <= 65535)
    by (change 65535 with (inject_Z 65535); rewrite <- Zle_Qle; exact H1).
  revert Hq0 Hq1. generalize (inject_Z x). intros q Hq0 Hq1.
  split.
  - apply Qmult_le_0_compat; [exact Hq0|discriminate].
  - apply Qle_trans with (65535 * (1 / 65535)); [|discriminate].
    apply Qmult_le_compat_r; [exact Hq1|discriminate].
Qed.

Lemma load_unit (cells3d : ndarray Z) (data : ndarray Q) :
  Forall is_uint16 (flat cells3d) -> load cells3d = Ok data ->
  Forall unit_interval (flat data).
Proof.
  intros Hu. unfold load, getitem.
  destruct (getitem_shape (shape cells3d) [All; Idx 1; All; All]) as [sh|e];
    [|discriminate].
  cbn [bind]. intros H. injection H as <-.
  unfold img_as_float. cbn [amap flat]. apply Forall_forall.
  intros y Hy. apply in_map_iff in Hy as [x [<- Hx]].
  apply img_as_float_unit. apply In_getitem_flat in Hx.
  rewrite Forall_forall in Hu. now apply Hu.
Qed.

(** When cell 4 completes, the volume it returns is the loaded one and has
    pixels. *)
Lemma cell_load_done (cells3d : ndarray Z) (data : ndarray Q) :
  snd (cell_load cells3d) = Ok data ->
  load cells3d = Ok data /\ flat data <> [].
Proof.
  unfold cell_load. destruct (load cells3d) as [d|e]; [|discriminate].
  rewrite pbind_lift_ok, !pbind_emit. cbn [snd].
  unfold amin at 1.
  destruct (flat d) as [|x xs] eqn:E; [discriminate|].
  rewrite pbind_lift_ok.
  unfold amax at 1. rewrite E. rewrite pbind_lift_ok.
  cbn. intros H. injection H as <-. split; [reflexivity|]. congruence.
Qed.

Lemma Q2R_unit (x : Q) : unit_interval x -> unit_interval_R (Q2R x).
Proof.
  intros [H0 H1]. split.
  - apply Qle_Rle in H0. now rewrite RMicromega.Q2R_0 in H0.
  - apply Qle_Rle in H1. now rewrite RMicromega.Q2R_1 in H1.
Qed.

Lemma gamma_unit (data : ndarray Q) (g : R) :
  Forall unit_interval (flat data) -> (0 <= g)%R ->
  exists out,
    Gamma.adjust_gamma (Gamma.as_real data) g = Ok out /\
    shape out = shape data /\
    Forall unit_interval_R (flat out).
Proof.
  intros Hu Hg.
  assert (HuR : Forall unit_interval_R (flat (Gamma.as_real data))).
  { unfold Gamma.as_real. cbn [amap flat]. apply Forall_forall.
    intros y Hy. apply in_map_iff in Hy as [x [<- Hx]].
    apply Q2R_unit. rewrite Forall_forall in Hu. now apply Hu. }
  rewrite adjust_gamma_run.
  - eexists. split; [reflexivity|]. split; [reflexivity|].
    cbn [flat]. apply Forall_forall. intros y Hy.
    apply in_map_iff in Hy as [x [<- Hx]].
    rewrite Forall_forall in HuR. apply power_unit; [now apply HuR|exact Hg].
  - eapply Forall_impl; [|exact HuR]. intros x [H _]. exact H.
  - exact Hg.
Qed.

(** C8.  When cell 4 has loaded the volume from unsigned 16-bit pixels,
    every pixel of it lies in [0, 1], and so does every pixel of the two
    gamma-corrected volumes, of the equalized volume and of the
    percentile-rescaled volume, each of which is returned. *)
Theorem notebook_range_invariant (cells3d : ndarray Z) (data : ndarray Q) :
  Forall is_uint16 (flat cells3d) ->
  snd (cell_load cells3d) = Ok data ->
  Forall unit_interval (flat data) /\
  (exists out, Gamma.gamma_low data = Ok out /\
               Forall unit_interval_R (flat out)) /\
  (exists out, Gamma.gamma_high data = Ok out /\
               Forall unit_interval_R (flat out)) /\
  (exists out, equalized_data data = Ok out /\
               Forall unit_interval (flat out)) /\
  (exists out, clipped_data data = Ok out /\
               Forall unit_interval (flat out)).
Proof.
  intros Hu Hload. apply cell_load_done in Hload as [Hload Hne].
  pose proof (load_unit cells3d data Hu Hload) as Hdata.
  split; [exact Hdata|]. split; [|split; [|split]].
  - destruct (gamma_unit data Gamma.gamma_low_val Hdata) as [out [H1 [_ H2]]].
    + unfold Gamma.gamma_low_val. lra.
    + exists out. split; assumption.
  - destruct (gamma_unit data Gamma.gamma_high_val Hdata) as [out [H1 [_ H2]]].
    + unfold Gamma.gamma_high_val. lra.
    + exists out. split; assumption.
  - destruct (equalize_hist_nbins_unit data 256) as [out [H1 [_ H2]]];
      [discriminate|].
    exists out. split; assumption.
  - destruct (clipped_data_run data Hne)
      as [vmin [vmax [out [_ [_ [_ [H1 [_ [H2 _]]]]]]]]].
    + eapply Forall_impl; [|exact Hdata]. intros x [H _]. exact H.
    + exists out. split; assumption.
Qed.

Lemma notebook_range_invariant_witness :
  Forall unit_interval
    (flat (img_as_float (mk_ndarray [2; 1; 2]%nat [3; 4; 7; 8]%Z))).
Proof.
  apply (notebook_range_invariant
           (mk_ndarray [2; 2; 1; 2]%nat [1; 2; 3; 4; 5; 6; 7; 8]%Z)
           (img_as_float (mk_ndarray [2; 1; 2]%nat [3; 4; 7; 8]%Z))).
  - repeat constructor; discriminate.
  - reflexivity.
Defined.

(** ** C5: the exposure functions return copies *)

Lemma read_bind {A T} (o : Store.array) (k : ndarray A -> Store.M A T)
    (h : Store.heap A) (block : list A) :
  nth_error h (Store.base o) = Some block ->
  Store.mbind (Store.read o) k h = k (mk_ndarray (Store.dims o) block) h.
Proof.
  intros H. unfold Store.mbind, Store.read. rewrite H. reflexivity.
Qed.

Lemma new_bind {A T} (a : ndarray A) (k : Store.array -> Store.M A T)
    (h : Store.heap A) :
  Store.mbind (Store.new a) k h
  = k (Store.mk_array (length h) (shape a)) (h ++ [flat a]).
Proof. reflexivity. Qed.

Lemma elementwise_run {A} (f : A -> A) (o : Store.array)
    (h : Store.heap A) (block : list A) :
  nth_error h (Store.base o) = Some block ->
  Store.elementwise f o h
  = (h ++ [map f block], Ok (Store.mk_array (length h) (Store.dims o))).
Proof.
  intros H. unfold Store.elementwise. now rewrite (read_bind o _ h block H).
Qed.

Lemma elementwise_bind {A T} (f : A -> A) (o : Store.array)
    (k : Store.array -> Store.M A T) (h : Store.heap A) (block : list A) :
  nth_error h (Store.base o) = Some block ->
  Store.mbind (Store.elementwise f o) k h
  = k (Store.mk_array (length h) (Store.dims o)) (h ++ [map f block]).
Proof.
  intros H. unfold Store.mbind at 1.
  rewrite (elementwise_run f o h block H). reflexivity.
Qed.

Lemma nth_error_snoc {A} (h : list A) (x : A) :
  nth_error (h ++ [x]) (length h) = Some x.
Proof.
  rewrite nth_error_app2 by lia. now rewrite Nat.sub_diag.
Qed.

Lemma nth_error_kept {A} (h t : list A) (r : nat) (b : A) :
  nth_error h r = Some b -> nth_error (h ++ t) r = Some b.
Proof.
  intros H. rewrite nth_error_app1; [exact H|].
  apply nth_error_Some. congruence.
Qed.

(** A call on the array made last. *)
Lemma elementwise_last {A T} (f : A -> A) (d : list nat)
    (k : Store.array -> Store.M A T) (h : Store.heap A) (x : list A) :
  Store.mbind (Store.elementwise f (Store.mk_array (length h) d)) k (h ++ [x])
  = k (Store.mk_array (length (h ++ [x])) d) ((h ++ [x]) ++ [map f x]).
Proof.
  apply (elementwise_bind f (Store.mk_array (length h) d)).
  apply nth_error_snoc.
Qed.

Lemma elementwise_run_last {A} (f : A -> A) (d : list nat)
    (h : Store.heap A) (x : list A) :
  Store.elementwise f (Store.mk_array (length h) d) (h ++ [x])
  = ((h ++ [x]) ++ [map f x], Ok (Store.mk_array (length (h ++ [x])) d)).
Proof.
  apply (elementwise_run f (Store.mk_array (length h) d)).
  apply nth_error_snoc.
Qed.

(** A view of the array made last: no block is added. *)
Lemma reshape_last {A T} (sh d : list nat)
    (k : Store.array -> Store.M A T) (h : Store.heap A) (x : list A) :
  size sh = length x ->
  Store.mbind (Store.reshape (Store.mk_array (length h) d) sh) k (h ++ [x])
  = k (Store.mk_array (length h) sh) (h ++ [x]).
Proof.
  intros Hsz. unfold Store.reshape, Store.mbind at 1.
  rewrite (read_bind (Store.mk_array (length h) d) _ (h ++ [x]) x
             (nth_error_snoc h x)).
  cbn [flat]. rewrite Hsz, Nat.eqb_refl. reflexivity.
Qed.

Lemma of_result_bind {A T U} (x : T) (k : T -> Store.M A U) (h : Store.heap A) :
  Store.mbind (Store.of_result (Ok x)) k h = k x h.
Proof. reflexivity. Qed.

Lemma of_result_raise {A T U} (e : exn) (k : T -> Store.M A U)
    (h : Store.heap A) :
  Store.mbind (Store.of_result (Raise e)) k h = (h, Raise e).
Proof. reflexivity. Qed.

Lemma nth_error_replace_other {A} (h : Store.heap A) (r r' : nat)
    (c : list A) :
  r <> r' -> nth_error (Store.replace r c h) r' = nth_error h r'.
Proof.
  revert r r'. induction h as [|b h IH]; intros r r' Hne.
  - destruct r; reflexivity.
  - destruct r as [|r]; destruct r' as [|r']; simpl; try reflexivity.
    + congruence.
    + apply IH. congruence.
Qed.

Lemma nth_error_replace_same {A} (h : Store.heap A) (r : nat)
    (b c : list A) :
  nth_error h r = Some b -> nth_error (Store.replace r c h) r = Some c.
Proof.
  revert r. induction h as [|x h IH]; intros r H.
  - destruct r; discriminate.
  - destruct r as [|r]; simpl; [reflexivity|]. now apply IH.
Qed.

(** What an object shows, in terms of the memory. *)
Lemma read_shows {A} (o : Store.array) (h : Store.heap A) (b : ndarray A) :
  snd (Store.read o h) = Ok b <->
  nth_error h (Store.base o) = Some (flat b) /\ Store.dims o = shape b.
Proof.
  unfold Store.read. destruct (nth_error h (Store.base o)) as [block|];
    cbn [snd]; split.
  - intros H. apply Ok_inj in H. subst b. split; reflexivity.
  - intros [H1 H2]. injection H1 as ->. rewrite H2. now destruct b.
  - discriminate.
  - intros [H _]. discriminate.
Qed.

(** What is left to show of [returns_copy] once a run has been computed: the
    memory [h'] after the run extends the memory [h] before it, and the
    object returned is on a block that [h] did not have. *)
Lemma copy_at_end {A} (h h' : Store.heap A) (image out : Store.array)
    (block : list A) (b : ndarray A) :
  nth_error h (Store.base image) = Some block ->
  (forall r x, nth_error h r = Some x -> nth_error h' r = Some x) ->
  (length h <= Store.base out)%nat ->
  nth_error h' (Store.base out) = Some (flat b) ->
  Store.dims out = shape b ->
  shape b = Store.dims image ->
  Store.base out <> Store.base image /\
  nth_error h (Store.base out) = None /\
  snd (Store.read out h') = Ok b /\
  shape b = shape (mk_ndarray (Store.dims image) block) /\
  (forall c,
     snd (Store.read image (fst (Store.assign out c h')))
     = Ok (mk_ndarray (Store.dims image) block)) /\
  (forall c,
     snd (Store.read out (fst (Store.assign image c h'))) = Ok b).
Proof.
  intros Ha Hext Hnew Hout Hd Hsh.
  assert (Hlt : (Store.base image < length h)%nat)
    by (apply nth_error_Some; congruence).
  assert (Hne : Store.base out <> Store.base image) by lia.
  split; [exact Hne|]. split; [now apply nth_error_None|].
  split; [now apply read_shows|]. split; [exact Hsh|]. split.
  - intros c. apply read_shows. cbn [flat shape].
    unfold Store.assign. cbn [fst].
    rewrite nth_error_replace_other by exact Hne. split; [|reflexivity].
    now apply Hext.
  - intros c. apply read_shows. unfold Store.assign. cbn [fst].
    rewrite nth_error_replace_other by congruence. now split.
Qed.

(** One numpy call of a run: on the input, or on the array made last. *)
Ltac numpy_call Ha :=
  first
    [ rewrite elementwise_last
    | rewrite (elementwise_bind _ _ _ _ _ Ha)
    | rewrite elementwise_run_last
    | rewrite new_bind ].

Ltac raised :=
  split; [intros ? ? Hr; exact Hr|reflexivity].

Ltac extends :=
  let r := fresh "r" in
  let x := fresh "x" in
  let Hr := fresh "Hr" in
  intros r x Hr; repeat apply nth_error_kept; exact Hr.

Ltac copied Ha :=
  cbn [fst snd]; split;
  [ extends
  | eexists; split; [reflexivity|];
    apply (fun h' out b => copy_at_end _ h' _ out _ b Ha);
    [ extends
    | cbn [Store.base]; rewrite ?length_app; lia
    | cbn [Store.base amap flat shape]; rewrite ?map_map;
      first [apply nth_error_snoc | exact (nth_error_snoc _ _)]
    | reflexivity
    | reflexivity ] ].

Lemma adjust_gamma_returns_copy (image : Store.array) (gamma gain : R) :
  returns_copy (Store.adjust_gamma image gamma gain) image
    (fun a => Gamma.adjust_gamma_gain a gamma gain).
Proof.
  intros h block Ha Hwf a. unfold Store.adjust_gamma, Gamma.adjust_gamma_gain.
  destruct (Gamma.negative gamma); [raised|].
  rewrite (read_bind image _ h block Ha). fold a.
  destruct (existsb Gamma.negative (flat a)); [raised|].
  unfold Store.astype. repeat numpy_call Ha.
  copied Ha.
Qed.

Lemma equalize_hist_returns_copy (image : Store.array) (nbins : nat) :
  returns_copy (Store.equalize_hist image nbins) image
    (fun a => Exposure.equalize_hist_nbins a nbins).
Proof.
  intros h block Ha Hwf a. unfold Store.equalize_hist, Exposure.equalize_hist_nbins.
  rewrite (read_bind image _ h block Ha). fold a.
  destruct (nbins =? 0)%nat; [raised|].
  destruct (Exposure.cumulative_distribution (flat a) nbins)
    as [cdf bin_centers].
  destruct (combine bin_centers cdf) as [|p0 pts]; [raised|].
  rewrite new_bind. cbn [flat shape a].
  rewrite reshape_last by (now rewrite length_map).
  unfold Store.astype_copy_false, Store.ret.
  copied Ha.
Qed.

Lemma rescale_intensity_returns_copy (image : Store.array)
    (in_range out_range : Exposure.range_values) :
  returns_copy (Store.rescale_intensity image in_range out_range) image
    (fun a => Exposure.rescale_intensity a in_range out_range).
Proof.
  intros h block Ha Hwf a.
  unfold Store.rescale_intensity, Exposure.rescale_intensity.
  rewrite (read_bind image _ h block Ha). fold a.
  destruct (Exposure.intensity_range a in_range false) as [[imin imax]|e];
    [|rewrite !of_result_raise; raised].
  rewrite !of_result_bind. cbn [fst snd bind].
  destruct (Exposure.intensity_range a out_range (Qle_bool 0 imin))
    as [[omin omax]|e]; [|rewrite !of_result_raise; raised].
  rewrite !of_result_bind. cbn [fst snd bind].
  rewrite !(elementwise_bind _ _ _ _ _ Ha).
  unfold Store.astype.
  destruct (negb (Qeq_bool imin imax)).
  - repeat numpy_call Ha. copied Ha.
  - repeat numpy_call Ha. copied Ha.
Qed.

(** A view is no copy: [image.reshape(image.shape)] returns an object on
    the block of [image], so an assignment to one shows in the other. *)
Lemma reshape_is_no_copy (image : Store.array) :
  ~ returns_copy (Store.reshape (A := Q) image (Store.dims image)) image
      (fun a => Ok a).
Proof.
  intros H.
  set (block := repeat 0 (size (Store.dims image))).
  set (h := repeat block (S (Store.base image))).
  assert (Ha : nth_error h (Store.base image) = Some block)
    by (apply nth_error_repeat; lia).
  assert (Hwf : length block = size (Store.dims image))
    by apply repeat_length.
  destruct (H h block Ha Hwf) as [_ [out [Hout [Hne _]]]].
  unfold Store.reshape in Hout.
  rewrite (read_bind image _ h block Ha) in Hout. cbn [flat] in Hout.
  rewrite Hwf, Nat.eqb_refl in Hout. cbn in Hout.
  apply Ok_inj in Hout. subst out. now apply Hne.
Qed.

Example reshape_refused :
  snd ((Store.mbind (Store.new (mk_ndarray [2]%nat [0; 1])) (fun a =>
        Store.reshape a [3; 1]%nat)) [])
  = Raise (ValueError "cannot reshape array of size 2 into shape (3,1)").
Proof. reflexivity. Qed.

Example view_shows_assignment :
  snd ((Store.mbind (Store.new (mk_ndarray [2]%nat [0; 1])) (fun a =>
        Store.mbind (Store.reshape a [1; 2]%nat) (fun v =>
        Store.mbind (Store.assign a [1 # 2; 1 # 4]) (fun _ =>
        Store.read v)))) [])
  = Ok (mk_ndarray [1; 2]%nat [1 # 2; 1 # 4]).
Proof. reflexivity. Qed.

Lemma rescale_intensity_run (a : ndarray Q) (vmin vmax : Q) (d : dtype) :
  exists b,
    Exposure.rescale_intensity a (Exposure.Pair vmin vmax) (Exposure.OfType d)
    = Ok b.
Proof.
  unfold Exposure.rescale_intensity, Exposure.intensity_range.
  cbn [bind fst snd].
  destruct (negb (Qeq_bool vmin vmax)); eexists; reflexivity.
Qed.

(** C5.  Each of the three exposure functions, run on an array object
    [image] -- [adjust_gamma] with any exponent, [equalize_hist], and
    [rescale_intensity] between two percentiles onto the range of
    [np.float32] -- leaves every block of the memory, that of the input
    among them, as it was, and returns an array of the shape of the input
    on a new block, which is not the block of the input: an assignment to
    the returned array does not show in the input, nor one to the input in
    the returned array.  [equalize_hist] and [rescale_intensity] always
    return; [adjust_gamma] returns when no pixel and no exponent is
    negative. *)
Theorem exposure_returns_copies (image : Store.array) :
  (forall gamma,
     returns_copy (Store.adjust_gamma image gamma 1) image
       (fun a => Gamma.adjust_gamma a gamma)) /\
  returns_copy (Store.equalize_hist image 256) image Exposure.equalize_hist /\
  (forall vmin vmax,
     returns_copy
       (Store.rescale_intensity image (Exposure.Pair vmin vmax)
          (Exposure.OfType float32))
       image
       (fun a => Exposure.rescale_intensity a (Exposure.Pair vmin vmax)
                   (Exposure.OfType float32))) /\
  (forall a gamma,
     Forall (fun x => 0 <= x)%R (flat a) -> (0 <= gamma)%R ->
     exists b, Gamma.adjust_gamma a gamma = Ok b) /\
  (forall a, exists b, Exposure.equalize_hist a = Ok b) /\
  (forall a vmin vmax,
     exists b,
       Exposure.rescale_intensity a (Exposure.Pair vmin vmax)
         (Exposure.OfType float32) = Ok b).
Proof.
  split; [|split; [|split; [|split; [|split]]]].
  - intros gamma. apply adjust_gamma_returns_copy.
  - apply equalize_hist_returns_copy.
  - intros vmin vmax. apply rescale_intensity_returns_copy.
  - intros a gamma Hpos Hg. rewrite adjust_gamma_run by assumption.
    eexists. reflexivity.
  - intros a. destruct (equalize_hist_nbins_unit a 256) as [b [Hb _]];
      [discriminate|].
    exists b. exact Hb.
  - intros a vmin vmax. apply rescale_intensity_run.
Qed.

Lemma exposure_returns_copies_witness :
  nth_error
    (fst (Store.rescale_intensity (Store.mk_array 0%nat [1; 1; 2]%nat)
            (Exposure.Pair (1 # 400) (199 # 400))
            (Exposure.OfType float32)
            [[0; 1 # 2]])) 0%nat
  = Some [0; 1 # 2].
Proof.
  exact (proj1 (proj1 (proj2 (proj2 (exposure_returns_copies
                                       (Store.mk_array 0%nat [1; 1; 2]%nat))))
                  (1 # 400) (199 # 400)
                  [[0; 1 # 2]] [0; 1 # 2] eq_refl eq_refl)
           0%nat [0; 1 # 2] eq_refl).
Defined.

(** * Further properties of the cells *)

(** ** Cell 4: loading *)

(** X1.  A dataset with fewer than four axes, or with fewer than two
    channels, has no channel 1: [load] raises [IndexError], and cell 4 stops
    there, before it prints anything. *)
Theorem load_without_channel (cells3d : ndarray Z) :
  (length (shape cells3d) < 4 \/ nth 1 (shape cells3d) 0 < 2)%nat ->
  is_index_error (load cells3d) = true /\
  fst (cell_load cells3d) = [] /\
  is_index_error (snd (cell_load cells3d)) = true.
Proof.
  intros H.
  assert (Hload : exists msg, load cells3d = Raise (IndexError msg)).
  { unfold load, getitem.
    destruct (shape cells3d) as [|p [|ch [|r [|c rest]]]]; unfold All;
      cbn [getitem_shape].
    - eexists. reflexivity.
    - rewrite slice_all_indices. eexists. reflexivity.
    - rewrite slice_all_indices. cbn [bind].
      unfold norm_index. destruct (_ && _); [eexists; reflexivity|].
      destruct (_ && _); eexists; reflexivity.
    - rewrite !slice_all_indices. cbn [bind].
      unfold norm_index. destruct (_ && _); [eexists; reflexivity|].
      destruct (_ && _); eexists; reflexivity.
    - assert (Hch : (ch < 2)%nat) by (destruct H as [H|H]; simpl in H; lia).
      rewrite slice_all_indices. cbn [bind]. unfold norm_index.
      replace ((0 <=? 1)%Z && (1 <? Z.of_nat ch)%Z) with false
        by (symmetry; apply andb_false_iff; right; apply Z.ltb_ge; lia).
      replace ((- Z.of_nat ch <=? 1)%Z && (1 <? 0)%Z) with false
        by (symmetry; apply andb_false_iff; right; reflexivity).
      eexists. reflexivity. }
  destruct Hload as [msg Hload]. unfold cell_load. rewrite Hload.
  repeat split.
Qed.

Lemma load_without_channel_witness :
  is_index_error (load (mk_ndarray [2; 1; 1; 2]%nat [1; 2; 3; 4]%Z)) = true.
Proof.
  apply (load_without_channel (mk_ndarray [2; 1; 1; 2]%nat [1; 2; 3; 4]%Z)).
  right. simpl. lia.
Defined.

Lemma Qmin_choice (x y : Q) : Qmin x y = x \/ Qmin x y = y.
Proof.
  unfold Qmin, GenericMinMax.gmin. destruct (x ?= y); auto.
Qed.

Lemma Qmax_choice (x y : Q) : Qmax x y = x \/ Qmax x y = y.
Proof.
  unfold Qmax, GenericMinMax.gmax. destruct (x ?= y); auto.
Qed.

Lemma fold_left_Qmin_In (xs : list Q) :
  forall m, In (fold_left Qmin xs m) (m :: xs).
Proof.
  induction xs as [|z xs IH]; intros m; [now left|].
  cbn [fold_left]. destruct (IH (Qmin m z)) as [H|H].
  - rewrite <- H. destruct (Qmin_choice m z) as [-> | ->];
      [now left|right; now left].
  - right. now right.
Qed.

Lemma fold_left_Qmax_In (xs : list Q) :
  forall m, In (fold_left Qmax xs m) (m :: xs).
Proof.
  induction xs as [|z xs IH]; intros m; [now left|].
  cbn [fold_left]. destruct (IH (Qmax m z)) as [H|H].
  - rewrite <- H. destruct (Qmax_choice m z) as [-> | ->];
      [now left|right; now left].
  - right. now right.
Qed.

(** [a.min()] is a pixel of the array, below all others; [a.max()] is a
    pixel above all others. *)
Lemma amin_spec (a : ndarray Q) (m : Q) :
  amin a = Ok m -> In m (flat a) /\ forall x, In x (flat a) -> m <= x.
Proof.
  unfold amin. destruct (flat a) as [|x0 xs]; [discriminate|].
  intros H. apply Ok_inj in H. subst m. split.
  - apply fold_left_Qmin_In.
  - destruct (fold_left_Qmin_le xs x0) as [H1 H2].
    intros x [<-|Hx]; auto.
Qed.

Lemma amax_spec (a : ndarray Q) (m : Q) :
  amax a = Ok m -> In m (flat a) /\ forall x, In x (flat a) -> x <= m.
Proof.
  unfold amax. destruct (flat a) as [|x0 xs]; [discriminate|].
  intros H. apply Ok_inj in H. subst m. split.
  - apply fold_left_Qmax_In.
  - destruct (fold_left_Qmax_ge xs x0) as [H1 H2].
    intros x [<-|Hx]; auto.
Qed.

(** X2.  Once the volume is loaded, cell 4 completes exactly when the volume
    has pixels.  Without pixels it prints the shape and the type and then
    stops with the [ValueError] of [data.min()].  With pixels it returns the
    volume, and the range it prints is the true one: both ends are pixels of
    the volume and every pixel lies between them. *)
Theorem cell_load_range (cells3d : ndarray Z) (data : ndarray Q) :
  load cells3d = Ok data ->
  (flat data = [] ->
   cell_load cells3d =
     ([Print ("shape: " ++ repr_shape (shape data)); Print "dtype: float64"],
      Raise (ValueError
        "zero-size array to reduction operation minimum which has no identity"))) /\
  (flat data <> [] ->
   exists lo hi,
     snd (cell_load cells3d) = Ok data /\
     In (PrintRange lo hi) (fst (cell_load cells3d)) /\
     In lo (flat data) /\ In hi (flat data) /\
     forall x, In x (flat data) -> lo <= x <= hi).
Proof.
  intros Hload. unfold cell_load. rewrite Hload, pbind_lift_ok, !pbind_emit.
  split.
  - intros E. unfold amin. rewrite E. reflexivity.
  - intros Hne.
    destruct (amin_nonempty data Hne) as [lo Hlo].
    destruct (amax_nonempty data Hne) as [hi Hhi].
    rewrite Hlo, pbind_lift_ok, Hhi, pbind_lift_ok.
    destruct (amin_spec data lo Hlo) as [Hin1 Hle1].
    destruct (amax_spec data hi Hhi) as [Hin2 Hle2].
    exists lo, hi. split; [reflexivity|]. split.
    + cbn. right. right. now left.
    + repeat split; auto.
Qed.

Lemma cell_load_range_witness :
  snd (cell_load (mk_ndarray [2; 2; 1; 2]%nat [1; 2; 3; 4; 5; 6; 7; 8]%Z))
  = Ok (img_as_float (mk_ndarray [2; 1; 2]%nat [3; 4; 7; 8]%Z)).
Proof.
  destruct (proj2 (cell_load_range
                     (mk_ndarray [2; 2; 1; 2]%nat [1; 2; 3; 4; 5; 6; 7; 8]%Z)
                     (img_as_float (mk_ndarray [2; 1; 2]%nat [3; 4; 7; 8]%Z))
                     eq_refl))
    as [lo [hi [H _]]]; [discriminate|exact H].
Defined.

(** ** Cell 8: the three views *)

Lemma show_plane_titled (ax : nat) (plane : ndarray Q) (cmap title : string) :
  valid_image_shape (shape plane) = true -> title <> ""%string ->
  show_plane ax plane cmap (Some title)
  = ([Imshow ax plane cmap None None; AxisOff ax; SetTitle ax title], Ok tt).
Proof.
  intros Hv Ht. unfold show_plane, ax_imshow. rewrite Hv.
  apply String.eqb_neq in Ht. rewrite Ht. reflexivity.
Qed.

Lemma pbind_done {A B} (t : list event) (a : A) (k : A -> plot B) :
  pbind (t, Ok a) k = (t ++ fst (k a), snd (k a)).
Proof. reflexivity. Qed.

Lemma index_middle (n : nat) :
  (0 < n)%nat -> norm_index n (Z.of_nat (n / 2)) = Ok (n / 2)%nat.
Proof.
  intros H. rewrite norm_index_in_range.
  - now rewrite Nat2Z.id.
  - assert (n / 2 < n)%nat by (apply Nat.div_lt; lia). lia.
Qed.

Lemma index_empty_axis (i : Z) :
  exists msg, norm_index 0 i = Raise (IndexError msg).
Proof.
  unfold norm_index. change (Z.of_nat 0) with 0%Z. change (- 0)%Z with 0%Z.
  destruct (0 <=? i)%Z eqn:E1; destruct (i <? 0)%Z eqn:E2; cbn [andb];
    try (eexists; reflexivity).
  apply Z.leb_le in E1. apply Z.ltb_lt in E2. lia.
Qed.

(** X3.  Cell 8 on a volume of shape (n_plane, n_row, n_col).  When no axis
    is empty, the cell completes and shows three images, of shapes
    (n_row, n_col), (n_plane, n_col) and (n_plane, n_row), the first being
    the plane in the middle of the volume.  When the volume has no plane,
    the middle plane does not exist: the cell ends in [IndexError] and has
    shown nothing. *)
Theorem cell_views_axes (data : ndarray Q) (n_plane n_row n_col : nat) :
  shape data = [n_plane; n_row; n_col] ->
  ((0 < n_plane /\ 0 < n_row /\ 0 < n_col)%nat ->
   snd (cell_views data) = Ok tt /\
   map (fun s => shape (snd s)) (shown (fst (cell_views data)))
   = [[n_row; n_col]; [n_plane; n_col]; [n_plane; n_row]] /\
   nth_error (shown (fst (cell_views data))) 0
   = Some (0%nat, plane_at data (n_plane / 2))) /\
  (n_plane = 0%nat ->
   is_index_error (snd (cell_views data)) = true /\
   shown (fst (cell_views data)) = []).
Proof.
  intros Hsh. unfold cell_views. rewrite Hsh. rewrite pbind_emit.
  cbn [fst snd].
  assert (Hgeta : forall j, norm_index n_plane (Z.of_nat (n_plane / 2)) = Ok j ->
            getitem data [Idx (Z.of_nat (n_plane / 2))]
            = Ok (mk_ndarray [n_row; n_col]
                    (nth j (chunks (size [n_row; n_col]) n_plane (flat data)) []))).
  { intros j Hj. unfold getitem. rewrite Hsh. cbn [getitem_shape getitem_flat].
    rewrite Hj. reflexivity. }
  assert (Hgetb : forall j, norm_index n_row (Z.of_nat (n_row / 2)) = Ok j ->
            exists fb, getitem data [All; Idx (Z.of_nat (n_row / 2)); All]
                       = Ok (mk_ndarray [n_plane; n_col] fb)).
  { intros j Hj. unfold getitem. rewrite Hsh. unfold All.
    cbn [getitem_shape]. rewrite !slice_all_indices, Hj. cbn [bind].
    rewrite !length_seq. eexists. reflexivity. }
  assert (Hgetc : forall j, norm_index n_col (Z.of_nat (n_col / 2)) = Ok j ->
            exists fc, getitem data [All; All; Idx (Z.of_nat (n_col / 2))]
                       = Ok (mk_ndarray [n_plane; n_row] fc)).
  { intros j Hj. unfold getitem. rewrite Hsh. unfold All.
    cbn [getitem_shape]. rewrite !slice_all_indices, Hj. cbn [bind].
    rewrite !length_seq. eexists. reflexivity. }
  assert (Hraise : forall (ix : list index) msg,
            getitem_shape (shape data) ix = Raise (IndexError msg) ->
            getitem data ix = Raise (IndexError msg)).
  { intros ix msg H. unfold getitem. now rewrite H. }
  assert (Htitle : forall (label digits : string) (c0 : ascii) (rest : string),
            label = String c0 rest -> (label ++ digits)%string <> ""%string).
  { intros label digits c0 rest ->. discriminate. }
  split.
  - intros [Hp [Hr Hc]].
    rewrite (Hgeta _ (index_middle n_plane Hp)).
    destruct (Hgetb _ (index_middle n_row Hr)) as [fb Hb].
    destruct (Hgetc _ (index_middle n_col Hc)) as [fc Hcc].
    rewrite Hb, Hcc, !pbind_lift_ok.
    rewrite !show_plane_titled
      by (reflexivity || (eapply Htitle; reflexivity)).
    cbn [pbind fst snd app shown map nth_error].
    unfold plane_at. rewrite Hsh. repeat split.
  - intros ->.
    destruct (index_empty_axis (Z.of_nat (0 / 2))) as [msg Hm].
    rewrite (Hraise [Idx (Z.of_nat (0 / 2))] msg);
      [split; reflexivity|rewrite Hsh; cbn [getitem_shape]; now rewrite Hm].
Qed.

Lemma cell_views_axes_witness :
  snd (cell_views (mk_ndarray [2; 1; 2]%nat [0; 1 # 2; 1 # 4; 1])) = Ok tt.
Proof.
  apply (proj1 (cell_views_axes (mk_ndarray [2; 1; 2]%nat [0; 1 # 2; 1 # 4; 1])
                  2 1 2 eq_refl)).
  repeat split; lia.
Defined.

(** ** Cell 10: more about [display] *)

Lemma iter_same_shape {A} (a : ndarray A) (images : list (ndarray A)) :
  iter a = Ok images ->
  forall image, In image images -> shape image = tl (shape a).
Proof.
  unfold iter. destruct (shape a) as [|n sh]; [discriminate|].
  intros H. apply Ok_inj in H. subst images.
  intros image Hin. apply in_map_iff in Hin as [xs [<- _]]. reflexivity.
Qed.

Lemma for_each_refused (cmap : string) (vmin vmax : Q)
    (p : nat * ndarray Q) (l : list (nat * ndarray Q)) :
  valid_image_shape (shape (snd p)) = false ->
  for_each (p :: l)
    (fun p =>
       ax_imshow (fst p) (snd p) cmap (Some vmin) (Some vmax) ;;;
       emit (SetXticks (fst p) []) ;;;
       emit (SetYticks (fst p) []))
  = ([], Raise (TypeError
       ("Invalid shape " ++ repr_shape (shape (snd p)) ++ " for image data"))).
Proof.
  intros H. cbn [for_each]. unfold ax_imshow. rewrite H. reflexivity.
Qed.

(** X4.  [display] draws all it can or nothing: when it ends in an
    exception, whatever the volume and the step, it has created the grid and
    has drawn no plane. *)
Theorem display_all_or_nothing (im3d : ndarray Q) (cmap : string) (step : Z)
    (e : exn) :
  snd (display im3d cmap step) = Raise e ->
  fst (display im3d cmap step) = [Subplots 5 6].
Proof.
  unfold display.
  change (plt_subplots 5 6)
    with (([Subplots 5 6], Ok (mk_ndarray [5; 6]%nat (seq 0 30))) : plot (ndarray nat)).
  rewrite pbind_done. cbn [fst snd].
  destruct (amin im3d) as [vmin|e1]; [|reflexivity].
  rewrite pbind_lift_ok.
  destruct (amax im3d) as [vmax|e2]; [|reflexivity].
  rewrite pbind_lift_ok.
  destruct (getitem im3d [Slice step]) as [sel|e3]; [|reflexivity].
  rewrite pbind_lift_ok.
  destruct (iter sel) as [images|e4] eqn:Eit; [|reflexivity].
  rewrite pbind_lift_ok. cbn [ravel flat].
  pose proof (iter_same_shape sel images Eit) as Hshape.
  destruct (valid_image_shape (tl (shape sel))) eqn:Ev.
  - rewrite for_each_drawn; [discriminate|].
    apply Forall_forall. intros [ax image] Hin. apply in_combine_r in Hin.
    cbn [snd]. now rewrite (Hshape image Hin).
  - destruct (combine (seq 0 30) images) as [|p l] eqn:Ec; [discriminate|].
    rewrite for_each_refused; [reflexivity|].
    assert (Hin : In p (combine (seq 0 30) images)) by (rewrite Ec; now left).
    destruct p as [ax image]. apply in_combine_r in Hin. cbn [snd].
    now rewrite (Hshape image Hin).
Qed.

Lemma display_all_or_nothing_witness :
  fst (display (mk_ndarray [2; 2]%nat [0; 1 # 2; 1 # 4; 1]) "gray" 2)
  = [Subplots 5 6].
Proof.
  apply (display_all_or_nothing (mk_ndarray [2; 2]%nat [0; 1 # 2; 1 # 4; 1])
           "gray" 2
           (TypeError "Invalid shape (2,) for image data")).
  reflexivity.
Defined.

(** X5.  Which exception [display] ends in.  On a volume without pixels it
    is the [ValueError] of [im3d.min()], whatever the step; on an array with
    pixels and a step of zero it is the [ValueError] of the slice; and on a
    2-D image with pixels, whose "planes" are its rows, it is the
    [TypeError] of matplotlib, naming the shape of one row. *)
Theorem display_exceptions (im3d : ndarray Q) (cmap : string) (step : Z) :
  (flat im3d = [] ->
   snd (display im3d cmap step) = Raise (ValueError
     "zero-size array to reduction operation minimum which has no identity")) /\
  (flat im3d <> [] -> shape im3d <> [] -> step = 0%Z ->
   snd (display im3d cmap step)
   = Raise (ValueError "slice step cannot be zero")) /\
  (forall n_row n_col,
     flat im3d <> [] -> shape im3d = [n_row; n_col] -> (0 < n_row)%nat ->
     step <> 0%Z ->
     snd (display im3d cmap step) = Raise (TypeError
       ("Invalid shape " ++ repr_shape [n_col] ++ " for image data"))).
Proof.
  unfold display.
  change (plt_subplots 5 6)
    with (([Subplots 5 6], Ok (mk_ndarray [5; 6]%nat (seq 0 30))) : plot (ndarray nat)).
  rewrite pbind_done. cbn [fst snd].
  split; [|split].
  - intros E. unfold amin. rewrite E. reflexivity.
  - intros Hne Hsh ->.
    destruct (amin_nonempty im3d Hne) as [vmin Hmin].
    destruct (amax_nonempty im3d Hne) as [vmax Hmax].
    rewrite Hmin, pbind_lift_ok, Hmax, pbind_lift_ok.
    unfold getitem. destruct (shape im3d) as [|n sh]; [congruence|].
    reflexivity.
  - intros n_row n_col Hne Hsh Hrow Hstep.
    destruct (amin_nonempty im3d Hne) as [vmin Hmin].
    destruct (amax_nonempty im3d Hne) as [vmax Hmax].
    rewrite Hmin, pbind_lift_ok, Hmax, pbind_lift_ok.
    destruct (slice_indices_nonzero n_row step Hstep) as [js Hjs].
    assert (Hjs0 : js <> []).
    { unfold slice_indices in Hjs.
      apply Z.eqb_neq in Hstep. rewrite Hstep in Hjs. apply Z.eqb_neq in Hstep.
      assert (Hc : forall m, (0 < m)%nat -> (0 < ceil_div n_row m)%nat).
      { intros m Hm. unfold ceil_div.
        apply Nat.div_str_pos. lia. }
      destruct (0 <? step)%Z eqn:Epos; apply Ok_inj in Hjs; subst js.
      - apply Z.ltb_lt in Epos.
        specialize (Hc (Z.to_nat step) ltac:(lia)).
        destruct (ceil_div n_row (Z.to_nat step)); [lia|discriminate].
      - apply Z.ltb_ge in Epos.
        specialize (Hc (Z.to_nat (- step)) ltac:(lia)).
        destruct (ceil_div n_row (Z.to_nat (- step))); [lia|discriminate]. }
    unfold getitem. rewrite Hsh. cbn [getitem_shape getitem_flat].
    rewrite Hjs. cbn [bind]. rewrite pbind_lift_ok.
    unfold iter. cbn [shape flat]. rewrite pbind_lift_ok. cbn [ravel flat].
    destruct js as [|j js]; [congruence|].
    cbn [length chunks map seq combine].
    rewrite for_each_refused; reflexivity.
Qed.

Lemma display_exceptions_witness :
  snd (display (mk_ndarray [2; 2]%nat [0; 1 # 2; 1 # 4; 1]) "gray" 2)
  = Raise (TypeError "Invalid shape (2,) for image data").
Proof.
  apply (proj2 (proj2 (display_exceptions
                         (mk_ndarray [2; 2]%nat [0; 1 # 2; 1 # 4; 1]) "gray" 2))
           2%nat 2%nat); try discriminate; try reflexivity. lia.
Defined.

Lemma slice_indices_backward (n : nat) (step : Z) :
  (step < 0)%Z ->
  slice_indices n step
  = Ok (map (fun k => n - 1 - k * Z.to_nat (- step))%nat
            (seq 0 (ceil_div n (Z.to_nat (- step))))).
Proof.
  intros H. unfold slice_indices.
  replace (step =? 0)%Z with false by (symmetry; apply Z.eqb_neq; lia).
  replace (0 <? step)%Z with false by (symmetry; apply Z.ltb_ge; lia).
  reflexivity.
Qed.

Lemma slice_indices_forward (n : nat) (step : Z) :
  (0 < step)%Z ->
  slice_indices n step
  = Ok (map (fun k => k * Z.to_nat step)%nat
            (seq 0 (ceil_div n (Z.to_nat step)))).
Proof.
  intros H. unfold slice_indices.
  replace (step =? 0)%Z with false by (symmetry; apply Z.eqb_neq; lia).
  replace (0 <? step)%Z with true by (symmetry; apply Z.ltb_lt; lia).
  reflexivity.
Qed.

(** X6.  [display] with a negative step on a volume with pixels: the planes
    are taken from the last one backwards, [n_plane - 1],
    [n_plane - 1 - |step|], ..., and the first
    [min(30, ceil(n_plane / |step|))] of them are shown, in that order, on
    the first subplots. *)
Theorem display_backwards (im3d : ndarray Q) (cmap : string) (step : Z)
    (p r c : nat) :
  shape im3d = [p; r; c] -> wf im3d -> flat im3d <> [] -> (step < 0)%Z ->
  let t := fst (display im3d cmap step) in
  let n := ceil_div p (Z.to_nat (- step)) in
  snd (display im3d cmap step) = Ok tt /\
  map fst (shown t) = seq 0 (Nat.min 30 n) /\
  map snd (shown t) =
    firstn 30 (map (fun k => plane_at im3d (p - 1 - k * Z.to_nat (- step)))
                   (seq 0 n)).
Proof.
  intros Hsh Hwf Hne Hstep t n.
  destruct (amin_nonempty im3d Hne) as [vmin Hmin].
  destruct (amax_nonempty im3d Hne) as [vmax Hmax].
  pose proof (display_run im3d cmap step p r c vmin vmax _
                Hsh Hwf Hmin Hmax (slice_indices_backward p step Hstep)) as Hrun.
  assert (Hshown : shown t =
            combine (seq 0 30)
              (map (plane_at im3d)
                 (map (fun k => p - 1 - k * Z.to_nat (- step))%nat (seq 0 n)))).
  { unfold t. rewrite Hrun. cbn [fst shown]. apply shown_drawn. }
  split; [now rewrite Hrun|]. split.
  - rewrite Hshown, map_fst_combine, !length_map, length_seq, firstn_seq.
    f_equal. lia.
  - rewrite Hshown, map_snd_combine, length_seq, map_map. reflexivity.
Qed.

Lemma display_backwards_witness :
  map snd (shown (fst (display
     (mk_ndarray [3; 1; 2]%nat [0; 1 # 2; 1 # 4; 1; 1 # 8; 3 # 4]) "gray" (-2))))
  = [mk_ndarray [1; 2]%nat [1 # 8; 3 # 4]; mk_ndarray [1; 2]%nat [0; 1 # 2]].
Proof.
  apply (display_backwards
           (mk_ndarray [3; 1; 2]%nat [0; 1 # 2; 1 # 4; 1; 1 # 8; 3 # 4])
           "gray" (-2) 3 1 2 eq_refl eq_refl); [discriminate|reflexivity].
Defined.

(** X7.  The bounds [display] shares between its subplots are the darkest
    and the brightest pixel of the whole volume, so every pixel of every
    plane it shows lies between them: no plane is drawn with values outside
    the colour scale. *)
Theorem display_bounds_cover (im3d : ndarray Q) (cmap : string) (step : Z)
    (p r c : nat) :
  shape im3d = [p; r; c] -> wf im3d -> flat im3d <> [] -> step <> 0%Z ->
  exists vmin vmax,
    In vmin (flat im3d) /\ In vmax (flat im3d) /\
    (forall b, In b (bounds_used (fst (display im3d cmap step))) ->
               b = (Some vmin, Some vmax)) /\
    forall ax image x,
      In (ax, image) (shown (fst (display im3d cmap step))) ->
      In x (flat image) -> vmin <= x <= vmax.
Proof.
  intros Hsh Hwf Hne Hstep.
  destruct (amin_nonempty im3d Hne) as [vmin Hmin].
  destruct (amax_nonempty im3d Hne) as [vmax Hmax].
  destruct (slice_indices_nonzero p step Hstep) as [js Hjs].
  pose proof (display_run im3d cmap step p r c vmin vmax js
                Hsh Hwf Hmin Hmax Hjs) as Hrun.
  destruct (amin_spec im3d vmin Hmin) as [Hin1 Hle1].
  destruct (amax_spec im3d vmax Hmax) as [Hin2 Hle2].
  exists vmin, vmax. rewrite Hrun. cbn [fst shown bounds_used].
  rewrite shown_drawn, bounds_drawn.
  split; [exact Hin1|]. split; [exact Hin2|]. split.
  - intros b Hb. apply in_map_iff in Hb as [q [<- _]]. reflexivity.
  - intros ax image x Hin Hx. apply in_combine_r in Hin.
    apply in_map_iff in Hin as [j [<- _]].
    unfold plane_at in Hx. cbn [flat] in Hx. apply In_chunk in Hx.
    split; auto.
Qed.

Lemma display_bounds_cover_witness :
  exists vmin vmax,
    In vmin [0; 1 # 2; 1 # 4; 1] /\ In vmax [0; 1 # 2; 1 # 4; 1] /\
    forall b,
      In b (bounds_used (fst (display
              (mk_ndarray [2; 1; 2]%nat [0; 1 # 2; 1 # 4; 1]) "gray" 2))) ->
      b = (Some vmin, Some vmax).
Proof.
  destruct (display_bounds_cover (mk_ndarray [2; 1; 2]%nat [0; 1 # 2; 1 # 4; 1])
              "gray" 2 2 1 2 eq_refl eq_refl)
    as [vmin [vmax [H1 [H2 [H3 _]]]]]; try discriminate.
  exists vmin, vmax. auto.
Defined.

Lemma ceil_div_fits (p s k : nat) :
  (0 < s)%nat -> (p <= k * s)%nat -> (ceil_div p s <= k)%nat.
Proof.
  intros Hs Hp. unfold ceil_div.
  assert ((p + s - 1) / s < S k)%nat; [|lia].
  apply Nat.Div0.div_lt_upper_bound. simpl. nia.
Qed.

(** X8.  When the volume has at most [30 * step] planes, [display] drops
    none: every plane of [im3d[::step]] is shown, in order.  With the
    default step and 60 planes, as in the notebook, the 30 planes 0, 2, ...,
    58 fill the grid exactly. *)
Theorem display_shows_all (im3d : ndarray Q) (cmap : string) (step : Z)
    (p r c : nat) :
  shape im3d = [p; r; c] -> wf im3d -> flat im3d <> [] -> (0 < step)%Z ->
  (p <= 30 * Z.to_nat step)%nat ->
  (exists planes,
     selected im3d step = Ok planes /\
     map snd (shown (fst (display im3d cmap step))) = planes) /\
  (p = 60%nat -> step = default_step ->
   map fst (shown (fst (display im3d cmap step))) = seq 0 30 /\
   map snd (shown (fst (display im3d cmap step)))
   = map (fun k => plane_at im3d (2 * k)) (seq 0 30)).
Proof.
  intros Hsh Hwf Hne Hstep Hfit.
  destruct (amin_nonempty im3d Hne) as [vmin Hmin].
  destruct (amax_nonempty im3d Hne) as [vmax Hmax].
  pose proof (slice_indices_forward p step Hstep) as Hjs.
  pose proof (display_run im3d cmap step p r c vmin vmax _
                Hsh Hwf Hmin Hmax Hjs) as Hrun.
  pose proof (selected_planes im3d step p r c _ Hsh Hwf Hjs) as Hsel.
  assert (Hn : (ceil_div p (Z.to_nat step) <= 30)%nat)
    by (apply ceil_div_fits; lia).
  rewrite Hrun. cbn [fst shown]. rewrite shown_drawn.
  split.
  - eexists. split; [exact Hsel|].
    rewrite map_snd_combine, length_seq.
    apply firstn_all2. rewrite !length_map, length_seq. exact Hn.
  - intros -> ->. unfold default_step. change (Z.to_nat 2) with 2%nat.
    change (ceil_div 60 2) with 30%nat. split.
    + rewrite map_fst_combine, !length_map, length_seq. reflexivity.
    + rewrite map_snd_combine, length_seq, firstn_all2
        by (rewrite !length_map, length_seq; lia).
      rewrite map_map. apply map_ext. intros k. f_equal. lia.
Qed.

Lemma display_shows_all_witness :
  exists planes,
    selected (mk_ndarray [3; 1; 2]%nat [0; 1 # 2; 1 # 4; 1; 1 # 8; 3 # 4]) 2
    = Ok planes /\
    map snd (shown (fst (display
       (mk_ndarray [3; 1; 2]%nat [0; 1 # 2; 1 # 4; 1; 1 # 8; 3 # 4]) "gray" 2)))
    = planes.
Proof.
  apply (display_shows_all
           (mk_ndarray [3; 1; 2]%nat [0; 1 # 2; 1 # 4; 1; 1 # 8; 3 # 4])
           "gray" 2 3 1 2 eq_refl eq_refl); try discriminate; try reflexivity.
  simpl. lia.
Defined.

(** ** Cell 12: more about [slice_in_3D] and [explore_slices] *)

Lemma pbind_pret {A} (m : plot A) : pbind m (fun _ => pret tt) = (fst m, match snd m with Ok _ => Ok tt | Raise e => Raise e end).
Proof.
  unfold pbind, pret. destruct (snd m); cbn [fst snd]; [|reflexivity].
  now rewrite app_nil_r.
Qed.

(** X9.  [explore_slices] on an array without planes draws nothing: for a
    first axis of length 0 the slider cannot be built and the call ends in
    [ValueError]; for an array without axes [len(data)] ends in
    [TypeError]. *)
Theorem explore_slices_no_planes (global_shape : list nat) (data : ndarray Q)
    (cmap : string) (moves : list Z) :
  (forall sh, shape data = 0%nat :: sh ->
     exists msg,
       explore_slices global_shape data cmap moves
       = ([], Raise (ValueError msg))) /\
  (shape data = [] ->
     explore_slices global_shape data cmap moves
     = ([], Raise (TypeError "len() of unsized object"))).
Proof.
  split.
  - intros sh Hsh. unfold explore_slices, len. rewrite Hsh.
    rewrite pbind_lift_ok. eexists. reflexivity.
  - intros Hsh. unfold explore_slices, len. rewrite Hsh. reflexivity.
Qed.

Lemma explore_slices_no_planes_witness :
  exists msg,
    explore_slices [60; 256; 256]%nat (mk_ndarray [0; 2; 2]%nat []) "gray" [3%Z]
    = ([], Raise (ValueError msg)).
Proof.
  exact (proj1 (explore_slices_no_planes [60; 256; 256]%nat
                  (mk_ndarray [0; 2; 2]%nat []) "gray" [3%Z])
           [2; 2]%nat eq_refl).
Defined.

Lemma interact_slider_start (N : nat) :
  (1 <= N)%nat ->
  interact_slider 0 (Z.of_nat N - 1) 34
  = Ok (mk_slider 0 (Z.of_nat N - 1) (Z.min 34 (Z.of_nat N - 1))).
Proof.
  intros HN. unfold interact_slider, widget_from_tuple.
  set (value := (0 + (Z.of_nat N - 1 - 0) / 2)%Z).
  assert (Hv : (0 <= value <= Z.of_nat N - 1)%Z).
  { unfold value. rewrite Z.sub_0_r, Z.add_0_l. split.
    - apply Z.div_pos; lia.
    - apply Z.div_le_upper_bound; lia. }
  replace ((0 <=? value)%Z && (value <=? Z.of_nat N - 1)%Z) with true
    by (symmetry; apply andb_true_intro; split; apply Z.leb_le; lia).
  cbn [bind]. unfold set_value. cbn [slider_min slider_max].
  reflexivity.
Qed.

(** X10.  Where [explore_slices] opens: on a volume with [N >= 1] planes the
    slider starts at plane [min(34, N - 1)] -- plane 34 when there are at
    least 35 planes, the last plane otherwise.  Before the user touches the
    slider, the call has drawn exactly what [display_slice] draws for that
    plane, followed by the traceback when that frame raised; and whatever
    the frames do and wherever the slider is moved, [explore_slices] itself
    returns normally. *)
Theorem explore_slices_opens (global_shape : list nat) (data : ndarray Q)
    (cmap : string) (N : nat) :
  len data = Ok N -> (1 <= N)%nat ->
  let start := Z.min 34 (Z.of_nat N - 1) in
  let frame := display_slice global_shape data cmap start in
  (snd frame = Ok tt ->
   explore_slices global_shape data cmap [] = (fst frame, Ok tt)) /\
  (forall e, snd frame = Raise e ->
     explore_slices global_shape data cmap []
     = (fst frame ++ [ShowTraceback e], Ok tt)) /\
  (forall moves, snd (explore_slices global_shape data cmap moves) = Ok tt) /\
  ((35 <= N)%nat -> start = 34%Z) /\
  ((N < 35)%nat -> start = (Z.of_nat N - 1)%Z).
Proof.
  intros HN H1 start frame.
  assert (Hrun : forall moves,
             explore_slices global_shape data cmap moves
             = pbind (update frame)
                 (fun _ => follow global_shape data cmap
                             (mk_slider 0 (Z.of_nat N - 1) start) moves)).
  { intros moves. unfold explore_slices.
    rewrite HN, pbind_lift_ok, (interact_slider_start N H1), pbind_lift_ok.
    reflexivity. }
  split; [|split; [|split]].
  - intros Hf. rewrite Hrun, pbind_update. cbn [follow pret fst snd].
    unfold update. rewrite Hf. now rewrite app_nil_r.
  - intros e Hf. rewrite Hrun, pbind_update. cbn [follow pret fst snd].
    unfold update. rewrite Hf. cbn [fst]. now rewrite app_nil_r.
  - intros moves. rewrite Hrun, pbind_update. cbn [snd]. apply follow_done.
  - unfold start. split; lia.
Qed.

Lemma explore_slices_opens_witness :
  explore_slices [2; 1; 2]%nat
    (mk_ndarray [2; 1; 2]%nat [0; 1 # 2; 1 # 4; 1]) "gray" []
  = (fst (display_slice [2; 1; 2]%nat
            (mk_ndarray [2; 1; 2]%nat [0; 1 # 2; 1 # 4; 1]) "gray" 1),
     Ok tt).
Proof.
  apply (explore_slices_opens [2; 1; 2]%nat
           (mk_ndarray [2; 1; 2]%nat [0; 1 # 2; 1 # 4; 1]) "gray" 2 eq_refl).
  - lia.
  - reflexivity.
Defined.

(** A frame that raises: [slice_in_3D] cannot scale the cube by a shape of
    two lengths; the plane has been shown, the traceback follows, and
    [explore_slices] returns. *)
Example explore_slices_frame_raises :
  explore_slices [2; 2]%nat (mk_ndarray [1; 1; 2]%nat [0; 1]) "gray" []
  = ([Subplots 1 1; AddSubplot3D 133;
      Imshow 0 (mk_ndarray [1; 2]%nat [0; 1]) "gray" None None;
      AxisOff 0; SetTitle 0 "Plane 0";
      ShowTraceback (ValueError "operands could not be broadcast together")],
     Ok tt).
Proof. reflexivity. Qed.

Lemma shown_app (t1 t2 : list event) : shown (t1 ++ t2) = shown t1 ++ shown t2.
Proof.
  induction t1 as [|e t1 IH]; [reflexivity|].
  destruct e; cbn [app shown]; rewrite IH; reflexivity.
Qed.

Lemma slice_in_3D_done (global_shape : list nat) (ax : nat) (i : Z) :
  (length global_shape = 1 \/ length global_shape = 3)%nat ->
  snd (slice_in_3D global_shape ax i) = Ok tt.
Proof.
  intros H. unfold slice_in_3D.
  destruct global_shape as [|a [|b [|c [|d l]]]]; simpl in H; try lia;
    reflexivity.
Qed.

Lemma slice_in_3D_refused (global_shape : list nat) (ax : nat) (i : Z) :
  ~ (length global_shape = 1 \/ length global_shape = 3)%nat ->
  slice_in_3D global_shape ax i
  = ([], Raise (ValueError "operands could not be broadcast together")).
Proof.
  intros H. unfold slice_in_3D.
  destruct global_shape as [|a [|b [|c [|d l]]]]; simpl in H;
    try reflexivity; exfalso; apply H; auto.
Qed.

(** X11.  One frame of the explorer.  For a plane inside a volume of shape
    (p, r, c), [display_slice] shows that plane ([data[plane]]) on the first
    axes under the title "Plane <plane>"; it goes on to completion exactly
    when the global [data], whose shape [slice_in_3D] multiplies with the
    corners of the cube, has three axes (or one); otherwise it stops in
    [ValueError] after the plane is shown and before [plt.show()]. *)
Theorem display_slice_frame (global_shape : list nat) (data : ndarray Q)
    (cmap : string) (plane : Z) (p r c : nat) :
  shape data = [p; r; c] -> (0 <= plane < Z.of_nat p)%Z ->
  let run := display_slice global_shape data cmap plane in
  shown (fst run) = [(0%nat, plane_at data (Z.to_nat plane))] /\
  In (SetTitle 0 ("Plane " ++ str_Z plane)) (fst run) /\
  ((length global_shape = 1 \/ length global_shape = 3)%nat ->
   snd run = Ok tt /\ In Show (fst run)) /\
  (~ (length global_shape = 1 \/ length global_shape = 3)%nat ->
   (exists msg, snd run = Raise (ValueError msg)) /\
   ~ In Show (fst run)).
Proof.
  intros Hsh Hplane run.
  assert (Hget : getitem data [Idx plane] = Ok (plane_at data (Z.to_nat plane))).
  { unfold getitem, plane_at. rewrite Hsh. cbn [getitem_shape getitem_flat].
    rewrite norm_index_in_range by lia. reflexivity. }
  assert (Hshow : show_plane 0 (plane_at data (Z.to_nat plane)) cmap
                    (Some ("Plane " ++ str_Z plane)%string)
                  = ([Imshow 0 (plane_at data (Z.to_nat plane)) cmap None None;
                      AxisOff 0; SetTitle 0 ("Plane " ++ str_Z plane)], Ok tt)).
  { apply show_plane_titled; [|discriminate].
    unfold plane_at. rewrite Hsh. reflexivity. }
  assert (Hno : forall gs ax i,
            shown (fst (slice_in_3D gs ax i)) = [] /\
            ~ In Show (fst (slice_in_3D gs ax i))).
  { intros gs ax i. unfold slice_in_3D.
    destruct (map Z.of_nat gs) as [|a [|b [|c0 [|d l]]]]; cbn;
      split; try reflexivity; intuition discriminate. }
  unfold run, display_slice.
  rewrite !pbind_emit, Hget, pbind_lift_ok, Hshow, pbind_done.
  cbn [fst snd app shown].
  destruct (Hno global_shape 1%nat plane) as [Hs1 Hs2].
  assert (Hdec : {(length global_shape = 1 \/ length global_shape = 3)%nat}
                 + {~ (length global_shape = 1 \/ length global_shape = 3)%nat}).
  { destruct (Nat.eq_dec (length global_shape) 1); [left; now left|].
    destruct (Nat.eq_dec (length global_shape) 3); [left; now right|].
    right. intros [H|H]; contradiction. }
  destruct Hdec as [Hg|Hg].
  - pose proof (slice_in_3D_done global_shape 1 plane Hg) as Hd.
    destruct (slice_in_3D global_shape 1 plane) as [t res].
    cbn [fst snd] in Hd, Hs1, Hs2. subst res.
    rewrite pbind_done. cbn [fst snd emit].
    rewrite shown_app, Hs1. cbn [shown app].
    split; [reflexivity|]. split; [right; right; right; right; now left|].
    split; [|intros Hn; contradiction].
    intros _. split; [reflexivity|].
    do 5 right. apply in_or_app. right. now left.
  - rewrite (slice_in_3D_refused global_shape 1 plane Hg).
    cbn [pbind fst snd app shown].
    split; [reflexivity|]. split; [right; right; right; right; now left|].
    split; [intros Hy; contradiction|].
    intros _. split; [eexists; reflexivity|].
    intros [H|[H|[H|[H|[H|[]]]]]]; discriminate.
Qed.

Lemma display_slice_frame_witness :
  shown (fst (display_slice [2; 1; 2]%nat
                (mk_ndarray [2; 1; 2]%nat [0; 1 # 2; 1 # 4; 1]) "gray" 1))
  = [(0%nat, mk_ndarray [1; 2]%nat [1 # 4; 1])].
Proof.
  apply (display_slice_frame [2; 1; 2]%nat
           (mk_ndarray [2; 1; 2]%nat [0; 1 # 2; 1 # 4; 1]) "gray" 1 2 1 2
           eq_refl).
  lia.
Defined.

(** What [slice_in_3D] draws when the global volume has shape (p, r, c). *)
Lemma slice_in_3D_run (p r c ax : nat) (i : Z) :
  let P := Z.of_nat p in
  let R := Z.of_nat r in
  let C := Z.of_nat c in
  let Zs := [[0; 0; 0]; [P; 0; 0]; [P; R; 0]; [0; R; 0];
             [0; 0; C]; [P; 0; C]; [P; R; C]; [0; R; C]]%Z in
  let Zn := fun k => nth k Zs [] in
  slice_in_3D [p; r; c] ax i
  = ([Scatter3D ax Zs;
      AddCollection3D ax
        [[Zn 0; Zn 1; Zn 2; Zn 3]; [Zn 4; Zn 5; Zn 6; Zn 7];
         [Zn 0; Zn 1; Zn 5; Zn 4]; [Zn 2; Zn 3; Zn 7; Zn 6];
         [Zn 1; Zn 2; Zn 6; Zn 5]; [Zn 4; Zn 7; Zn 3; Zn 0];
         [Zn 2; Zn 3; Zn 7; Zn 6]]%nat;
      AddCollection3D ax
        [[[i; 0; 0]; [i; 0; 256]; [i; 256; 256]; [i; 256; 0]]%Z]],
     Ok tt).
Proof.
  intros P R C Zs Zn. unfold slice_in_3D.
  assert (Hs : scale_points unit_cube (map Z.of_nat [p; r; c]) = Ok Zs).
  { unfold scale_points, unit_cube. cbn [map combine fst snd].
    fold P R C. rewrite !Z.mul_0_l, !Z.mul_1_l. reflexivity. }
  rewrite Hs, pbind_lift_ok. reflexivity.
Qed.

(** X12.  The rectangle [slice_in_3D] draws for plane [i] has the corners
    (i, 0, 0), (i, 0, 256), (i, 256, 256), (i, 256, 0), whatever the shape
    of the volume, whereas the box drawn around it has the lengths of the
    volume: the rectangle reaches the far corner of the box in row and
    column exactly when the volume has 256 rows and 256 columns. *)
Theorem slice_rectangle_fixed (p r c ax : nat) (i : Z) :
  let run := slice_in_3D [p; r; c] ax i in
  snd run = Ok tt /\
  nth 1 (collections (fst run)) []
  = [[[i; 0; 0]; [i; 0; 256]; [i; 256; 256]; [i; 256; 0]]%Z] /\
  In [Z.of_nat p; Z.of_nat r; Z.of_nat c] (scattered (fst run)) /\
  ((exists corner, In corner (scattered (fst run)) /\
                   nth 1 corner 0%Z = 256%Z /\ nth 2 corner 0%Z = 256%Z)
   <-> (r = 256 /\ c = 256)%nat).
Proof.
  intros run. unfold run. rewrite slice_in_3D_run.
  cbn [fst snd collections scattered nth app].
  split; [reflexivity|]. split; [reflexivity|]. split.
  - do 6 right. now left.
  - split.
    + intros [corner [Hin [H1 H2]]].
      repeat (destruct Hin as [<-|Hin]; [cbn [nth] in H1, H2; try discriminate; lia|]).
      contradiction.
    + intros [-> ->]. exists [Z.of_nat p; 256; 256]%Z.
      split; [do 6 right; now left|]. split; reflexivity.
Qed.

(** X13.  The seven polygons [slice_in_3D] lists for the box are faces of the
    box of the volume: the two faces across each of the three axes are all
    there, and the face at the far end of the row axis is listed twice. *)
Theorem slice_box_faces (p r c ax : nat) (i : Z) :
  let faces := nth 0 (collections (fst (slice_in_3D [p; r; c] ax i))) [] in
  length faces = 7%nat /\
  on_plane 2 0 (nth 0 faces []) /\
  on_plane 2 (Z.of_nat c) (nth 1 faces []) /\
  on_plane 1 0 (nth 2 faces []) /\
  on_plane 1 (Z.of_nat r) (nth 3 faces []) /\
  on_plane 0 (Z.of_nat p) (nth 4 faces []) /\
  on_plane 0 0 (nth 5 faces []) /\
  nth 6 faces [] = nth 3 faces [].
Proof.
  intros faces. unfold faces. rewrite slice_in_3D_run.
  cbn [fst collections nth length].
  unfold on_plane. repeat split; repeat constructor.
Qed.

(** ** Cells 15 and 21: histograms and the cumulative distribution *)

(** Every pixel is counted in exactly one bin. *)
Lemma np_histogram_total (a : list Q) (nbins : nat) :
  nbins <> 0%nat -> list_sum (fst (np_histogram a nbins)) = length a.
Proof.
  intros Hn. unfold np_histogram.
  pose proof (hist_range_covers a) as [Hlt Hcov].
  destruct (hist_range a) as [first last]. cbn [fst snd] in *.
  apply counts_add_up. apply Forall_forall. intros x Hx.
  apply bin_index_range; auto.
Qed.

Lemma bin_edge_first (nbins : nat) (first last : Q) :
  bin_edge nbins first last 0 == first.
Proof.
  unfold bin_edge. change (inject_Z (Z.of_nat 0)) with 0. ring.
Qed.

Lemma bin_edge_last (nbins : nat) (first last : Q) :
  nbins <> 0%nat -> bin_edge nbins first last nbins == last.
Proof.
  intros Hn. unfold bin_edge.
  assert (Hne : ~ inject_Z (Z.of_nat nbins) == 0).
  { intros H. unfold Qeq in H. simpl in H. lia. }
  revert Hne. generalize (inject_Z (Z.of_nat nbins)). intros N HN.
  field. exact HN.
Qed.

Lemma nth_map_seq {A} (f : nat -> A) (n k : nat) (d : A) :
  (k < n)%nat -> nth k (map f (seq 0 n)) d = f k.
Proof.
  intros H. rewrite (nth_indep _ d (f 0%nat)) by (now rewrite length_map, length_seq).
  rewrite map_nth, seq_nth by exact H. reflexivity.
Qed.

(** X14.  The histogram [plot_hist] draws has 256 bars between 257 edges;
    the bars count every pixel exactly once, so their heights add up to the
    number of pixels; the first edge is the darkest pixel's side and the
    last edge the brightest pixel's side: every pixel lies between them.
    The title is set only when one is given that is not empty. *)
Theorem plot_hist_counts (ax : nat) (data : ndarray Q) (title : option string) :
  exists counts edges rest,
    plot_hist ax data title = Hist ax counts edges :: TickLabelFormat ax :: rest /\
    length counts = 256%nat /\ length edges = 257%nat /\
    list_sum counts = length (flat data) /\
    (forall x, In x (flat data) -> nth 0 edges 0 <= x <= nth 256 edges 0) /\
    (rest = [] <-> title = None \/ title = Some ""%string) /\
    (forall t, title = Some t -> t <> ""%string -> rest = [HistTitle ax t]).
Proof.
  unfold plot_hist. cbn [ravel flat].
  pose proof (np_histogram_total (flat data) 256 ltac:(discriminate)) as Htot.
  unfold np_histogram in *.
  pose proof (hist_range_covers (flat data)) as [Hlt Hcov].
  destruct (hist_range (flat data)) as [first last]. cbn [fst snd] in *.
  eexists _, _, _. split; [reflexivity|].
  split; [now rewrite length_map, length_seq|].
  split; [now rewrite length_map, length_seq|].
  split; [exact Htot|]. split; [|split].
  - intros x Hx.
    rewrite !nth_map_seq by lia.
    rewrite bin_edge_first, bin_edge_last by discriminate. now apply Hcov.
  - destruct title as [t|].
    + destruct (String.eqb t "") eqn:E.
      * apply String.eqb_eq in E. subst t. split; auto.
      * apply String.eqb_neq in E. split; [discriminate|].
        intros [H|H]; [discriminate|]. congruence.
    + split; auto.
  - intros t -> Ht. apply String.eqb_neq in Ht. now rewrite Ht.
Qed.

Lemma cumsum_from_sorted (l : list nat) :
  forall acc,
    StronglySorted le (cumsum_from acc l) /\
    Forall (fun c => acc <= c)%nat (cumsum_from acc l).
Proof.
  induction l as [|x l IH]; intros acc; cbn [cumsum_from].
  - split; constructor.
  - destruct (IH (acc + x)%nat) as [H1 H2]. split.
    + constructor; [exact H1|].
      eapply Forall_impl; [|exact H2]. intros c Hc. exact Hc.
    + constructor; [lia|].
      eapply Forall_impl; [|exact H2]. intros c Hc. simpl in Hc. lia.
Qed.

Lemma sorted_map_ratio (total : Q) (l : list nat) :
  0 <= total -> StronglySorted le l ->
  StronglySorted Qle (map (fun c => inject_Z (Z.of_nat c) / total) l).
Proof.
  intros Ht. induction 1 as [|c l Hl IH Hc]; cbn [map]; constructor.
  - exact IH.
  - apply Forall_forall. intros y Hy. apply in_map_iff in Hy as [c' [<- Hc']].
    rewrite Forall_forall in Hc. specialize (Hc c' Hc').
    unfold Qdiv. apply Qmult_le_compat_r.
    + rewrite <- Zle_Qle. lia.
    + now apply Qinv_le_0_compat.
Qed.

Lemma edges_paired (E : nat -> Q) (n : nat) :
  forall a,
    combine (removelast (map E (seq a (S n)))) (tl (map E (seq a (S n))))
    = map (fun k => (E k, E (S k))) (seq a n).
Proof.
  induction n as [|n IH]; intros a; [reflexivity|].
  change (seq a (S (S n))) with (a :: seq (S a) (S n)).
  cbn [map tl].
  change (map E (seq (S a) (S n))) with (E (S a) :: map E (seq (S (S a)) n)).
  change (removelast (E a :: E (S a) :: map E (seq (S (S a)) n)))
    with (E a :: removelast (E (S a) :: map E (seq (S (S a)) n))).
  cbn [combine seq map]. f_equal.
  specialize (IH (S a)).
  change (seq (S a) (S n)) with (S a :: seq (S (S a)) n) in IH.
  cbn [map tl] in IH. exact IH.
Qed.

Lemma sorted_map_seq (f : nat -> Q) (n : nat) :
  (forall i j, (i < j)%nat -> f i < f j) ->
  forall a, StronglySorted Qlt (map f (seq a n)).
Proof.
  intros Hf. induction n as [|n IH]; intros a; cbn [seq map]; constructor.
  - apply IH.
  - apply Forall_forall. intros y Hy. apply in_map_iff in Hy as [k [<- Hk]].
    apply in_seq in Hk. apply Hf. lia.
Qed.

Lemma bin_centers_eq (image : list Q) (nbins : nat) :
  snd (Exposure.cumulative_distribution image nbins)
  = map (fun k => (bin_edge nbins (fst (hist_range image)) (snd (hist_range image)) k
                   + bin_edge nbins (fst (hist_range image)) (snd (hist_range image)) (S k))
                  / 2)
        (seq 0 nbins).
Proof.
  unfold Exposure.cumulative_distribution, Exposure.histogram, np_histogram.
  destruct (hist_range image) as [first last]. cbn [fst snd].
  rewrite edges_paired, map_map. reflexivity.
Qed.

Lemma cdf_sorted (image : list Q) (nbins : nat) :
  StronglySorted Qle (fst (Exposure.cumulative_distribution image nbins)).
Proof.
  unfold Exposure.cumulative_distribution.
  destruct (Exposure.histogram image nbins) as [hist centers]. cbn [fst].
  apply sorted_map_ratio.
  - change 0 with (inject_Z 0). rewrite <- Zle_Qle. lia.
  - apply cumsum_from_sorted.
Qed.

Lemma bin_centers_sorted (image : list Q) (nbins : nat) :
  nbins <> 0%nat ->
  StronglySorted Qlt (snd (Exposure.cumulative_distribution image nbins)).
Proof.
  intros Hn. rewrite bin_centers_eq.
  pose proof (hist_range_covers image) as [Hlt _].
  destruct (hist_range image) as [first last]. cbn [fst snd] in *.
  apply sorted_map_seq. intros i j Hij. unfold bin_edge.
  assert (HN : 0 < inject_Z (Z.of_nat nbins))
    by (change 0 with (inject_Z 0); rewrite <- Zlt_Qlt; lia).
  assert (Hw : 0 < (last - first) / inject_Z (Z.of_nat nbins))
    by (apply Qlt_shift_div_l; lra).
  assert (Hi : inject_Z (Z.of_nat i) + 1 <= inject_Z (Z.of_nat j)).
  { change 1 with (inject_Z 1). rewrite <- inject_Z_plus, <- Zle_Qle. lia. }
  assert (Hsi : inject_Z (Z.of_nat (S i)) == inject_Z (Z.of_nat i) + 1).
  { rewrite Nat2Z.inj_succ. unfold Z.succ. now rewrite inject_Z_plus. }
  assert (Hsj : inject_Z (Z.of_nat (S j)) == inject_Z (Z.of_nat j) + 1).
  { rewrite Nat2Z.inj_succ. unfold Z.succ. now rewrite inject_Z_plus. }
  rewrite Hsi, Hsj.
  revert Hw Hi. generalize ((last - first) / inject_Z (Z.of_nat nbins)).
  generalize (inject_Z (Z.of_nat i)). generalize (inject_Z (Z.of_nat j)).
  intros qj qi w Hw Hi.
  apply Qlt_shift_div_l; [reflexivity|].
  apply Qlt_le_trans with ((first + qi * w + (first + (qi + 1) * w)) + 2 * w);
    [|nra].
  assert (Heq : (first + qi * w + (first + (qi + 1) * w)) / 2 * 2
                == first + qi * w + (first + (qi + 1) * w)) by field.
  rewrite Heq. lra.
Qed.



(** ** Cell 17: histogram equalization keeps the order of the pixels *)

Lemma slope_nonneg (f0 f1 d : Q) : f0 <= f1 -> 0 < d -> 0 <= (f1 - f0) / d.
Proof.
  intros Hf Hd. apply Qle_shift_div_l; [exact Hd|]. lra.
Qed.

Lemma segment_lower (f0 f1 d u : Q) :
  f0 <= f1 -> 0 < d -> 0 <= u -> f0 <= (f1 - f0) / d * u + f0.
Proof.
  intros Hf Hd Hu. pose proof (slope_nonneg f0 f1 d Hf Hd) as Hs.
  revert Hs. generalize ((f1 - f0) / d). intros s Hs. nra.
Qed.

Lemma segment_upper (f0 f1 d u : Q) :
  f0 <= f1 -> 0 < d -> u <= d -> (f1 - f0) / d * u + f0 <= f1.
Proof.
  intros Hf Hd Hu. pose proof (slope_nonneg f0 f1 d Hf Hd) as Hs.
  assert (Heq : (f1 - f0) / d * d == f1 - f0) by (field; lra).
  revert Hs Heq. generalize ((f1 - f0) / d). intros s Hs Heq. nra.
Qed.

Lemma segment_mono (f0 f1 d u v : Q) :
  f0 <= f1 -> 0 < d -> u <= v ->
  (f1 - f0) / d * u + f0 <= (f1 - f0) / d * v + f0.
Proof.
  intros Hf Hd Hu. pose proof (slope_nonneg f0 f1 d Hf Hd) as Hs.
  revert Hs. generalize ((f1 - f0) / d). intros s Hs. nra.
Qed.

Lemma interp_from_lower (x : Q) (pts : list (Q * Q)) :
  forall p0, rising p0 pts -> fst p0 <= x -> snd p0 <= interp_from x p0 pts.
Proof.
  induction pts as [|p1 pts IH]; intros p0 Hr Hx; cbn [interp_from].
  - apply Qle_refl.
  - destruct Hr as [Hx01 [Hf01 Hr]].
    destruct (Qltb x (fst p1)) eqn:E.
    + apply segment_lower; lra.
    + apply Qltb_false in E. apply Qle_trans with (snd p1); [exact Hf01|].
      now apply IH.
Qed.

Lemma interp_from_mono (x y : Q) (pts : list (Q * Q)) :
  forall p0, rising p0 pts -> fst p0 <= x -> x <= y ->
             interp_from x p0 pts <= interp_from y p0 pts.
Proof.
  induction pts as [|p1 pts IH]; intros p0 Hr Hx Hxy; cbn [interp_from].
  - apply Qle_refl.
  - destruct Hr as [Hx01 [Hf01 Hr]].
    destruct (Qltb x (fst p1)) eqn:Ex; destruct (Qltb y (fst p1)) eqn:Ey.
    + apply segment_mono; lra.
    + apply Qltb_true in Ex. apply Qltb_false in Ey.
      apply Qle_trans with (snd p1).
      * apply segment_upper; lra.
      * now apply interp_from_lower.
    + apply Qltb_false in Ex. apply Qltb_true in Ey. lra.
    + apply Qltb_false in Ex. now apply IH.
Qed.

Lemma rising_combine (xs fs : list Q) :
  StronglySorted Qlt xs -> StronglySorted Qle fs ->
  forall p0 pts, combine xs fs = p0 :: pts -> rising p0 pts.
Proof.
  intros Hxs. revert fs. induction Hxs as [|x xs Hs IH Hx]; intros fs Hfs p0 pts E.
  - discriminate.
  - destruct Hfs as [|f fs Hfs' Hf]; [discriminate|].
    cbn [combine] in E. injection E as <- <-.
    destruct (combine xs fs) as [|p1 pts'] eqn:Ec; [exact I|].
    cbn [rising fst snd].
    assert (Hin : In p1 (combine xs fs)) by (rewrite Ec; now left).
    destruct p1 as [x1 f1]. cbn [fst snd].
    pose proof (in_combine_l _ _ _ _ Hin) as Hin1.
    pose proof (in_combine_r _ _ _ _ Hin) as Hin2.
    rewrite Forall_forall in Hx, Hf.
    split; [now apply Hx|]. split; [now apply Hf|].
    now apply (IH fs Hfs').
Qed.

(** X16.  Histogram equalization keeps the order of intensities: the volume
    [equalize_hist] returns is the input sent, pixel by pixel, through one
    function that never decreases, so a pixel at least as bright as another
    before is at least as bright after. *)
Theorem equalize_hist_monotone (image : ndarray Q) :
  exists f : Q -> Q,
    Exposure.equalize_hist image = Ok (amap f image) /\
    forall x y, x <= y -> f x <= f y.
Proof.
  unfold Exposure.equalize_hist, Exposure.equalize_hist_nbins.
  change (256 =? 0)%nat with false. cbv iota.
  pose proof (cumulative_distribution_lengths (flat image) 256) as [L1 L2].
  assert (H256 : 256%nat <> 0%nat) by discriminate.
  pose proof (cdf_sorted (flat image) 256) as Hcdf.
  pose proof (bin_centers_sorted (flat image) 256 H256) as Hcen.
  destruct (Exposure.cumulative_distribution (flat image) 256)
    as [cdf bin_centers].
  cbn [fst snd] in *.
  destruct (combine bin_centers cdf) as [|p0 pts] eqn:E.
  { apply (f_equal (@length (Q * Q))) in E.
    rewrite length_combine, L1, L2 in E. discriminate. }
  pose proof (rising_combine bin_centers cdf Hcen Hcdf p0 pts E) as Hr.
  eexists. split; [reflexivity|].
  intros x y Hxy. cbv beta.
  destruct (Qltb x (fst p0)) eqn:Ex; destruct (Qltb y (fst p0)) eqn:Ey.
  - apply Qle_refl.
  - apply Qltb_false in Ey. now apply interp_from_lower.
  - apply Qltb_false in Ex. apply Qltb_true in Ey. lra.
  - apply Qltb_false in Ex. now apply interp_from_mono.
Qed.

(** ** Cell 15: more about gamma correction *)

Section GammaMore.

Local Open Scope R_scope.

Lemma exists_negative (l : list R) :
  existsb Gamma.negative l = true <-> Exists (fun x => x < 0) l.
Proof.
  rewrite existsb_exists, Exists_exists.
  split; intros [x [Hin Hx]]; exists x; split; auto.
  - unfold Gamma.negative in Hx. destruct (Rlt_dec x 0); [assumption|discriminate].
  - now apply negative_true.
Qed.

Lemma power_nonneg (x g : R) : 0 <= x -> 0 <= Gamma.power x g.
Proof.
  intros Hx. unfold Gamma.power.
  destruct (Req_dec_T x 0).
  - destruct (Req_dec_T g 0); lra.
  - unfold Rpower. left. apply exp_pos.
Qed.

Lemma power_zero_exponent (x : R) : 0 <= x -> Gamma.power x 0 = 1.
Proof.
  intros Hx. unfold Gamma.power. destruct (Req_dec_T x 0).
  - destruct (Req_dec_T 0 0); [reflexivity|congruence].
  - apply Rpower_O. lra.
Qed.

Lemma power_mono (x y g : R) :
  0 <= x -> x <= y -> 0 <= g -> Gamma.power x g <= Gamma.power y g.
Proof.
  intros Hx Hxy Hg. destruct (Req_dec_T x 0) as [->|Hn].
  - destruct (Req_dec_T y 0) as [->|Hy]; [lra|].
    destruct (Req_dec_T g 0) as [->|Hg0].
    + rewrite !power_zero_exponent by lra. lra.
    + rewrite power_zero_base by exact Hg0. apply power_nonneg. lra.
  - rewrite !power_positive_base by lra. apply Rle_Rpower_l; lra.
Qed.

(** X17.  [adjust_gamma] returns an array exactly when the exponent is not
    negative and no pixel is negative; the array has the shape of the
    input.  A negative exponent is refused first, with its own message,
    then a negative pixel. *)
Theorem adjust_gamma_domain (image : ndarray R) (gamma : R) :
  ((exists out, Gamma.adjust_gamma image gamma = Ok out)
   <-> (0 <= gamma /\ Forall (fun x => 0 <= x) (flat image))) /\
  (forall out, Gamma.adjust_gamma image gamma = Ok out ->
               shape out = shape image) /\
  (gamma < 0 ->
   Gamma.adjust_gamma image gamma
   = Raise (ValueError "Gamma should be a non-negative real number.")) /\
  (0 <= gamma -> Exists (fun x => x < 0) (flat image) ->
   Gamma.adjust_gamma image gamma
   = Raise (ValueError
       "Image Correction methods work correctly only on images with non-negative values. Use skimage.exposure.rescale_intensity.")).
Proof.
  assert (Hneg : gamma < 0 ->
            Gamma.adjust_gamma image gamma
            = Raise (ValueError "Gamma should be a non-negative real number.")).
  { intros H. unfold Gamma.adjust_gamma, Gamma.adjust_gamma_gain.
    now rewrite negative_true. }
  assert (Hpix : 0 <= gamma -> Exists (fun x => x < 0) (flat image) ->
            Gamma.adjust_gamma image gamma
            = Raise (ValueError
                "Image Correction methods work correctly only on images with non-negative values. Use skimage.exposure.rescale_intensity.")).
  { intros Hg Hex. unfold Gamma.adjust_gamma, Gamma.adjust_gamma_gain.
    rewrite negative_false by exact Hg.
    apply exists_negative in Hex. now rewrite Hex. }
  split; [|split; [|split; assumption]].
  - split.
    + intros [out Hout]. destruct (Rlt_dec gamma 0) as [Hlt|Hge].
      { rewrite Hneg in Hout by exact Hlt. discriminate. }
      split; [lra|].
      apply Forall_forall. intros x Hx.
      destruct (Rlt_dec x 0) as [Hx0|Hx0]; [|lra].
      rewrite Hpix in Hout; [discriminate|lra|].
      apply Exists_exists. eauto.
    + intros [Hg Hpos]. rewrite adjust_gamma_run by assumption.
      eexists. reflexivity.
  - intros out Hout. unfold Gamma.adjust_gamma, Gamma.adjust_gamma_gain in Hout.
    destruct (Gamma.negative gamma); [discriminate|].
    destruct (existsb Gamma.negative (flat image)); [discriminate|].
    apply Ok_inj in Hout. subst out. reflexivity.
Qed.

Lemma adjust_gamma_domain_witness :
  Gamma.adjust_gamma (mk_ndarray [1; 1; 2]%nat [-1; 1 / 2]) (1 / 2)
  = Raise (ValueError
      "Image Correction methods work correctly only on images with non-negative values. Use skimage.exposure.rescale_intensity.").
Proof.
  apply (proj2 (proj2 (proj2 (adjust_gamma_domain
                                (mk_ndarray [1; 1; 2]%nat [-1; 1 / 2]) (1 / 2))))).
  - lra.
  - apply Exists_cons_hd. lra.
Defined.

(** X19.  Gamma correction keeps the order of intensities, and the exponent
    0 turns every pixel, black ones included, into 1: for an exponent that
    is not negative, the returned image is the input sent pixel by pixel
    through a function that never decreases on the non-negative numbers. *)
Theorem adjust_gamma_monotone (image : ndarray R) (gamma : R) :
  Forall (fun x => 0 <= x) (flat image) -> 0 <= gamma ->
  exists f : R -> R,
    Gamma.adjust_gamma image gamma = Ok (amap f image) /\
    (forall x y, 0 <= x -> x <= y -> f x <= f y) /\
    (gamma = 0 -> forall x, 0 <= x -> f x = 1).
Proof.
  intros Hpos Hg. exists (fun x => Gamma.power x gamma).
  split; [now apply adjust_gamma_run|]. split.
  - intros x y Hx Hxy. now apply power_mono.
  - intros -> x Hx. now apply power_zero_exponent.
Qed.

Lemma adjust_gamma_monotone_witness :
  exists f : R -> R,
    Gamma.adjust_gamma (mk_ndarray [1; 1; 2]%nat [1 / 4; 1]) 0
    = Ok (amap f (mk_ndarray [1; 1; 2]%nat [1 / 4; 1])) /\
    f (1 / 4) = 1.
Proof.
  destruct (adjust_gamma_monotone (mk_ndarray [1; 1; 2]%nat [1 / 4; 1]) 0)
    as [f [H1 [_ H2]]]; try lra.
  - repeat constructor; lra.
  - exists f. split; [exact H1|]. apply H2; [reflexivity|lra].
Defined.

Lemma Forall2_map_same {A} (P : R -> R -> Prop) (f g : A -> R) (l : list A) :
  (forall x, In x l -> P (f x) (g x)) -> Forall2 P (map f l) (map g l).
Proof.
  induction l as [|x l IH]; intros H; cbn [map]; constructor.
  - apply H. now left.
  - apply IH. intros y Hy. apply H. now right.
Qed.

Lemma half_power (x : R) : 0 <= x -> Gamma.power x Gamma.gamma_low_val = sqrt x.
Proof.
  intros Hx. unfold Gamma.gamma_low_val.
  replace (5 / 10) with (/ 2) by field.
  destruct (Req_dec_T x 0) as [->|Hn].
  - rewrite power_zero_base by lra. now rewrite sqrt_0.
  - rewrite power_positive_base by lra. apply Rpower_sqrt. lra.
Qed.

Lemma three_halves_power (x : R) :
  0 <= x -> Gamma.power x Gamma.gamma_high_val = x * sqrt x.
Proof.
  intros Hx. unfold Gamma.gamma_high_val.
  destruct (Req_dec_T x 0) as [->|Hn].
  - rewrite power_zero_base by lra. lra.
  - rewrite power_positive_base by lra.
    replace (15 / 10) with (1 + / 2) by field.
    rewrite Rpower_plus, Rpower_1, Rpower_sqrt by lra. reflexivity.
Qed.

(** X20.  What the two corrections of cell 15 are: on the loaded volume,
    whose pixels lie in [0, 1], [gamma_low] is the square root of every
    pixel and [gamma_high] is every pixel times its square root; pixel by
    pixel, [gamma_high <= data <= gamma_low]. *)
Theorem gamma_low_high_pixels (data : ndarray Q) :
  Forall unit_interval (flat data) ->
  exists low high,
    Gamma.gamma_low data = Ok low /\
    Gamma.gamma_high data = Ok high /\
    flat low = map (fun x => sqrt (Q2R x)) (flat data) /\
    flat high = map (fun x => Q2R x * sqrt (Q2R x)) (flat data) /\
    Forall2 Rle (flat high) (flat (Gamma.as_real data)) /\
    Forall2 Rle (flat (Gamma.as_real data)) (flat low).
Proof.
  intros Hu.
  assert (HuR : forall x, In x (flat data) -> 0 <= Q2R x <= 1).
  { intros x Hx. rewrite Forall_forall in Hu. apply Q2R_unit. now apply Hu. }
  assert (Hpos : Forall (fun x => 0 <= x) (flat (Gamma.as_real data))).
  { unfold Gamma.as_real. cbn [amap flat]. apply Forall_forall.
    intros y Hy. apply in_map_iff in Hy as [x [<- Hx]]. now apply HuR. }
  unfold Gamma.gamma_low, Gamma.gamma_high.
  rewrite !adjust_gamma_run
    by (assumption || unfold Gamma.gamma_low_val, Gamma.gamma_high_val; lra).
  eexists _, _. split; [reflexivity|]. split; [reflexivity|].
  unfold Gamma.as_real. cbn [amap flat shape]. rewrite !map_map.
  split; [|split; [|split]].
  - apply map_ext_in. intros x Hx. apply half_power. now apply HuR.
  - apply map_ext_in. intros x Hx. apply three_halves_power. now apply HuR.
  - apply Forall2_map_same. intros x Hx. apply power_not_above.
    + now apply HuR.
    + unfold Gamma.gamma_high_val. lra.
  - apply Forall2_map_same. intros x Hx. apply power_not_below.
    + now apply HuR.
    + unfold Gamma.gamma_low_val. lra.
Qed.

Lemma gamma_low_high_pixels_witness :
  exists low high,
    Gamma.gamma_low (mk_ndarray [1; 1; 2]%nat [1 # 4; 1]%Q) = Ok low /\
    Gamma.gamma_high (mk_ndarray [1; 1; 2]%nat [1 # 4; 1]%Q) = Ok high.
Proof.
  destruct (gamma_low_high_pixels (mk_ndarray [1; 1; 2]%nat [1 # 4; 1]%Q))
    as [low [high [H1 [H2 _]]]].
  - repeat constructor; discriminate.
  - exists low, high. auto.
Defined.

End GammaMore.

(** ** Cell 23: more about percentile clipping *)

(** A percentile lies between any two bounds of the pixels. *)
Lemma percentile_between (l : list Q) (q a b v : Q) :
  Forall (fun x => a <= x <= b) l -> percentile l q = Ok v -> a <= v <= b.
Proof.
  intros Hab. unfold percentile.
  destruct (negb (Qle_bool 0 q && Qle_bool q 100)); [discriminate|].
  destruct (sort l) as [|x0 s'] eqn:Es; [discriminate|].
  set (s := x0 :: s') in *.
  assert (Hs : forall k, a <= nth k s x0 <= b).
  { intros k. rewrite Forall_forall in Hab. apply Hab, In_sort.
    rewrite Es. destruct (nth_in_or_default k s x0) as [H| ->]; [exact H|].
    now left. }
  intros H. apply Ok_inj in H. subst v.
  set (virtual := inject_Z (Z.of_nat (length s - 1)) * (q / 100)).
  pose proof (Qfloor_le virtual) as Hf1.
  pose proof (Qlt_floor virtual) as Hf2.
  rewrite inject_Z_plus in Hf2. change (inject_Z 1) with 1 in Hf2.
  change (a <= nth (Z.to_nat (Qfloor virtual)) s x0
               + (nth (Nat.min (Z.to_nat (Qfloor virtual) + 1) (length s - 1)) s x0
                  - nth (Z.to_nat (Qfloor virtual)) s x0)
                 * (virtual - inject_Z (Qfloor virtual)) <= b).
  set (g := virtual - inject_Z (Qfloor virtual)).
  assert (Hg : 0 <= g <= 1) by (unfold g; lra).
  pose proof (Hs (Z.to_nat (Qfloor virtual))) as Hlo.
  pose proof (Hs (Nat.min (Z.to_nat (Qfloor virtual) + 1) (length s - 1))) as Hhi.
  revert Hlo Hhi.
  generalize (nth (Z.to_nat (Qfloor virtual)) s x0).
  generalize (nth (Nat.min (Z.to_nat (Qfloor virtual) + 1) (length s - 1)) s x0).
  clearbody g. intros hi lo Hlo Hhi. split; nra.
Qed.

Lemma percentiles_run (data : ndarray Q) :
  flat data <> [] ->
  exists vmin vmax,
    percentiles data = Ok (vmin, vmax) /\ vmin <= vmax /\
    forall a b, Forall (fun x => a <= x <= b) (flat data) ->
                a <= vmin /\ vmax <= b.
Proof.
  intros Hne.
  assert (Hex : forall q, 0 <= q <= 100 -> exists v, percentile (flat data) q = Ok v).
  { intros q [H0 H1]. unfold percentile.
    apply Qle_bool_iff in H0. apply Qle_bool_iff in H1. rewrite H0, H1.
    cbn [andb negb].
    destruct (sort (flat data)) as [|x0 s'] eqn:Es; [|eexists; reflexivity].
    apply (f_equal (@length Q)) in Es. rewrite sort_length in Es.
    destruct (flat data); [congruence|discriminate]. }
  destruct (Hex (5 # 10)) as [vmin Hmin]; [split; discriminate|].
  destruct (Hex (995 # 10)) as [vmax Hmax]; [split; discriminate|].
  exists vmin, vmax. split; [unfold percentiles; now rewrite Hmin, Hmax|].
  split.
  - apply (percentile_monotone (flat data) (5 # 10) (995 # 10));
      try assumption; discriminate.
  - intros a b Hab.
    pose proof (percentile_between _ _ a b vmin Hab Hmin).
    pose proof (percentile_between _ _ a b vmax Hab Hmax).
    tauto.
Qed.

(** X21.  The two percentiles of cell 23 exist for every volume with pixels,
    whatever the sign of the pixels, and lie between the darkest and the
    brightest pixel: [data.min() <= vmin <= vmax <= data.max()]. *)
Theorem percentiles_within_range (data : ndarray Q) :
  flat data <> [] ->
  exists vmin vmax lo hi,
    percentiles data = Ok (vmin, vmax) /\
    amin data = Ok lo /\ amax data = Ok hi /\
    lo <= vmin /\ vmin <= vmax /\ vmax <= hi.
Proof.
  intros Hne.
  destruct (percentiles_run data Hne) as [vmin [vmax [Hp [Hle Hab]]]].
  destruct (amin_nonempty data Hne) as [lo Hlo].
  destruct (amax_nonempty data Hne) as [hi Hhi].
  destruct (amin_spec data lo Hlo) as [_ H1].
  destruct (amax_spec data hi Hhi) as [_ H2].
  exists vmin, vmax, lo, hi.
  destruct (Hab lo hi) as [Ha Hb].
  { apply Forall_forall. intros x Hx. split; auto. }
  repeat split; assumption.
Qed.

Lemma percentiles_within_range_witness :
  exists vmin vmax lo hi,
    percentiles (mk_ndarray [1; 1; 2]%nat [0; 1 # 2]) = Ok (vmin, vmax) /\
    amin (mk_ndarray [1; 1; 2]%nat [0; 1 # 2]) = Ok lo /\
    amax (mk_ndarray [1; 1; 2]%nat [0; 1 # 2]) = Ok hi /\
    lo <= vmin /\ vmin <= vmax /\ vmax <= hi.
Proof.
  apply (percentiles_within_range (mk_ndarray [1; 1; 2]%nat [0; 1 # 2])).
  discriminate.
Defined.

Lemma amin_value (a : ndarray Q) (v : Q) :
  (exists x, In x (flat a) /\ x == v) ->
  (forall x, In x (flat a) -> v <= x) ->
  exists m, amin a = Ok m /\ m == v.
Proof.
  intros [x [Hx Hxv]] Hall.
  destruct (amin_nonempty a) as [m Hm]; [intros E; rewrite E in Hx; contradiction|].
  destruct (amin_spec a m Hm) as [Hin Hle].
  exists m. split; [exact Hm|]. apply Qle_antisym.
  - rewrite <- Hxv. now apply Hle.
  - now apply Hall.
Qed.

Lemma amax_value (a : ndarray Q) (v : Q) :
  (exists x, In x (flat a) /\ x == v) ->
  (forall x, In x (flat a) -> x <= v) ->
  exists m, amax a = Ok m /\ m == v.
Proof.
  intros [x [Hx Hxv]] Hall.
  destruct (amax_nonempty a) as [m Hm]; [intros E; rewrite E in Hx; contradiction|].
  destruct (amax_spec a m Hm) as [Hin Hle].
  exists m. split; [exact Hm|]. apply Qle_antisym.
  - now apply Hall.
  - rewrite <- Hxv. now apply Hle.
Qed.

(** X22.  Percentile clipping stretches the contrast fully: on a volume of
    non-negative pixels whose two percentiles differ, the darkest pixel of
    the result is exactly 0 and the brightest exactly 1. *)
Theorem clipped_data_full_range (data : ndarray Q) (vmin vmax : Q) :
  flat data <> [] -> Forall (fun x => 0 <= x) (flat data) ->
  percentiles data = Ok (vmin, vmax) -> vmin < vmax ->
  exists out lo hi,
    clipped_data data = Ok out /\
    amin out = Ok lo /\ amax out = Ok hi /\ lo == 0 /\ hi == 1.
Proof.
  intros Hne Hpos Hp Hlt.
  destruct (clipped_data_run data Hne Hpos)
    as [vmin' [vmax' [out [Hp' [_ [_ [Hout [_ [Hunit Hstretch]]]]]]]]].
  rewrite Hp in Hp'. apply Ok_inj in Hp'. injection Hp' as <- <-.
  destruct (Hstretch Hlt) as [Hflat [Hbelow [Habove _]]].
  destruct (percentiles_run data Hne) as [v1 [v2 [Hp2 [_ Hab]]]].
  rewrite Hp in Hp2. apply Ok_inj in Hp2. injection Hp2 as <- <-.
  destruct (amin_nonempty data Hne) as [dlo Hdlo].
  destruct (amax_nonempty data Hne) as [dhi Hdhi].
  destruct (amin_spec data dlo Hdlo) as [Hin1 Hle1].
  destruct (amax_spec data dhi Hdhi) as [Hin2 Hle2].
  destruct (Hab dlo dhi) as [Ha Hb].
  { apply Forall_forall. intros x Hx. split; auto. }
  rewrite Forall_forall in Hunit.
  destruct (amin_value out 0) as [lo [Hlo Hlo0]].
  { exists (stretch vmin vmax dlo). split.
    - rewrite Hflat. now apply in_map.
    - now apply Hbelow. }
  { intros x Hx. now apply Hunit. }
  destruct (amax_value out 1) as [hi [Hhi Hhi1]].
  { exists (stretch vmin vmax dhi). split.
    - rewrite Hflat. now apply in_map.
    - now apply Habove. }
  { intros x Hx. now apply Hunit. }
  exists out, lo, hi. repeat split; assumption.
Qed.

Lemma clipped_data_full_range_witness :
  exists out lo hi,
    clipped_data (mk_ndarray [1; 1; 2]%nat [0; 1 # 2]) = Ok out /\
    amin out = Ok lo /\ amax out = Ok hi /\ lo == 0 /\ hi == 1.
Proof.
  apply (clipped_data_full_range (mk_ndarray [1; 1; 2]%nat [0; 1 # 2])
           (5 # 2000) (995 # 2000)).
  - discriminate.
  - repeat constructor; discriminate.
  - vm_compute. reflexivity.
  - reflexivity.
Defined.

Lemma Qmin_le_compat (x y h : Q) : x <= y -> Qmin x h <= Qmin y h.
Proof.
  intros H. apply Q.min_glb.
  - apply Qle_trans with x; [apply Q.le_min_l|exact H].
  - apply Q.le_min_r.
Qed.

Lemma Qmax_le_compat (x y l : Q) : x <= y -> Qmax x l <= Qmax y l.
Proof.
  intros H. apply Q.max_lub.
  - apply Qle_trans with y; [exact H|apply Q.le_max_l].
  - apply Q.le_max_r.
Qed.

Lemma clip_mono (lo hi x y : Q) : x <= y -> clip lo hi x <= clip lo hi y.
Proof.
  intros H. unfold clip. now apply Qmin_le_compat, Qmax_le_compat.
Qed.

(** X23.  The edge of cell 23 where both percentiles coincide: on a volume
    all of whose pixels have the same value [v >= 0], both percentiles are
    [v] and nothing is stretched.  The result has the shape of the volume
    and is constant again, with its pixels between 0 and 1: its darkest and
    its brightest pixel are the same, so the full range that the stretch
    gives a volume of two values is not reached.  The pixels are 0 when [v]
    is 0 and 1 when [v] is 1 or more. *)
Theorem clipped_data_constant (data : ndarray Q) (v : Q) :
  flat data <> [] -> 0 <= v -> Forall (fun x => x == v) (flat data) ->
  exists vmin vmax out lo hi,
    percentiles data = Ok (vmin, vmax) /\ vmin == v /\ vmax == v /\
    clipped_data data = Ok out /\
    shape out = shape data /\
    amin out = Ok lo /\ amax out = Ok hi /\ lo == hi /\
    Forall (fun y => y == lo /\ unit_interval y) (flat out) /\
    (v == 0 -> lo == 0) /\
    (1 <= v -> lo == 1).
Proof.
  intros Hne Hv Hconst.
  destruct (percentiles_run data Hne) as [vmin [vmax [Hp [Hle Hab]]]].
  destruct (Hab v v) as [Ha Hb].
  { eapply Forall_impl; [|exact Hconst]. intros x Hx. cbv beta in Hx.
    rewrite Hx. split; apply Qle_refl. }
  assert (Hmin : vmin == v) by (apply Qle_antisym; lra).
  assert (Hmax : vmax == v) by (apply Qle_antisym; lra).
  assert (H0 : Qle_bool 0 vmin = true) by (apply Qle_bool_iff; lra).
  assert (He : Qeq_bool vmin vmax = true) by (apply Qeq_bool_iff; lra).
  set (out := amap (clip 0 1) (amap (clip vmin vmax) data)).
  assert (Hout : clipped_data data = Ok out).
  { unfold clipped_data. rewrite Hp. cbn [bind fst snd].
    unfold Exposure.rescale_intensity, Exposure.intensity_range.
    cbn [bind fst snd DTYPE_RANGE]. rewrite H0, He. reflexivity. }
  assert (Hall : forall y, In y (flat out) -> y == Qmin v 1).
  { unfold out. cbn [amap flat]. rewrite map_map.
    intros y Hy. apply in_map_iff in Hy as [x [<- _]].
    assert (Hc : clip vmin vmax x == v).
    { rewrite (clip_crossed vmin vmax x) by lra. exact Hmax. }
    unfold clip at 1. rewrite Hc. rewrite Q.max_l by exact Hv. reflexivity. }
  assert (Hne' : flat out <> []).
  { unfold out. cbn [amap flat]. rewrite map_map.
    destruct (flat data); [congruence|discriminate]. }
  destruct (amin_nonempty out Hne') as [lo Hlo].
  destruct (amax_nonempty out Hne') as [hi Hhi].
  destruct (amin_spec out lo Hlo) as [Hin1 _].
  destruct (amax_spec out hi Hhi) as [Hin2 _].
  pose proof (Hall lo Hin1) as E1. pose proof (Hall hi Hin2) as E2.
  exists vmin, vmax, out, lo, hi.
  split; [exact Hp|]. split; [exact Hmin|]. split; [exact Hmax|].
  split; [exact Hout|]. split; [reflexivity|].
  split; [exact Hlo|]. split; [exact Hhi|].
  split; [now rewrite E1, E2|]. split; [|split].
  - apply Forall_forall. intros y Hy. pose proof (Hall y Hy) as E.
    split; [now rewrite E, E1|].
    unfold unit_interval. rewrite E. split.
    + apply Q.min_glb; [exact Hv|discriminate].
    + apply Q.le_min_r.
  - intros Hv0. rewrite E1, Hv0. reflexivity.
  - intros Hv1. rewrite E1. now apply Q.min_r.
Qed.

Lemma clipped_data_constant_witness :
  exists vmin vmax out lo hi,
    percentiles (mk_ndarray [1; 1; 2]%nat [1 # 2; 2 # 4]) = Ok (vmin, vmax) /\
    vmin == 1 # 2 /\ vmax == 1 # 2 /\
    clipped_data (mk_ndarray [1; 1; 2]%nat [1 # 2; 2 # 4]) = Ok out /\
    shape out = [1; 1; 2]%nat /\
    amin out = Ok lo /\ amax out = Ok hi /\ lo == hi.
Proof.
  destruct (clipped_data_constant (mk_ndarray [1; 1; 2]%nat [1 # 2; 2 # 4]) (1 # 2))
    as [vmin [vmax [out [lo [hi [H1 [H2 [H3 [H4 [H5 [H6 [H7 [H8 _]]]]]]]]]]]]].
  - discriminate.
  - discriminate.
  - repeat constructor; reflexivity.
  - exists vmin, vmax, out, lo, hi. repeat split; assumption.
Defined.

(** X24.  Percentile clipping keeps the order of intensities: on every
    volume with pixels, the result of cell 23 is the input sent pixel by
    pixel through one function that never decreases. *)
Theorem clipped_data_monotone (data : ndarray Q) :
  flat data <> [] ->
  exists f : Q -> Q,
    clipped_data data = Ok (amap f data) /\
    forall x y, x <= y -> f x <= f y.
Proof.
  intros Hne.
  destruct (percentiles_run data Hne) as [vmin [vmax [Hp [Hle _]]]].
  unfold clipped_data. rewrite Hp. cbn [bind fst snd].
  unfold Exposure.rescale_intensity, Exposure.intensity_range.
  cbn [bind fst snd DTYPE_RANGE].
  set (omin := if Qle_bool 0 vmin then 0 else -1).
  assert (Ho : 0 <= 1 - omin) by (unfold omin; destruct (Qle_bool 0 vmin); discriminate).
  destruct (Qeq_bool vmin vmax) eqn:E; cbn [negb].
  - exists (fun x => clip omin 1 (clip vmin vmax x)). split.
    + unfold amap. cbn [shape flat]. now rewrite map_map.
    + intros x y Hxy. now apply clip_mono, clip_mono.
  - exists (fun x => (clip vmin vmax x - vmin) / (vmax - vmin) * (1 - omin) + omin).
    split.
    + unfold amap. cbn [shape flat]. now rewrite map_map.
    + intros x y Hxy. pose proof (clip_mono vmin vmax x y Hxy) as Hc.
      assert (Hlt : vmin < vmax).
      { apply Qnot_le_lt. intros Hge.
        assert (Heq : vmin == vmax) by (now apply Qle_antisym).
        apply Qeq_bool_iff in Heq. congruence. }
      revert Hc. generalize (clip vmin vmax x). generalize (clip vmin vmax y).
      intros cy cx Hc.
      assert (Hd : (cx - vmin) / (vmax - vmin) <= (cy - vmin) / (vmax - vmin)).
      { unfold Qdiv. apply Qmult_le_compat_r; [lra|].
        apply Qinv_le_0_compat. lra. }
      revert Hd. generalize ((cx - vmin) / (vmax - vmin)).
      generalize ((cy - vmin) / (vmax - vmin)). clearbody omin.
      intros ty tx Hd. nra.
Qed.

Lemma clipped_data_monotone_witness :
  exists f : Q -> Q,
    clipped_data (mk_ndarray [1; 1; 2]%nat [0; 1 # 2])
    = Ok (amap f (mk_ndarray [1; 1; 2]%nat [0; 1 # 2])) /\
    forall x y, x <= y -> f x <= f y.
Proof.
  apply (clipped_data_monotone (mk_ndarray [1; 1; 2]%nat [0; 1 # 2])).
  discriminate.
Defined.

(** ** The derived volumes do not depend on the order of the cells *)

Lemma mbind_ok {A T U} (m : Store.M A T) (k : T -> Store.M A U)
    (h : Store.heap A) (x : T) :
  snd (m h) = Ok x -> Store.mbind m k h = k x (fst (m h)).
Proof.
  intros H. unfold Store.mbind. now rewrite H.
Qed.

(** Running two computations that return copies of the same input, one
    after the other: the two results are on two blocks, neither of which is
    the block of the input. *)
Lemma two_copies {A} (m1 m2 : Store.M A Store.array) (image : Store.array)
    (pure1 pure2 : ndarray A -> result (ndarray A))
    (h : Store.heap A) (block : list A) (b1 b2 : ndarray A) :
  returns_copy m1 image pure1 -> returns_copy m2 image pure2 ->
  nth_error h (Store.base image) = Some block ->
  length block = size (Store.dims image) ->
  pure1 (mk_ndarray (Store.dims image) block) = Ok b1 ->
  pure2 (mk_ndarray (Store.dims image) block) = Ok b2 ->
  let run := Store.mbind m1 (fun r1 =>
             Store.mbind m2 (fun r2 => Store.ret (r1, r2))) h in
  exists r1 r2,
    snd run = Ok (r1, r2) /\
    Store.base r1 <> Store.base r2 /\
    Store.base r1 <> Store.base image /\
    Store.base r2 <> Store.base image /\
    snd (Store.read r1 (fst run)) = Ok b1 /\
    snd (Store.read r2 (fst run)) = Ok b2 /\
    snd (Store.read image (fst run))
    = Ok (mk_ndarray (Store.dims image) block) /\
    (forall c,
       snd (Store.read r2 (fst (Store.assign r1 c (fst run)))) = Ok b2) /\
    (forall c,
       snd (Store.read r1 (fst (Store.assign r2 c (fst run)))) = Ok b1).
Proof.
  intros H1 H2 Ha Hwf Hp1 Hp2 run.
  destruct (H1 h block Ha Hwf) as [Hkeep1 Hres1]. rewrite Hp1 in Hres1.
  destruct Hres1 as [r1 [Hs1 [Hne1 [Hnew1 [Hat1 _]]]]].
  pose proof (Hkeep1 _ _ Ha) as Ha1.
  destruct (H2 (fst (m1 h)) block Ha1 Hwf) as [Hkeep2 Hres2].
  rewrite Hp2 in Hres2.
  destruct Hres2 as [r2 [Hs2 [Hne2 [Hnew2 [Hat2 _]]]]].
  apply read_shows in Hat1 as [Hb1 Hd1].
  exists r1, r2. unfold run.
  rewrite (mbind_ok m1 _ h r1 Hs1), (mbind_ok m2 _ (fst (m1 h)) r2 Hs2).
  cbn [Store.ret fst snd].
  assert (Hne : Store.base r1 <> Store.base r2).
  { intros E. rewrite <- E, Hb1 in Hnew2. discriminate. }
  pose proof Hat2 as Hat2'. apply read_shows in Hat2' as [Hb2 Hd2].
  split; [reflexivity|]. split; [exact Hne|].
  split; [exact Hne1|]. split; [exact Hne2|].
  split; [apply read_shows; split; [now apply Hkeep2|exact Hd1]|].
  split; [exact Hat2|].
  split; [apply read_shows; split; [now apply Hkeep2|reflexivity]|].
  split; intros c; apply read_shows; unfold Store.assign; cbn [fst].
  - rewrite nth_error_replace_other by exact Hne. now split.
  - rewrite nth_error_replace_other by congruence.
    split; [now apply Hkeep2|exact Hd1].
Qed.

(** X25.  Cells 17 and 23 can run in either order.  With the volume in the
    memory, equalizing and then rescaling, or rescaling and then equalizing,
    ends with the same two arrays -- those the functions return on the
    volume itself -- on two blocks of their own, neither of which is the
    block of the volume, and with the volume showing what it showed.  The
    two derived volumes share no memory with each other either: an
    assignment to one does not show in the other. *)
Theorem exposure_order_irrelevant (h : Store.heap Q) (image : Store.array)
    (block : list Q) (vmin vmax : Q) :
  nth_error h (Store.base image) = Some block ->
  length block = size (Store.dims image) ->
  let data := mk_ndarray (Store.dims image) block in
  let equalize := Store.equalize_hist image 256 in
  let rescale := Store.rescale_intensity image (Exposure.Pair vmin vmax)
                   (Exposure.OfType float32) in
  let run1 := Store.mbind equalize (fun e =>
              Store.mbind rescale (fun c => Store.ret (e, c))) h in
  let run2 := Store.mbind rescale (fun c =>
              Store.mbind equalize (fun e => Store.ret (c, e))) h in
  exists equalized clipped e1 c1 e2 c2,
    Exposure.equalize_hist data = Ok equalized /\
    Exposure.rescale_intensity data (Exposure.Pair vmin vmax)
      (Exposure.OfType float32) = Ok clipped /\
    snd run1 = Ok (e1, c1) /\ snd run2 = Ok (c2, e2) /\
    Store.base e1 <> Store.base c1 /\ Store.base e2 <> Store.base c2 /\
    Store.base e1 <> Store.base image /\ Store.base c1 <> Store.base image /\
    Store.base e2 <> Store.base image /\ Store.base c2 <> Store.base image /\
    snd (Store.read e1 (fst run1)) = Ok equalized /\
    snd (Store.read e2 (fst run2)) = Ok equalized /\
    snd (Store.read c1 (fst run1)) = Ok clipped /\
    snd (Store.read c2 (fst run2)) = Ok clipped /\
    snd (Store.read image (fst run1)) = Ok data /\
    snd (Store.read image (fst run2)) = Ok data /\
    (forall c,
       snd (Store.read c1 (fst (Store.assign e1 c (fst run1)))) = Ok clipped) /\
    (forall c,
       snd (Store.read e1 (fst (Store.assign c1 c (fst run1)))) = Ok equalized).
Proof.
  intros Ha Hwf data equalize rescale run1 run2.
  destruct (equalize_hist_nbins_unit data 256) as [equalized [He _]];
    [discriminate|].
  destruct (rescale_intensity_run data vmin vmax float32) as [clipped Hc].
  destruct (two_copies equalize rescale image _ _ h block equalized clipped
              (equalize_hist_returns_copy image 256)
              (rescale_intensity_returns_copy image _ _) Ha Hwf He Hc)
    as [e1 [c1 [Hr1 [Hd1 [Hi1 [Hj1 [He1 [Hc1 [Hk1 [Hx1 Hy1]]]]]]]]]].
  destruct (two_copies rescale equalize image _ _ h block clipped equalized
              (rescale_intensity_returns_copy image _ _)
              (equalize_hist_returns_copy image 256) Ha Hwf Hc He)
    as [c2 [e2 [Hr2 [Hd2 [Hi2 [Hj2 [Hc2 [He2 [Hk2 _]]]]]]]]].
  exists equalized, clipped, e1, c1, e2, c2.
  repeat split; try assumption. congruence.
Qed.

Lemma exposure_order_irrelevant_witness :
  exists e1 c1,
    snd (Store.mbind (Store.equalize_hist (Store.mk_array 0%nat [1; 1; 2]%nat) 256)
           (fun e =>
         Store.mbind (Store.rescale_intensity (Store.mk_array 0%nat [1; 1; 2]%nat)
                        (Exposure.Pair (1 # 400) (199 # 400))
                        (Exposure.OfType float32))
                     (fun c => Store.ret (e, c)))
           [[0; 1 # 2]])
    = Ok (e1, c1) /\ Store.base e1 <> Store.base c1.
Proof.
  destruct (exposure_order_irrelevant [[0; 1 # 2]]
              (Store.mk_array 0%nat [1; 1; 2]%nat) [0; 1 # 2]
              (1 # 400) (199 # 400) eq_refl eq_refl)
    as [eq [cl [e1 [c1 [e2 [c2 [_ [_ [H1 [_ [H2 _]]]]]]]]]]].
  exists e1, c1. auto.
Defined.

(** ** Cell 4: the conversion, and cell 8: the views *)

(** X26.  [img_as_float] keeps the order of the pixels strictly, so it
    neither merges two grey levels nor swaps them, and it sends the ends of
    the 16-bit range to the ends of the unit interval: 0 to 0 and 65535 to
    1. *)
Theorem img_as_float_order (a : ndarray Z) :
  exists f : Z -> Q,
    img_as_float a = amap f a /\
    (forall x y, (x < y)%Z <-> f x < f y) /\
    (forall x y, x = y <-> f x == f y) /\
    f 0%Z == 0 /\ f 65535%Z == 1.
Proof.
  exists (fun x => inject_Z x * (1 / 65535)).
  split; [reflexivity|].
  assert (Hlt : forall x y, (x < y)%Z <-> inject_Z x * (1 / 65535) < inject_Z y * (1 / 65535)).
  { intros x y. rewrite Zlt_Qlt. symmetry. apply Qmult_lt_r. reflexivity. }
  split; [exact Hlt|]. split; [|split; reflexivity].
  intros x y. split; [now intros ->|].
  intros H. destruct (Z.lt_trichotomy x y) as [Hc|[Hc|Hc]]; [|exact Hc|].
  - apply Hlt in Hc. rewrite H in Hc. now apply Qlt_irrefl in Hc.
  - apply Hlt in Hc. rewrite H in Hc. now apply Qlt_irrefl in Hc.
Qed.

(** X27.  A view along the first axis is made of the matching parts of the
    planes: when [a[:, ix]] exists, its element number [i] is [a[i, ix]].
    So, in cell 8, line [i] of the middle-row image [data[:, n_row // 2, :]]
    is row [n_row // 2] of plane [i], and line [i] of the middle-column
    image is column [n_col // 2] of plane [i]. *)
Theorem view_then_index {A} (a b : ndarray A) (n : nat) (sh : list nat)
    (ix : list index) (i : Z) :
  wf a -> shape a = n :: sh -> (0 <= i < Z.of_nat n)%Z ->
  getitem a (All :: ix) = Ok b ->
  getitem b [Idx i] = getitem a (Idx i :: ix) /\
  exists part, getitem b [Idx i] = Ok part.
Proof.
  intros Hwf Hsh Hi Hb. unfold wf in Hwf. rewrite Hsh in Hwf.
  unfold getitem in Hb. rewrite Hsh in Hb. unfold All in Hb.
  cbn [getitem_shape getitem_flat] in Hb. rewrite slice_all_indices in Hb.
  cbn [bind] in Hb.
  destruct (getitem_shape sh ix) as [sh'|e] eqn:Esh; [|discriminate].
  cbn [bind] in Hb. rewrite length_seq in Hb. apply Ok_inj in Hb. subst b.
  set (G := fun j => getitem_flat sh ix (nth j (chunks (size sh) n (flat a)) [])).
  assert (HG : Forall (fun j => length (G j) = size sh') (seq 0 n)).
  { apply Forall_forall. intros j Hj. apply in_seq in Hj. unfold G.
    eapply getitem_flat_length; [exact Esh|].
    apply chunks_nth_length; [exact Hwf|lia]. }
  assert (Heq : getitem (mk_ndarray (n :: sh') (flat_map G (seq 0 n))) [Idx i]
                = Ok (mk_ndarray sh' (G (Z.to_nat i)))).
  { unfold getitem. cbn [shape flat getitem_shape getitem_flat].
    rewrite norm_index_in_range by exact Hi. cbn [bind].
    replace (getitem_shape sh' []) with (Ok sh') by (now destruct sh').
    cbn [bind]. f_equal. f_equal.
    replace (getitem_flat sh' [] (nth (Z.to_nat i)
               (chunks (size sh') n (flat_map G (seq 0 n))) []))
      with (nth (Z.to_nat i) (chunks (size sh') n (flat_map G (seq 0 n))) [])
      by (now destruct sh').
    assert (Hck : chunks (size sh') n (flat_map G (seq 0 n)) = map G (seq 0 n)).
    { rewrite <- (chunks_flat_map G (size sh') (seq 0 n) HG).
      now rewrite length_seq. }
    rewrite Hck.
    rewrite (nth_indep _ [] (G 0%nat)) by (rewrite length_map, length_seq; lia).
    rewrite map_nth, seq_nth by lia. reflexivity. }
  rewrite Heq. split; [|eexists; reflexivity].
  unfold getitem. rewrite Hsh. cbn [getitem_shape getitem_flat].
  rewrite norm_index_in_range by exact Hi. cbn [bind]. rewrite Esh.
  reflexivity.
Qed.

Lemma view_then_index_witness :
  getitem (mk_ndarray [2; 2]%nat [2; 3; 6; 7]) [Idx 1]
  = getitem (mk_ndarray [2; 2; 2]%nat [0; 1; 2; 3; 4; 5; 6; 7])
      [Idx 1; Idx 1; All].
Proof.
  apply (view_then_index (mk_ndarray [2; 2; 2]%nat [0; 1; 2; 3; 4; 5; 6; 7])
           (mk_ndarray [2; 2]%nat [2; 3; 6; 7]) 2 [2; 2]%nat [Idx 1; All] 1
           eq_refl eq_refl); [lia|reflexivity].
Defined.
